(** * PrivacyThink: the retrieval pipeline of the document assistant

    A shallow embedding of the chunker ([PrivacyDocumentProcessor]), the
    local vector store ([PrivacyStorageService]) and the orchestrator
    ([PrivacyRAGService]), followed by the properties of the specification
    that were checked against them.

    JavaScript numbers are IEEE 754 binary64 values and are modelled by
    Rocq's primitive floats; array indices, lengths and counters, which the
    code keeps integral, are [nat] or [Z].  Strings are sequences of UTF-16
    code units.  The services' fields, the IndexedDB stores and the progress
    callback are one explicit state threaded through a state-and-exception
    monad; the collaborators outside the core (identifier and clock
    readings, file-type detection, text extraction, the embedding model and
    the text generator) are parameters.  The concurrent embedding workers of
    [processDocument] are a transition system over the pending embedding
    calls. *)

From Stdlib Require Import List Arith NArith ZArith Lia Bool Ascii Floats.
From Stdlib Require Uint63 DecimalString.
From Stdlib Require String.
Import ListNotations String.StringSyntax.
Open Scope string_scope.
Open Scope list_scope.

(** ** JavaScript strings and arrays *)

Module JS.

(** A string is its sequence of UTF-16 code units. *)
Definition str := list N.

(** The code units of a literal (Latin-1 range). *)
Definition units (s : String.string) : str :=
  List.map N_of_ascii (String.list_ascii_of_string s).

Definition LF : N := 10.

(** [WhiteSpace] and [LineTerminator] code points: what [\s] matches and
    what [String.prototype.trim] strips. *)
Definition isWhiteSpace (c : N) : bool :=
  ((9 <=? c) && (c <=? 13) || (c =? 32) || (c =? 160) || (c =? 5760)
   || (8192 <=? c) && (c <=? 8202) || (c =? 8232) || (c =? 8233)
   || (c =? 8239) || (c =? 8287) || (c =? 12288) || (c =? 65279))%N.

Definition isDigit (c : N) : bool := ((48 <=? c) && (c <=? 57))%N.

Fixpoint dropWhile {A} (p : A -> bool) (l : list A) : list A :=
  match l with
  | [] => []
  | x :: l' => if p x then dropWhile p l' else l
  end.

Fixpoint takeWhile {A} (p : A -> bool) (l : list A) : list A :=
  match l with
  | [] => []
  | x :: l' => if p x then x :: takeWhile p l' else []
  end.

Definition trimStart (s : str) : str := dropWhile isWhiteSpace s.
Definition trimEnd (s : str) : str := rev (dropWhile isWhiteSpace (rev s)).

(** [s.trim()] *)
Definition trim (s : str) : str := trimEnd (trimStart s).

(** [s.slice(a, b)] and [arr.slice(a, b)] for integral [0 <= a], [0 <= b]:
    both ends are clamped to the length, and [b < a] gives the empty
    result. *)
Definition slice {A} (l : list A) (a b : nat) : list A :=
  firstn (b - a) (skipn a l).

(** [arr.slice(0, k)] for an integral [k] of either sign: a negative end
    counts from the end of the array. *)
Definition sliceTo {A} (l : list A) (k : Z) : list A :=
  if (k <? 0)%Z
  then firstn (Z.to_nat (Z.of_nat (length l) + k)) l
  else firstn (Z.to_nat k) l.

Fixpoint eqb (s t : str) : bool :=
  match s, t with
  | [], [] => true
  | c :: s', d :: t' => (c =? d)%N && eqb s' t'
  | _, _ => false
  end.

(** [arr.includes(s)] on an array of strings. *)
Definition includes (arr : list str) (s : str) : bool := existsb (eqb s) arr.

Fixpoint startsWith (s prefix : str) : bool :=
  match prefix, s with
  | [], _ => true
  | p :: prefix', c :: s' => (c =? p)%N && startsWith s' prefix'
  | _ :: _, [] => false
  end.

(** [s.indexOf(needle)]: the first position at which [needle] occurs,
    [None] standing for [-1]. *)
Fixpoint indexOf (s needle : str) : option nat :=
  if startsWith s needle then Some 0
  else match s with
       | [] => None
       | _ :: s' => option_map S (indexOf s' needle)
       end.

(** Lexicographic order on code units: the order of IndexedDB string keys. *)
Fixpoint ltb (s t : str) : bool :=
  match s, t with
  | _, [] => false
  | [], _ :: _ => true
  | c :: s', d :: t' => (c <? d)%N || (c =? d)%N && ltb s' t'
  end.

(** *** [s.split(/\n\s*\n/)]

    A separator starts at a line feed; [\s*] is greedy and backtracks, so
    the separator runs to the last line feed of the white-space run that
    follows.  [afterLF s] is the length of that continuation when [s] is
    the text after the first line feed. *)
Fixpoint afterLF (s : str) : option nat :=
  match s with
  | [] => None
  | c :: s' =>
      if isWhiteSpace c then
        match afterLF s' with
        | Some k => Some (S k)
        | None => if (c =? LF)%N then Some 1 else None
        end
      else None
  end.

(** Length of the separator matched at the start of [s], if any. *)
Definition matchSeparator (s : str) : option nat :=
  match s with
  | c :: s' => if (c =? LF)%N then option_map S (afterLF s') else None
  | [] => None
  end.

(** The scan of [split]: [skip] code units of a separator are still to be
    passed over, [cur] holds (reversed) the piece being collected. *)
Fixpoint splitScan (skip : nat) (cur : str) (s : str) : list str :=
  match s with
  | [] => [rev cur]
  | c :: s' =>
      match skip with
      | S k => splitScan k cur s'
      | O =>
          match matchSeparator s with
          | Some (S k) => rev cur :: splitScan k [] s'
          | _ => splitScan 0 (c :: cur) s'
          end
      end
  end.

Definition splitParagraphs (s : str) : list str := splitScan 0 [] s.

(** *** [s.match(/--- Page (\d+) ---/g)] *)

Definition markerPrefix : str := units "--- Page ".
Definition markerSuffix : str := units " ---".

(** The marker matched at the start of [s]: the matched text and its
    digits. *)
Definition matchMarker (s : str) : option (str * str) :=
  if startsWith s markerPrefix then
    let rest := skipn (length markerPrefix) s in
    let digits := takeWhile isDigit rest in
    match digits with
    | [] => None
    | _ :: _ =>
        if startsWith (skipn (length digits) rest) markerSuffix
        then Some (markerPrefix ++ digits ++ markerSuffix, digits)
        else None
    end
  else None.

(** All matches, left to right, a match resuming the scan at its end. *)
Fixpoint matchScan (skip : nat) (s : str) : list str :=
  match s with
  | [] => []
  | _ :: s' =>
      match skip with
      | S k => matchScan k s'
      | O =>
          match matchMarker s with
          | Some (m, _) => m :: matchScan (length m - 1) s'
          | None => matchScan 0 s'
          end
      end
  end.

Definition matchMarkers (s : str) : list str := matchScan 0 s.

(** [parseInt(digits, 10)] on a run of decimal digits.  The value is exact:
    it is the number JavaScript returns up to 2^53, beyond which JavaScript
    rounds to a double. *)
Definition parseInt (digits : str) : N :=
  fold_left (fun acc c => (10 * acc + (c - 48))%N) digits 0%N.

End JS.


(** ** Records of [types/index.ts] *)

Module Types.
Import JS.

Inductive DocumentType := pdf | docx | txt | audio | image.

(** [DocumentChunk] (and [StoredChunk], which differs only in that its
    embedding is never absent).  The optional [metadata] is never written by
    the code modelled here and is left out. *)
Record DocumentChunk := mkChunk {
  id : str;
  documentId : str;
  content : str;
  startIndex : nat;
  endIndex : nat;
  page : option N;
  embedding : option (list float)
}.

Record Document := mkDocument {
  doc_id : str;
  doc_name : str;
  doc_content : str;
  doc_type : DocumentType;
  doc_size : nat;
  uploadedAt : Z;
  processedAt : option Z;
  chunks : option (list DocumentChunk)
}.

Definition setPage (c : DocumentChunk) (p : N) : DocumentChunk :=
  mkChunk (id c) (documentId c) (content c) (startIndex c) (endIndex c)
          (Some p) (embedding c).

Definition setEmbedding (c : DocumentChunk) (e : list float) : DocumentChunk :=
  mkChunk (id c) (documentId c) (content c) (startIndex c) (endIndex c)
          (page c) (Some e).

Definition isPdf (t : DocumentType) : bool :=
  match t with pdf => true | _ => false end.

Record DocumentSource := mkSource {
  src_documentId : str;
  src_documentName : str;
  src_chunkId : str;
  src_content : str;
  src_page : option N;
  relevanceScore : float
}.

Inductive Role := user | assistant.

Record ChatMessage := mkMessage {
  msg_id : str;
  msg_content : str;
  role : Role;
  timestamp : Z;
  sources : option (list DocumentSource)
}.

Record SearchResult := mkSearchResult {
  res_chunks : list DocumentChunk;
  totalResults : nat;
  maxRelevanceScore : float;
  averageRelevanceScore : float
}.

Inductive ProcessingStage :=
  uploading | extracting | chunking | embeddingStage | indexing | complete | error.

Record ProcessingProgress := mkProgress {
  stage : ProcessingStage;
  progress : float;
  message : str
}.

(** What the code reads of a [File]. *)
Record File := mkFile {
  file_name : str;
  file_type : str;
  file_size : nat
}.

End Types.

(** ** Exceptions and the state the services share *)

Module Effects.
Import JS Types.

(** A thrown value: an [Error] with its message, or anything else. *)
Inductive thrown := JsError (message : str) | NotAnError.

Inductive result (A : Type) := Ok (a : A) | Throw (e : thrown).
Arguments Ok {A} a.
Arguments Throw {A} e.

(** [error instanceof Error ? error.message : 'Unknown error'] *)
Definition messageOf (e : thrown) : str :=
  match e with
  | JsError m => m
  | NotAnError => units "Unknown error"
  end.

(** An IndexedDB object store with in-line keys ([keyPath: 'id']): its
    records in ascending order of the key read from each record, one
    record per key.  [keyOf] is the key path. *)
Definition objectStore (V : Type) := list V.

Fixpoint put {V} (keyOf : V -> str) (v : V) (store : objectStore V)
  : objectStore V :=
  match store with
  | [] => [v]
  | v' :: rest =>
      if eqb (keyOf v) (keyOf v') then v :: rest
      else if ltb (keyOf v) (keyOf v') then v :: store
      else v' :: put keyOf v rest
  end.

Definition delete {V} (keyOf : V -> str) (k : str) (store : objectStore V)
  : objectStore V :=
  filter (fun v => negb (eqb k (keyOf v))) store.

Definition get {V} (keyOf : V -> str) (k : str) (store : objectStore V)
  : option V :=
  find (fun v => eqb k (keyOf v)) store.

Definition getAll {V} (store : objectStore V) : list V := store.

(** The database of [PrivacyThinkDB]; the [settings] and [models] stores
    play no part in what follows. *)
Record DB := mkDB {
  documents : objectStore Document;
  chunkStore : objectStore DocumentChunk;
  chat_history : objectStore ChatMessage
}.

(** What the services read and write: the storage service's [db] field
    ([None] until [initialize()] has run), the number of identifiers and
    clock readings drawn so far, and the progress events handed to the
    progress callback, oldest first. *)
Record World := mkWorld {
  db : option DB;
  tick : nat;
  reported : list ProcessingProgress
}.

(** Computations that read and write the world and may throw. *)
Definition M (A : Type) := World -> result A * World.

Definition ret {A} (a : A) : M A := fun w => (Ok a, w).
Definition throw {A} (e : thrown) : M A := fun w => (Throw e, w).
Definition bind {A B} (m : M A) (k : A -> M B) : M B :=
  fun w => match m w with
           | (Ok a, w') => k a w'
           | (Throw e, w') => (Throw e, w')
           end.
Definition tryCatch {A} (body : M A) (handler : thrown -> M A) : M A :=
  fun w => match body w with
           | (Ok a, w') => (Ok a, w')
           | (Throw e, w') => handler e w'
           end.
Definition lift {A} (r : result A) : M A := fun w => (r, w).

Definition getDB : M (option DB) := fun w => (Ok (db w), w).
Definition setDB (d : DB) : M unit :=
  fun w => (Ok tt, mkWorld (Some d) (tick w) (reported w)).
(** Draws the next reading of the clock and random source. *)
Definition draw : M nat :=
  fun w => (Ok (tick w), mkWorld (db w) (S (tick w)) (reported w)).

(** Numbers: conversion of a count, [Math.max] and [Math.min] of two
    arguments (NaN is contagious, and the zero of positive sign is the
    larger). *)
Definition ofNat (n : nat) : float := PrimFloat.of_uint63 (Uint63.of_Z (Z.of_nat n)).

Definition mathMax (a b : float) : float :=
  if is_nan a || is_nan b then nan
  else if (a <? b)%float then b
  else if (b <? a)%float then a
  else match classify a with NZero => b | _ => a end.

Definition mathMin (a b : float) : float :=
  if is_nan a || is_nan b then nan
  else if (a <? b)%float then a
  else if (b <? a)%float then b
  else match classify a with NZero => a | _ => b end.

(** [updateProgress(stage, progress, message)] *)
Definition updateProgress (st : ProcessingStage) (p : float) (m : str) : M unit :=
  fun w => (Ok tt,
            mkWorld (db w) (tick w)
                    (reported w ++ [mkProgress st (mathMin 100 (mathMax 0 p)) m])).

(** Decimal rendering of a count in a template string. *)
Definition decimal (n : N) : str := units (DecimalString.NilEmpty.string_of_uint (N.to_uint n)).

End Effects.

Declare Scope js_scope.
Delimit Scope js_scope with js.
Notation "x <- m ;; k" := (Effects.bind m (fun x => k))
  (at level 61, m at next level, right associativity) : js_scope.
Notation "m ;;; k" := (Effects.bind m (fun _ => k))
  (at level 61, right associativity) : js_scope.


(** ** [PrivacyDocumentProcessor]: the chunker *)

Module DocumentProcessor.
Import JS Types Effects.
Local Open Scope js_scope.

Definition CHUNK_SIZE : nat := 1000.
Definition OVERLAP : nat := 200.

Section Chunker.

(** [generateId()] reads the clock and the random source; [generateId n]
    is the identifier produced by the [n]-th call. *)
Variable generateId : nat -> str.

(** The [while (paragraphStart < paragraph.length)] loop over one long
    paragraph.  [n] counts the identifiers drawn so far; the result is the
    chunks pushed and the new count.  [fuel] bounds the iterations (see
    [windows_fuel]). *)
Fixpoint windows (fuel : nat) (paragraph docId : str)
         (startIndex paragraphStart n : nat) : list DocumentChunk * nat :=
  match fuel with
  | O => ([], n)
  | S fuel' =>
      if paragraphStart <? length paragraph then
        let endIndex := Nat.min (paragraphStart + CHUNK_SIZE) (length paragraph) in
        let chunkContent := trim (slice paragraph paragraphStart endIndex) in
        let pushed :=
          match chunkContent with
          | [] => ([], n)
          | _ :: _ =>
              ([mkChunk (generateId n) docId chunkContent
                        (startIndex + paragraphStart) (startIndex + endIndex)
                        None None], S n)
          end in
        let rest := windows fuel' paragraph docId startIndex
                            (paragraphStart + (CHUNK_SIZE - OVERLAP)) (snd pushed) in
        (fst pushed ++ fst rest, snd rest)
      else ([], n)
  end.

(** The [for (const paragraph of paragraphs)] loop, [startIndex] being
    the running cursor. *)
Fixpoint chunkParagraphs (paragraphs : list str) (docId : str)
         (startIndex n : nat) : list DocumentChunk * nat :=
  match paragraphs with
  | [] => ([], n)
  | paragraph :: more =>
      let here :=
        if length paragraph <=? CHUNK_SIZE then
          ([mkChunk (generateId n) docId (trim paragraph)
                    startIndex (startIndex + length paragraph) None None], S n)
        else windows (length paragraph) paragraph docId startIndex 0 n in
      let rest := chunkParagraphs more docId (startIndex + length paragraph)
                                  (snd here) in
      (fst here ++ fst rest, snd rest)
  end.

(** [content.split(/\n\s*\n/).filter(p => p.trim().length > 0)] *)
Definition paragraphsOf (content : str) : list str :=
  filter (fun p => 0 <? length (trim p)) (splitParagraphs content).

(** [pageStarts]: for each marker matched in the text, its page number and
    [content.indexOf(marker)] ([-1] when absent). *)
Definition pageStartsOf (content : str) : list (N * Z) :=
  flat_map
    (fun marker =>
       match matchMarker marker with
       | Some (_, digits) =>
           [(parseInt digits,
             match indexOf content marker with
             | Some i => Z.of_nat i
             | None => (-1)%Z
             end)]
       | None => []
       end)
    (matchMarkers content).

(** The search [for (let i = pageStarts.length - 1; i >= 0; i--)], on the
    reversed list: the first entry met whose index is at or before
    [chunkStart], page 1 when there is none. *)
Fixpoint findPage (startsFromLast : list (N * Z)) (chunkStart : nat) : N :=
  match startsFromLast with
  | [] => 1%N
  | (p, index) :: earlier =>
      if (index <=? Z.of_nat chunkStart)%Z then p
      else findPage earlier chunkStart
  end.

Definition addPageNumbers (chunks : list DocumentChunk) (content : str)
  : list DocumentChunk :=
  let pageStarts := pageStartsOf content in
  map (fun chunk => setPage chunk (findPage (rev pageStarts) (startIndex chunk)))
      chunks.

(** [chunkDocument(content, document)]; only [document.id] and
    [document.type] are read. *)
Definition chunkDocument (content : str) (docId : str) (docType : DocumentType)
           (n : nat) : list DocumentChunk * nat :=
  let produced := chunkParagraphs (paragraphsOf content) docId 0 n in
  (if isPdf docType then addPageNumbers (fst produced) content else fst produced,
   snd produced).

(** The remaining collaborators of [processDocument]: the clock behind
    [new Date()], the file-type detection and the text extraction
    ([processPDF], [processDOCX], [processTXT], [processAudio]), each of
    which may throw. *)
Variable clock : nat -> Z.
Variable detectDocumentType : File -> result DocumentType.
Variable extractText : DocumentType -> File -> result str.

(** [documentType.toUpperCase()] *)
Definition upperName (t : DocumentType) : str :=
  match t with
  | pdf => units "PDF" | docx => units "DOCX" | txt => units "TXT"
  | audio => units "AUDIO" | image => units "IMAGE"
  end.

(** The [switch (documentType)]: no case handles an image. *)
Definition extraction (t : DocumentType) (file : File) : M str :=
  match t with
  | image => throw (JsError (units "Unsupported file type: " ++ file_type file))
  | _ => lift (extractText t file)
  end.

Definition chunkDocumentM (content docId : str) (t : DocumentType)
  : M (list DocumentChunk) :=
  fun w =>
    let produced := chunkDocument content docId t (tick w) in
    (Ok (fst produced), mkWorld (db w) (snd produced) (reported w)).

(** [processDocument(file)].  [reported] receives the events of
    [processDocument] itself.  The events that [processPDF], [processDOCX],
    [processTXT] and [processAudio] raise on their own while they extract,
    between the extraction event and the chunking event, are not recorded. *)
Definition processDocument (file : File) : M Document :=
  tryCatch
    (updateProgress uploading 0 (units "Starting document processing...") ;;;
     documentType <- lift (detectDocumentType file) ;;
     updateProgress extracting 10
       (units "Processing " ++ upperName documentType ++ units " file...") ;;;
     content <- extraction documentType file ;;
     updateProgress chunking 60 (units "Breaking document into chunks...") ;;;
     chunkOwner <- draw ;;
     _ <- draw ;;
     chunks <- chunkDocumentM content (generateId chunkOwner) documentType ;;
     updateProgress complete 100 (units "Document processing complete!") ;;;
     own <- draw ;;
     uploaded <- draw ;;
     processed <- draw ;;
     ret (mkDocument (generateId own) (file_name file) content documentType
                     (file_size file) (clock uploaded) (Some (clock processed))
                     (Some chunks)))
    (fun e =>
       updateProgress error 0 (units "Processing failed: " ++ messageOf e) ;;;
       throw e).

(** The loop of [processMultipleDocuments]: [i] files are done, [documents]
    holds the documents obtained so far; a file whose processing throws is
    passed over. *)
Fixpoint processEach (files : list File) (i total : nat) (documents : list Document)
  : M (list Document) :=
  match files with
  | [] => ret documents
  | file :: more =>
      updateProgress uploading (ofNat i / ofNat total * 100)%float
        (units "Processing " ++ file_name file ++ units " ("
           ++ decimal (N.of_nat (i + 1)) ++ units " of "
           ++ decimal (N.of_nat total) ++ units ")") ;;;
      documents <- tryCatch
                     (document <- processDocument file ;;
                      ret (documents ++ [document]))
                     (fun _ => ret documents) ;;
      processEach more (S i) total documents
  end.

Definition processMultipleDocuments (files : list File) : M (list Document) :=
  processEach files 0 (length files) [].

End Chunker.

End DocumentProcessor.

(** ** [PrivacyStorageService]: the local store and its vector search *)

Module Storage.
Import JS Types Effects.
Local Open Scope js_scope.

Definition ensureDB : M DB :=
  d <- getDB ;;
  match d with
  | Some d => ret d
  | None => throw (JsError (units "Storage not initialized. Call initialize() first."))
  end.

(** [chunk.embedding || []] and the rest of the copy made for storage. *)
Definition toStored (chunk : DocumentChunk) : DocumentChunk :=
  mkChunk (id chunk) (documentId chunk) (content chunk) (startIndex chunk)
          (endIndex chunk) (page chunk)
          (Some match embedding chunk with Some e => e | None => [] end).

(** One transaction over [documents] and [chunks]: the document record,
    then each of its chunks under the chunk's own key. *)
Definition saveDocument (document : Document) : M unit :=
  d <- ensureDB ;;
  let storedChunks :=
    match chunks document with
    | Some cs => map toStored cs
    | None => []
    end in
  let storedDoc :=
    mkDocument (doc_id document) (doc_name document) (doc_content document)
               (doc_type document) (doc_size document) (uploadedAt document)
               (processedAt document) (Some storedChunks) in
  setDB (mkDB (put doc_id storedDoc (documents d))
              (fold_left (fun store chunk => put id chunk store)
                         storedChunks (chunkStore d))
              (chat_history d)).

Definition getDocument (key : str) : M (option Document) :=
  d <- ensureDB ;;
  ret (get doc_id key (documents d)).

(** [index('by-document').getAll(key)] *)
Definition byDocument (key : str) (store : objectStore DocumentChunk)
  : list DocumentChunk :=
  filter (fun chunk => eqb key (documentId chunk)) (getAll store).

Definition deleteDocument (key : str) : M unit :=
  d <- ensureDB ;;
  let found := byDocument key (chunkStore d) in
  setDB (mkDB (delete doc_id key (documents d))
              (fold_left (fun store chunk => delete id (id chunk) store)
                         found (chunkStore d))
              (chat_history d)).

(** The loop of [cosineSimilarity] over the common indices: the running
    [dotProduct], [normA] and [normB]. *)
Fixpoint sums (a b : list float) (dotProduct normA normB : float)
  : float * float * float :=
  match a, b with
  | x :: a', y :: b' =>
      sums a' b' (dotProduct + x * y)%float (normA + x * x)%float
           (normB + y * y)%float
  | _, _ => (dotProduct, normA, normB)
  end.

Definition cosineSimilarity (a b : list float) : float :=
  if negb (length a =? length b) then 0%float
  else
    let '(dotProduct, normA, normB) := sums a b 0 0 0 in
    (dotProduct / (sqrt normA * sqrt normB))%float.

(** [arr.sort((a, b) => b.similarity - a.similarity)]: the sort is stable,
    and an element moves behind another only when the comparator is
    positive. *)
Definition scored := (DocumentChunk * float)%type.

Definition comesAfter (a b : scored) : bool :=
  (0 <? snd b - snd a)%float.

Fixpoint insertScored (x : scored) (sorted : list scored) : list scored :=
  match sorted with
  | [] => [x]
  | y :: rest =>
      if comesAfter x y then y :: insertScored x rest else x :: sorted
  end.

Definition sortBySimilarity (l : list scored) : list scored :=
  fold_right insertScored [] l.

Definition hasEmbedding (chunk : DocumentChunk) : bool :=
  match embedding chunk with
  | Some e => 0 <? length e
  | None => false
  end.

Definition similarityTo (queryEmbedding : list float) (chunk : DocumentChunk)
  : float :=
  cosineSimilarity queryEmbedding
                   match embedding chunk with Some e => e | None => [] end.

(** The ranking of [searchChunks] on what [getAll('chunks')] returned. *)
Definition rank (queryEmbedding : list float) (topK : Z) (threshold : float)
           (allChunks : list DocumentChunk) : list DocumentChunk :=
  let similarities :=
    sliceTo
      (sortBySimilarity
         (filter (fun r : scored => (threshold <=? snd r)%float)
                 (map (fun chunk => (chunk, similarityTo queryEmbedding chunk))
                      (filter hasEmbedding allChunks))))
      topK in
  map fst similarities.

Definition searchChunks (queryEmbedding : list float) (topK : Z)
           (threshold : float) : M (list DocumentChunk) :=
  d <- ensureDB ;;
  ret (rank queryEmbedding topK threshold (getAll (chunkStore d))).

Definition saveChatMessage (message : ChatMessage) : M unit :=
  d <- ensureDB ;;
  setDB (mkDB (documents d) (chunkStore d)
              (put msg_id message (chat_history d))).

(** [readEach] is the [storedDocs.map(async storedDoc => getDocument(storedDoc.id))]
    of [getAllDocuments]: every record is read again by its key ([None] stands
    for [null]). *)
Fixpoint readEach (keys : list str) : M (list (option Document)) :=
  match keys with
  | [] => ret []
  | key :: more =>
      doc <- getDocument key ;;
      rest <- readEach more ;;
      ret (doc :: rest)
  end.

Definition getAllDocuments : M (list (option Document)) :=
  d <- ensureDB ;;
  readEach (map doc_id (getAll (documents d))).

(** [messages.sort((a, b) => a.timestamp.getTime() - b.timestamp.getTime())]:
    stable, a message moving behind another only when the comparator is
    positive. *)
Fixpoint insertByTime (m : ChatMessage) (sorted : list ChatMessage)
  : list ChatMessage :=
  match sorted with
  | [] => [m]
  | m' :: rest =>
      if (0 <? timestamp m - timestamp m')%Z
      then m' :: insertByTime m rest
      else m :: sorted
  end.

Definition sortByTime (l : list ChatMessage) : list ChatMessage :=
  fold_right insertByTime [] l.

(** [arr.slice(start)] for an integral [start] of either sign: a negative
    start counts from the end of the array. *)
Definition sliceFrom {A} (l : list A) (start : Z) : list A :=
  if (start <? 0)%Z
  then skipn (Z.to_nat (Z.of_nat (length l) + start)) l
  else skipn (Z.to_nat start) l.

(** [getChatHistory(limit)]; the default [limit] is 50. *)
Definition getChatHistory (limit : Z) : M (list ChatMessage) :=
  d <- ensureDB ;;
  ret (sliceFrom (sortByTime (getAll (chat_history d))) (- limit)).

Definition clearChatHistory : M unit :=
  d <- ensureDB ;;
  setDB (mkDB (documents d) (chunkStore d) []).

Record StorageStats := mkStats {
  documentsCount : nat;
  chunksCount : nat;
  totalSize : nat;
  chatMessages : nat
}.

Definition getStorageStats : M StorageStats :=
  d <- ensureDB ;;
  ret (mkStats (length (getAll (documents d)))
               (length (getAll (chunkStore d)))
               (fold_left (fun sum doc => sum + doc_size doc) (getAll (documents d)) 0)
               (length (getAll (chat_history d)))).

(** One transaction clearing [documents], [chunks] and [chat_history]. *)
Definition deleteAllData : M unit :=
  _ <- ensureDB ;;
  setDB (mkDB [] [] []).

End Storage.

(** ** [PrivacyRAGService]: search, answers and ingestion *)

Module Rag.
Import JS Types Effects.
Local Open Scope js_scope.

Definition CONCURRENCY_LIMIT : nat := 5.

Record SearchOptions := mkSearchOptions {
  opt_topK : option Z;
  opt_threshold : option float;
  opt_documentIds : option (list str)
}.

Record ResponseOptions := mkResponseOptions {
  maxSources : option Z;
  temperature : option float;
  maxTokens : option Z;
  resp_documentIds : option (list str)
}.

Definition calculateSimilarity (vec1 vec2 : list float) : float :=
  if negb (length vec1 =? length vec2) then 0%float
  else
    let '(dotProduct, norm1, norm2) := Storage.sums vec1 vec2 0 0 0 in
    (dotProduct / (sqrt norm1 * sqrt norm2))%float.

(** [documentIds && documentIds.length > 0 ? chunks.filter(...) : chunks] *)
Definition restrictTo (documentIds : option (list str))
           (chunks : list DocumentChunk) : list DocumentChunk :=
  match documentIds with
  | Some ids =>
      if 0 <? length ids
      then filter (fun chunk => includes ids (documentId chunk)) chunks
      else chunks
  | None => chunks
  end.

(** A [Map<string, string>] in insertion order. *)
Definition mapGet (m : list (str * str)) (k : str) : option str :=
  option_map snd (find (fun kv => eqb k (fst kv)) m).

Definition updateAt {A} (i : nat) (f : A -> A) (l : list A) : list A :=
  firstn i l ++
  match skipn i l with
  | [] => []
  | x :: rest => f x :: rest
  end.

(** The defaults of [const { topK = 5, threshold = 0.7 } = options]. *)
Definition topKOf (options : SearchOptions) : Z :=
  match opt_topK options with Some k => k | None => 5%Z end.

Definition thresholdOf (options : SearchOptions) : float :=
  match opt_threshold options with
  | Some t => t
  | None => 0x1.6666666666666p-1%float (* 0.7 *)
  end.

Section Service.

(** The collaborators: [generateId] and the clock as in the document
    processor, the embedding model and the text generator of the LLM
    service. *)
Variable generateId : nat -> str.
Variable clock : nat -> Z.
Variable generateEmbedding : str -> result (list float).
Variable generateText : str -> str -> float -> Z -> result str.

Definition searchDocuments (query : str) (options : SearchOptions)
  : M SearchResult :=
  tryCatch
    (let topK := topKOf options in
     let threshold := thresholdOf options in
     queryEmbedding <- lift (generateEmbedding query) ;;
     found <- Storage.searchChunks queryEmbedding (topK * 2)
                (threshold * 0x1.999999999999ap-1 (* 0.8 *))%float ;;
     let chunks := sliceTo (restrictTo (opt_documentIds options) found) topK in
     let relevanceScores :=
       map (fun chunk =>
              match embedding chunk with
              | None => 0%float
              | Some e => calculateSimilarity queryEmbedding e
              end) chunks in
     let maxScore := fold_left mathMax (relevanceScores ++ [0%float]) neg_infinity in
     let avgScore :=
       if 0 <? length relevanceScores
       then (fold_left (fun a b => a + b) relevanceScores 0
             / ofNat (length relevanceScores))%float
       else 0%float in
     ret (mkSearchResult chunks (length chunks) maxScore avgScore))
    (fun e => throw e).

(** The first loop of [generateResponse]: one [getDocument] per document
    not yet in [documentMap]. *)
Fixpoint resolveNames (chunks : list DocumentChunk) (documentMap : list (str * str))
  : M (list (str * str)) :=
  match chunks with
  | [] => ret documentMap
  | chunk :: more =>
      match mapGet documentMap (documentId chunk) with
      | Some _ => resolveNames more documentMap
      | None =>
          doc <- Storage.getDocument (documentId chunk) ;;
          match doc with
          | Some d =>
              resolveNames more (documentMap ++ [(documentId chunk, doc_name d)])
          | None => resolveNames more documentMap
          end
      end
  end.

(** [documentMap.get(id) || 'Unknown Document'] *)
Definition nameOf (documentMap : list (str * str)) (key : str) : str :=
  match mapGet documentMap key with
  | Some (c :: name) => c :: name
  | _ => units "Unknown Document"
  end.

(** [chunk.page ? `, Page ${chunk.page}` : ''], the page printed in decimal
    digits (JavaScript turns to exponent form from 1e21 on). *)
Definition pageNote (p : option N) : str :=
  match p with
  | Some (Npos n) => units ", Page " ++ decimal (Npos n)
  | _ => []
  end.

Definition excerpt (text : str) : str :=
  slice text 0 200 ++ (if 200 <? length text then units "..." else []).

(** The second loop: the context string and the sources, chunk by chunk. *)
Fixpoint cite (userQuestion : str) (i : nat) (chunks : list DocumentChunk)
         (documentMap : list (str * str)) (context : str)
         (sources : list DocumentSource) : M (str * list DocumentSource) :=
  match chunks with
  | [] => ret (context, sources)
  | chunk :: more =>
      let docName := nameOf documentMap (documentId chunk) in
      let context :=
        context ++ [LF] ++ units "Source " ++ decimal (N.of_nat (i + 1))
                ++ units " (" ++ docName ++ pageNote (page chunk) ++ units "):"
                ++ [LF] ++ content chunk ++ [LF] in
      score <- match embedding chunk with
               | Some e =>
                   q <- lift (generateEmbedding userQuestion) ;;
                   ret (calculateSimilarity q e)
               | None => ret 0%float
               end ;;
      cite userQuestion (S i) more documentMap context
           (sources ++ [mkSource (documentId chunk) docName (id chunk)
                                 (excerpt (content chunk)) (page chunk) score])
  end.

(** The [try] block of [generateResponse]. *)
Definition answer (userQuestion : str) (options : ResponseOptions)
  : M ChatMessage :=
  let maxSources := match maxSources options with Some k => k | None => 5%Z end in
  let temperature :=
    match temperature options with
    | Some t => t
    | None => 0x1.6666666666666p-1%float (* 0.7 *)
    end in
  let maxTokens := match maxTokens options with Some k => k | None => 512%Z end in
  searchResults <-
    searchDocuments userQuestion
      (mkSearchOptions (Some maxSources)
                       (Some 0x1.3333333333333p-1%float (* 0.6 *))
                       (resp_documentIds options)) ;;
  built <-
    (if 0 <? length (res_chunks searchResults) then
       documentMap <- resolveNames (res_chunks searchResults) [] ;;
       cite userQuestion 0 (res_chunks searchResults) documentMap [] []
     else ret ([], [])) ;;
  responseText <- lift (generateText userQuestion (fst built) temperature maxTokens) ;;
  n <- draw ;;
  t <- draw ;;
  let message :=
    mkMessage (generateId n) responseText assistant (clock t)
              (match snd built with [] => None | _ :: _ => Some (snd built) end) in
  Storage.saveChatMessage message ;;;
  ret message.

Definition apology (e : thrown) : str :=
  units "I apologize, but I encountered an error while processing your question: "
    ++ messageOf e ++ units ". Please try again.".

(** The [catch] block of [generateResponse]. *)
Definition recover (e : thrown) : M ChatMessage :=
  n <- draw ;;
  t <- draw ;;
  let errorMessage := mkMessage (generateId n) (apology e) assistant (clock t) None in
  Storage.saveChatMessage errorMessage ;;;
  ret errorMessage.

Definition generateResponse (userQuestion : str) (options : ResponseOptions)
  : M ChatMessage :=
  tryCatch (answer userQuestion options) recover.

(** The first statements of [chat]: the user's message is built and saved. *)
Definition recordUserMessage (userMessage : str) : M unit :=
  n <- draw ;;
  t <- draw ;;
  Storage.saveChatMessage (mkMessage (generateId n) userMessage user (clock t) None).

Definition chat (userMessage : str) (documentIds : option (list str))
  : M ChatMessage :=
  tryCatch
    (recordUserMessage userMessage ;;;
     generateResponse userMessage (mkResponseOptions None None None documentIds))
    (fun e => throw e).

Definition deleteDocument (documentId : str) : M unit :=
  Storage.deleteDocument documentId.

(** *** Ingestion: [processDocument(file)]

    The embedding stage runs several [processNext] workers as concurrent
    asynchronous functions.  JavaScript runs each of them without
    interruption from one [await] to the next, so a worker is always
    suspended at [await llmService.generateEmbedding(chunk.content)] on
    the chunk it took from the queue, has returned, or has thrown; the
    scheduler is free in the order in which the pending embedding calls
    are answered.  The ingestion is therefore a transition system: a
    state of the job and one step per answered call, plus the step in
    which [await Promise.all(workers)] resumes the body of
    [processDocument]. *)

(** The document processor's collaborators. *)
Variable documentIdOf : nat -> str.
Variable detectDocumentType : File -> result DocumentType.
Variable extractText : DocumentType -> File -> result str.

Inductive worker :=
| Awaiting (i : nat)      (* suspended on the embedding of [document.chunks[i]] *)
| Finished                (* left the loop: the queue was empty *)
| Rejected (e : thrown).  (* the awaited embedding call threw *)

Record job := mkJob {
  world : World;
  document : Document;             (* its [chunks] are the shared chunk objects *)
  queue : list nat;                (* [queue]: references to chunks, head first *)
  workers : list worker;
  completedChunks : nat;
  settled : option (result unit);  (* [Promise.all(workers)], once settled *)
  outcome : option (result Document)  (* [processDocument], once it returned or threw *)
}.

Definition chunksOf (d : Document) : list DocumentChunk :=
  match chunks d with Some cs => cs | None => [] end.

(** [chunk.embedding = v] on the chunk object [document.chunks[i]]. *)
Definition assignEmbedding (i : nat) (v : list float) (d : Document) : Document :=
  mkDocument (doc_id d) (doc_name d) (doc_content d) (doc_type d) (doc_size d)
             (uploadedAt d) (processedAt d)
             (option_map (updateAt i (fun chunk => setEmbedding chunk v)) (chunks d)).

(** The head of the loop of [processNext]: take the next chunk and suspend
    on its embedding, or return when the queue is empty. *)
Definition nextTurn (queue : list nat) : worker * list nat :=
  match queue with
  | [] => (Finished, [])
  | i :: rest => (Awaiting i, rest)
  end.

(** [Array(k).fill(null).map(() => processNext())]: the workers are
    started one after the other, each running to its first [await]. *)
Fixpoint startWorkers (k : nat) (queue : list nat) : list worker * list nat :=
  match k with
  | O => ([], queue)
  | S k' =>
      let started := nextTurn queue in
      let others := startWorkers k' (snd started) in
      (fst started :: fst others, snd others)
  end.

Definition isFinished (w : worker) : bool :=
  match w with Finished => true | _ => false end.

(** How [Promise.all(workers)] stands after a worker settled: it keeps
    the first rejection, and is fulfilled when every worker returned. *)
Definition settle (before : option (result unit)) (ws : list worker)
           (rejection : option thrown) : option (result unit) :=
  match before, rejection with
  | Some r, _ => Some r
  | None, Some e => Some (Throw e)
  | None, None => if forallb isFinished ws then Some (Ok tt) else None
  end.

(** The statements after [await Promise.all(workers)]. *)
Definition persist (d : Document) : M Document :=
  updateProgress indexing 95 (units "Saving to local index...") ;;;
  Storage.saveDocument d ;;;
  updateProgress complete 100 (units "Document ready for analysis!") ;;;
  ret d.

(** The [catch] block of [processDocument]. *)
Definition fail (e : thrown) : M Document :=
  updateProgress error 0 (units "Failed to process document: " ++ messageOf e) ;;;
  throw e.

(** A worker resumes with the embedding [v] of chunk [i]. *)
Definition afterEmbedded (j : job) (k i : nat) (v : list float) : job :=
  let completed := S (completedChunks j) in
  let totalChunks := length (chunksOf (document j)) in
  let reportedTo :=
    updateProgress embeddingStage
      (70 + ofNat completed / ofNat totalChunks * 20)%float
      (units "Processing chunk " ++ decimal (N.of_nat completed)
         ++ units " of " ++ decimal (N.of_nat totalChunks))
      (world j) in
  let turn := nextTurn (queue j) in
  let ws := updateAt k (fun _ => fst turn) (workers j) in
  mkJob (snd reportedTo) (assignEmbedding i v (document j)) (snd turn) ws
        completed (settle (settled j) ws None) (outcome j).

(** A worker resumes with the exception [e] of its embedding call. *)
Definition afterRejected (j : job) (k : nat) (e : thrown) : job :=
  let ws := updateAt k (fun _ => Rejected e) (workers j) in
  mkJob (world j) (document j) (queue j) ws (completedChunks j)
        (settle (settled j) ws (Some e)) (outcome j).

(** [processDocument] resumes from [await Promise.all(workers)]. *)
Definition afterJoin (j : job) (r : result unit) : job :=
  let ended :=
    match r with
    | Ok _ => tryCatch (persist (document j)) fail (world j)
    | Throw e => fail e (world j)
    end in
  mkJob (snd ended) (document j) (queue j) (workers j) (completedChunks j)
        (settled j) (Some (fst ended)).

Inductive step : job -> job -> Prop :=
| step_embedded j k i v :
    nth_error (workers j) k = Some (Awaiting i) ->
    step j (afterEmbedded j k i v)
| step_rejected j k i e :
    nth_error (workers j) k = Some (Awaiting i) ->
    step j (afterRejected j k e)
| step_joined j r :
    settled j = Some r ->
    outcome j = None ->
    step j (afterJoin j r).

Inductive steps : job -> job -> Prop :=
| steps_refl j : steps j j
| steps_next j1 j2 j3 : steps j1 j2 -> step j2 j3 -> steps j1 j3.

(** A call [llmService.generateEmbedding(chunk.content)] made by a worker
    and answered: the position of the chunk in [document.chunks], the text
    handed over, and the vector returned or the exception thrown. *)
Record call := mkCall {
  asked : nat;
  askedText : str;
  answered : result (list float)
}.

(** The runs of the same transition system with the embedding calls
    recorded, in the order in which they were answered. *)
Inductive run : job -> list call -> job -> Prop :=
| run_start j : run j [] j
| run_embedded j0 calls j k i c v :
    run j0 calls j ->
    nth_error (workers j) k = Some (Awaiting i) ->
    nth_error (chunksOf (document j)) i = Some c ->
    run j0 (calls ++ [mkCall i (content c) (Ok v)]) (afterEmbedded j k i v)
| run_rejected j0 calls j k i c e :
    run j0 calls j ->
    nth_error (workers j) k = Some (Awaiting i) ->
    nth_error (chunksOf (document j)) i = Some c ->
    run j0 (calls ++ [mkCall i (content c) (Throw e)]) (afterRejected j k e)
| run_joined j0 calls j r :
    run j0 calls j ->
    settled j = Some r ->
    outcome j = None ->
    run j0 calls (afterJoin j r).

(** What [processDocument] has done when it first suspends in the
    embedding stage, or its result when it never gets there. *)
Inductive started :=
| Ended (r : result Document) (w : World)
| Embedding (j : job).

Definition embeddingJob (d : Document) (w : World) : job :=
  let totalChunks := length (chunksOf d) in
  let pool := startWorkers (Nat.min CONCURRENCY_LIMIT totalChunks) (seq 0 totalChunks) in
  mkJob w d (snd pool) (fst pool) 0 (settle None (fst pool) None) None.

Definition processDocument (file : File) (w : World) : started :=
  let opened :=
    (updateProgress uploading 0 (units "Starting document processing...") ;;;
     d <- DocumentProcessor.processDocument documentIdOf clock detectDocumentType
            extractText file ;;
     updateProgress embeddingStage 70 (units "Generating embeddings...") ;;;
     ret d) w in
  match opened with
  | (Throw e, w1) => let ended := fail e w1 in Ended (fst ended) (snd ended)
  | (Ok d, w1) =>
      if 0 <? length (chunksOf d)
      then Embedding (embeddingJob d w1)
      else let ended := tryCatch (persist d) fail w1 in Ended (fst ended) (snd ended)
  end.

Definition getDocuments : M (list (option Document)) := Storage.getAllDocuments.

Definition getChatHistory : M (list ChatMessage) := Storage.getChatHistory 50.

Definition clearChatHistory : M unit := Storage.clearChatHistory.

Record Answer := mkAnswer {
  answerText : str;
  answerSources : list DocumentSource;
  confidence : float
}.

(** [askQuestion(question, options)]: the answer of [generateResponse] with
    the mean relevance of its sources. *)
Definition askQuestion (question : str) (documentIds : option (list str))
  : M Answer :=
  response <- generateResponse question
                (mkResponseOptions None None None documentIds) ;;
  let confidence :=
    match sources response with
    | Some (s :: more) =>
        (fold_left (fun sum source => sum + relevanceScore source) (s :: more) 0
         / ofNat (length (s :: more)))%float
    | _ => 0%float
    end in
  ret (mkAnswer (msg_content response)
                (match sources response with Some l => l | None => [] end)
                confidence).

End Service.

End Rag.

(** ** [PrivacyLLMService]: what the orchestrator calls *)

Module Llm.
Import JS Types Effects.

(** The service's fields the calls below read: the two pipelines loaded by
    [initialize()] ([None] for [null]), [modelConfig?.temperature] and
    [isLoading].  The text pipeline is called with the full prompt,
    [max_new_tokens] and [temperature], and yields the [generated_text] of
    its first result ([None] when that is missing). *)
Record Service := mkService {
  textGenerator : option (str -> Z -> float -> result (option str));
  embedder : option (str -> result (list float));
  configTemperature : option float;
  isLoading : bool
}.

(** [generateEmbedding(text)] *)
Definition generateEmbedding (svc : Service) (text : str) : result (list float) :=
  match embedder svc with
  | None => Throw (JsError (units "Embedding model not loaded. Call initialize() first."))
  | Some run => run text
  end.

(** [buildPrompt(userQuestion, context)]: an empty context is falsy. *)
Definition buildPrompt (userQuestion context : str) : str :=
  match context with
  | _ :: _ =>
      units "<|system|>
You are PrivacyThink, a privacy-first AI assistant that helps users analyze their documents. All processing happens locally on their device - no data ever leaves their computer.

Use the following context from the user's documents to answer their question. Be helpful, accurate, and always cite which document or page your information comes from.

Context from documents:
" ++ context ++ units "

<|user|>
" ++ userQuestion ++ units "

<|assistant|>
"
  | [] =>
      units "<|system|>
You are PrivacyThink, a privacy-first AI assistant. All processing happens locally - no data ever leaves the user's device.

<|user|>
" ++ userQuestion ++ units "

<|assistant|>
"
  end.

(** What [.] matches: any code unit but a line terminator. *)
Definition isLineTerminator (c : N) : bool :=
  ((c =? 10) || (c =? 13) || (c =? 8232) || (c =? 8233))%N.

(** [closing s]: the length of the shortest prefix of [s] matched by
    [.*?\|>], if there is one. *)
Fixpoint closing (s : str) : option nat :=
  match s with
  | [] => None
  | c :: s' =>
      if startsWith s (units "|>") then Some 2
      else if isLineTerminator c then None
      else option_map S (closing s')
  end.

(** [s.replace(/<\|.*?\|>/g, '')]: [skip] code units of a match are still to
    be dropped. *)
Fixpoint dropTokens (skip : nat) (s : str) : str :=
  match s with
  | [] => []
  | c :: s' =>
      match skip with
      | S k => dropTokens k s'
      | O =>
          if startsWith s (units "<|") then
            match closing (skipn 2 s) with
            | Some n => dropTokens (1 + n) s'
            | None => c :: dropTokens 0 s'
            end
          else c :: dropTokens 0 s'
      end
  end.

(** [cleanResponse(text)] *)
Definition cleanResponse (text : str) : str :=
  trim (dropTokens 0 (trimEnd (trimStart text))).

(** A number is truthy unless it is a zero or NaN. *)
Definition truthy (x : float) : bool := negb (x =? 0)%float && negb (is_nan x).

(** [options?.temperature || this.modelConfig?.temperature || 0.7] *)
Definition temperatureFor (svc : Service) (temperature : float) : float :=
  if truthy temperature then temperature
  else match configTemperature svc with
       | Some t => if truthy t then t else 0x1.6666666666666p-1%float
       | None => 0x1.6666666666666p-1%float
       end.

(** [options?.maxTokens || 256] *)
Definition maxNewTokensFor (maxTokens : Z) : Z :=
  if (maxTokens =? 0)%Z then 256%Z else maxTokens.

(** [generateText(prompt, context, { temperature, maxTokens })] *)
Definition generateText (svc : Service) (prompt context : str)
           (temperature : float) (maxTokens : Z) : result str :=
  match textGenerator svc with
  | None =>
      Throw (JsError (units "Text generation model not loaded. Call initialize() first."))
  | Some run =>
      match run (buildPrompt prompt context) (maxNewTokensFor maxTokens)
                (temperatureFor svc temperature) with
      | Ok generated =>
          Ok (cleanResponse match generated with Some text => text | None => [] end)
      | Throw e => Throw e
      end
  end.

(** [isModelLoaded()] *)
Definition isModelLoaded (svc : Service) : bool :=
  match textGenerator svc, embedder svc with
  | Some _, Some _ => negb (isLoading svc)
  | _, _ => false
  end.

(** [unloadModel()] *)
Definition unloadModel (svc : Service) : Service :=
  mkService None None None (isLoading svc).

End Llm.


(** ** Predicates of the specification *)

Module Spec.
Import JS Types Effects.

(** [piece] is a contiguous part of [text]. *)
Definition occursIn (piece text : str) : Prop :=
  exists before after, text = before ++ piece ++ after.

(** The ranges of the chunks are pairwise disjoint and ascend: every chunk
    ends at or before the start of each later one. *)
Fixpoint disjointAscending (cs : list DocumentChunk) : bool :=
  match cs with
  | [] => true
  | c :: later =>
      forallb (fun c' => endIndex c <=? startIndex c') later
      && disjointAscending later
  end.

(** [s] is a subsequence of [t], by the greedy left-to-right test. *)
Fixpoint subsequenceOf (s t : str) : bool :=
  match s, t with
  | [], _ => true
  | _ :: _, [] => false
  | a :: s', b :: t' =>
      if (a =? b)%N then subsequenceOf s' t' else subsequenceOf s t'
  end.

(** Two chunks in emission order: positions ascend, and the earlier range
    reaches into the later one by at most [OVERLAP]. *)
Definition inOrder (c1 c2 : DocumentChunk) : Prop :=
  startIndex c1 < startIndex c2
  /\ endIndex c1 <= endIndex c2
  /\ endIndex c1 <= startIndex c2 + DocumentProcessor.OVERLAP.

(** A chunk cut from [text] and recorded inside [lo, hi). *)
Definition cutFrom (text : str) (lo hi : nat) (c : DocumentChunk) : Prop :=
  lo <= startIndex c /\ startIndex c < endIndex c /\ endIndex c <= hi
  /\ occursIn (content c) text
  /\ length (content c) <= DocumentProcessor.CHUNK_SIZE.

Fixpoint totalLength (paragraphs : list str) : nat :=
  match paragraphs with
  | [] => 0
  | p :: more => length p + totalLength more
  end.

(** The search property as the specification words it: at most [topK]
    chunks, each at least [threshold] similar to the query. *)
Definition searchMeetsThreshold (generateEmbedding : str -> result (list float))
           (query : str) (topK : Z) (threshold : float)
           (documentIds : option (list str)) (w : World) : Prop :=
  forall q r w',
    generateEmbedding query = Ok q ->
    Rag.searchDocuments generateEmbedding query
      (Rag.mkSearchOptions (Some topK) (Some threshold) documentIds) w
    = (Ok r, w') ->
    (Z.of_nat (length (res_chunks r)) <= topK)%Z
    /\ Forall (fun c => (threshold <=? Storage.similarityTo q c)%float = true)
              (res_chunks r).

(** [s] is left after deleting code units of [t]. *)
Inductive Subseq : str -> str -> Prop :=
| Subseq_nil t : Subseq [] t
| Subseq_skip s x t : Subseq s t -> Subseq s (x :: t)
| Subseq_take s x t : Subseq s t -> Subseq (x :: s) (x :: t).

(** A computation that never closes the store. *)
Definition keepsOpen {A} (m : M A) : Prop :=
  forall w, db w <> None -> db (snd (m w)) <> None.

(** A computation that leaves the store as it is. *)
Definition sameStore {A} (m : M A) : Prop := forall w, db (snd (m w)) = db w.

End Spec.

(** ** Sample data *)

Module Sample.
Import JS Types Effects.

Definition ids (n : nat) : str := units "id" ++ decimal (N.of_nat n).

Definition chunkA : DocumentChunk :=
  mkChunk (units "c1") (units "d1") (units "alpha") 0 5 None (Some [1; 0]%float).

Definition world : World := mkWorld (Some (mkDB [] [chunkA] [])) 0 [].

(** The query embedding (0.6, 0.8): a unit vector at cosine 0.6 from (1, 0). *)
Definition query : list float :=
  [0x1.3333333333333p-1; 0x1.999999999999ap-1]%float.

Definition embedQuery (_ : str) : result (list float) := Ok query.

(** A paragraph of 1001 letters, one more than [CHUNK_SIZE]. *)
Definition longText : str := repeat 97%N 1001.

(** The text [processPDF] builds from two pages. *)
Definition twoPages : str :=
  units "--- Page 1 ---
Alpha

--- Page 2 ---
Beta".

(** Two pages and a later paragraph that quotes the first marker. *)
Definition quotedMarker : str :=
  units "--- Page 1 ---
A

--- Page 2 ---
B

see --- Page 1 --- above".

(** Two chunks of document [dA] along the query (1, 0) and one of document
    [dB] at cosine 0.8 from it. *)
Definition a1 : DocumentChunk :=
  mkChunk (units "a1") (units "dA") (units "one") 0 3 None (Some [1; 0]%float).

Definition a2 : DocumentChunk :=
  mkChunk (units "a2") (units "dA") (units "two") 3 6 None (Some [1; 0]%float).

Definition b1 : DocumentChunk :=
  mkChunk (units "b1") (units "dB") (units "three") 0 5 None
          (Some [0x1.999999999999ap-1; 0x1.3333333333333p-1]%float).

Definition crowdedWorld : World := mkWorld (Some (mkDB [] [a1; a2; b1] [])) 0 [].

Definition embedAxis (_ : str) : result (list float) := Ok [1; 0]%float.

(** The LLM service before [initialize()]: both models are missing. *)
Definition noEmbedder (_ : str) : result (list float) :=
  Throw (JsError (units "Embedding model not loaded. Call initialize() first.")).

Definition noGenerator (_ _ : str) (_ : float) (_ : Z) : result str :=
  Throw (JsError (units "Text generation model not loaded. Call initialize() first.")).

End Sample.

(** ** Predicates on ingestion jobs *)

Module JobSpec.
Import JS Types Effects Rag.

Definition embedded (c : DocumentChunk) : Prop := embedding c <> None.

Definition isAwaiting (wk : worker) : bool :=
  match wk with Awaiting _ => true | _ => false end.

(** What is left to do: chunks queued, embedding calls pending, and the
    resumption of [processDocument] itself. *)
Definition remaining (j : job) : nat :=
  length (queue j) + length (filter isAwaiting (workers j))
  + match outcome j with None => 1 | Some _ => 0 end.

(** The event of the [catch] block of [processDocument]. *)
Definition errorEvent (e : thrown) : ProcessingProgress :=
  mkProgress error 0 (units "Failed to process document: " ++ messageOf e).

(** The invariant of the embedding stage of a job over [n] chunks started on
    a store [db0]. *)
Record invariant (n : nat) (db0 : option DB) (j : job) : Prop := mkInvariant {
  inv_chunks : length (chunksOf (document j)) = n;
  inv_workers : workers j <> [];
  inv_covered :
    forall i, i < n ->
      In i (queue j) \/ In (Awaiting i) (workers j)
      \/ (exists c, nth_error (chunksOf (document j)) i = Some c /\ embedded c)
      \/ (exists e, In (Rejected e) (workers j));
  inv_drained : In Finished (workers j) -> queue j = [];
  inv_pending :
    settled j = None ->
    forallb isFinished (workers j) = false
    /\ forall e, ~ In (Rejected e) (workers j);
  inv_fulfilled :
    settled j = Some (Ok tt) -> forall wk, In wk (workers j) -> wk = Finished;
  inv_rejected :
    forall e0, settled j = Some (Throw e0) -> In (Rejected e0) (workers j);
  inv_store : db (world j) = db0 \/ settled j = Some (Ok tt);
  inv_outcome :
    match outcome j with
    | None => True
    | Some (Ok d) => settled j = Some (Ok tt) /\ d = document j
    | Some (Throw e) =>
        In (errorEvent e) (reported (world j))
        /\ settled j <> None
        /\ forall e0, settled j = Some (Throw e0) -> e = e0
    end
}.

(** The chunks whose embedding calls are pending. *)
Definition awaited (ws : list worker) : list nat :=
  flat_map (fun wk => match wk with Awaiting i => [i] | _ => [] end) ws.

(** What a run with its calls recorded keeps true of a job over the chunks
    of [d]: the text of the chunks is as in [d]; every position below [n] is
    in exactly one of the calls answered, the calls pending and the queue,
    and no other position is; a chunk whose call returned a vector carries
    that vector, and its call was made on its text; a call that threw has
    left its worker rejected. *)
Record recorded (n : nat) (d : Document) (calls : list call) (j : job) : Prop :=
  mkRecorded {
  rec_content : map content (chunksOf (document j)) = map content (chunksOf d);
  rec_once :
    forall x,
      count_occ Nat.eq_dec (map asked calls) x
      + count_occ Nat.eq_dec (awaited (workers j)) x
      + count_occ Nat.eq_dec (queue j) x
      = if x <? n then 1 else 0;
  rec_answered :
    forall i text v, In (mkCall i text (Ok v)) calls ->
      exists c c',
        nth_error (chunksOf d) i = Some c /\ text = content c
        /\ nth_error (chunksOf (document j)) i = Some c'
        /\ content c' = content c /\ embedding c' = Some v;
  rec_rejected :
    forall i text e, In (mkCall i text (Throw e)) calls -> In (Rejected e) (workers j)
}.

End JobSpec.

(** ** A sample ingestion *)

Module SampleJob.
Import JS Types Effects Rag.

Definition file : File := mkFile (units "notes.txt") (units "text/plain") 5.

Definition detect (_ : File) : result DocumentType := Ok txt.

(** Three short paragraphs. *)
Definition extract (_ : DocumentType) (_ : File) : result str :=
  Ok (units "a

b

c").

Definition emptyWorld : World := mkWorld (Some (mkDB [] [] [])) 0 [].

Definition ingestion : started :=
  processDocument Z.of_nat Sample.ids detect extract file emptyWorld.

Definition noJob : job :=
  mkJob emptyWorld (mkDocument [] [] [] txt 0 0 None None) [] [] 0 None None.

(** The job at its first suspension: three workers, each on one chunk. *)
Definition job0 : job :=
  Eval vm_compute in
    match ingestion with
    | Embedding j => j
    | Ended _ _ => noJob
    end.

Definition outOfMemory : thrown := JsError (units "out of memory").

(** A run in which the three embedding calls are answered last first, and
    [processDocument] then resumes. *)
Definition job1 : job := afterEmbedded job0 2 2 [1]%float.
Definition job2 : job := afterEmbedded job1 1 1 [1]%float.
Definition job3 : job := afterEmbedded job2 0 0 [1]%float.

Definition finished : job := afterJoin job3 (Ok tt).

Definition storeOf (j : job) : DB :=
  match db (world j) with
  | Some d => d
  | None => mkDB [] [] []
  end.

End SampleJob.

(** ** Notions used by the further properties *)

From Stdlib Require Import Sorted Permutation.

Module Notions.
Import JS Types Effects.

(** The record [saveDocument] writes for a document. *)
Definition storedForm (document : Document) : Document :=
  mkDocument (doc_id document) (doc_name document) (doc_content document)
             (doc_type document) (doc_size document) (uploadedAt document)
             (processedAt document)
             (Some (map Storage.toStored (Rag.chunksOf document))).

(** The order of the chat history: by time stamp. *)
Definition notLater (a b : ChatMessage) : Prop := (timestamp a <= timestamp b)%Z.

(** The order of a ranking: the comparator [b.similarity - a.similarity]
    of the sort is not positive, so [b] does not rank strictly above [a]. *)
Definition rankedBefore (a b : Storage.scored) : Prop :=
  Storage.comesAfter a b = false.

(** What a source of an answer records of the chunk it cites, [q] being the
    embedding of the question. *)
Definition cites (q : list float) (chunk : DocumentChunk) (source : DocumentSource)
  : Prop :=
  src_chunkId source = id chunk
  /\ src_documentId source = documentId chunk
  /\ src_page source = page chunk
  /\ src_content source = Rag.excerpt (content chunk)
  /\ relevanceScore source
     = match embedding chunk with
       | Some e => Rag.calculateSimilarity q e
       | None => 0%float
       end.

(** What every chunk carries when it leaves the paragraph loops of
    [chunkDocument]. *)
Definition fresh (docId : str) (c : DocumentChunk) : Prop :=
  documentId c = docId /\ page c = None /\ embedding c = None /\ content c <> [].

(** A file the document processor can turn into text: its type is detected
    and is not an image, and the extraction of its text does not throw. *)
Definition readable (detectDocumentType : File -> result DocumentType)
           (extractText : DocumentType -> File -> result str) (file : File) : bool :=
  match detectDocumentType file with
  | Ok image => false
  | Ok t => match extractText t file with Ok _ => true | Throw _ => false end
  | Throw _ => false
  end.

Definition isRejected (wk : Rag.worker) : bool :=
  match wk with Rag.Rejected _ => true | _ => false end.

(** The progress events of the embedding stage. *)
Definition isEmbeddingEvent (p : ProcessingProgress) : bool :=
  match stage p with embeddingStage => true | _ => false end.

(** Two chunks that differ at most in their embedding. *)
Definition sameText (c c' : DocumentChunk) : Prop :=
  id c' = id c /\ documentId c' = documentId c /\ content c' = content c
  /\ startIndex c' = startIndex c /\ endIndex c' = endIndex c /\ page c' = page c.

(** Two documents that differ at most in the embeddings of their chunks. *)
Definition onlyEmbeddingsDiffer (d d' : Document) : Prop :=
  doc_id d' = doc_id d /\ doc_name d' = doc_name d
  /\ doc_content d' = doc_content d /\ doc_type d' = doc_type d
  /\ doc_size d' = doc_size d /\ uploadedAt d' = uploadedAt d
  /\ processedAt d' = processedAt d
  /\ Forall2 sameText (Rag.chunksOf d) (Rag.chunksOf d').

(** The count of the stage: chunks embedded, queued, awaited and given up
    add up to the number of chunks, and every embedded chunk has been
    reported once. *)
Definition accounted (n events0 : nat) (j : Rag.job) : Prop :=
  Rag.completedChunks j + length (Rag.queue j)
  + length (filter JobSpec.isAwaiting (Rag.workers j)) + length (filter isRejected (Rag.workers j))
  = n
  /\ length (filter isEmbeddingEvent (reported (Rag.world j)))
     = events0 + Rag.completedChunks j.

End Notions.

(** ** Further sample data *)

Module Examples.
Import JS Types Effects.

Definition notes : Document :=
  mkDocument (units "d7") (units "notes.txt") (units "alpha") txt 5 0 None
             (Some [mkChunk (units "c7") (units "d7") (units "alpha") 0 5 None None]).

Definition early : ChatMessage := mkMessage (units "m0") (units "hello") user 3 None.

Definition late : ChatMessage := mkMessage (units "m1") (units "why?") user 10 None.

(** A store with one document and two chat messages. *)
Definition library : World :=
  mkWorld (Some (mkDB [Notions.storedForm notes] [] [early; late])) 0 [].

(** The storage service before [initialize()]. *)
Definition closed : World := mkWorld None 0 [].

(** An embedding at right angles to the one of [Sample.chunkA]. *)
Definition embedAcross (_ : str) : result (list float) := Ok [0; 1]%float.

(** A loaded service whose text model echoes its prompt. *)
Definition echo : Llm.Service :=
  Llm.mkService (Some (fun prompt _ _ => Ok (Some prompt)))
                (Some (fun _ => Ok Sample.query)) None false.

Definition picture : File := mkFile (units "a.png") (units "image/png") 9.

Definition detectImage (_ : File) : result DocumentType := Ok image.

(** An extraction that finds white space only. *)
Definition blank (_ : DocumentType) (_ : File) : result str :=
  Ok (units "  
 ").

End Examples.

(** * Properties *)

Import JS Types Effects Spec.

(** ** Strings *)

Section StringFacts.

Lemma length_dropWhile {A} (p : A -> bool) (l : list A) :
  length (dropWhile p l) <= length l.
Proof.
  induction l as [|x l IH]; simpl; [lia|].
  destruct (p x); simpl; lia.
Qed.

Lemma length_trim (s : str) : length (trim s) <= length s.
Proof.
  unfold trim, trimEnd, trimStart.
  rewrite length_rev.
  etransitivity; [apply length_dropWhile|].
  rewrite length_rev. apply length_dropWhile.
Qed.

Lemma length_slice {A} (l : list A) (a b : nat) :
  length (slice l a b) <= b - a.
Proof. unfold slice. rewrite length_firstn. lia. Qed.

Lemma occursIn_refl s : occursIn s s.
Proof. exists [], []. simpl. now rewrite app_nil_r. Qed.

Lemma occursIn_trans a b c : occursIn a b -> occursIn b c -> occursIn a c.
Proof.
  intros (p1 & q1 & ->) (p2 & q2 & ->).
  exists (p2 ++ p1), (q1 ++ q2). now rewrite !app_assoc.
Qed.

Lemma dropWhile_suffix {A} (p : A -> bool) (l : list A) :
  exists dropped, l = dropped ++ dropWhile p l.
Proof.
  induction l as [|x l [d IH]]; simpl.
  - now exists [].
  - destruct (p x).
    + exists (x :: d). simpl. now rewrite <- IH.
    + now exists [].
Qed.

Lemma occursIn_trim s : occursIn (trim s) s.
Proof.
  unfold trim, trimEnd, trimStart.
  destruct (dropWhile_suffix isWhiteSpace s) as [lead Hlead].
  destruct (dropWhile_suffix isWhiteSpace (rev (dropWhile isWhiteSpace s)))
    as [trail Htrail].
  exists lead, (rev trail).
  rewrite <- rev_app_distr, <- Htrail, rev_involutive. exact Hlead.
Qed.

Lemma occursIn_slice (s : str) a b : occursIn (slice s a b) s.
Proof.
  unfold slice.
  exists (firstn a s), (skipn (b - a) (skipn a s)).
  now rewrite firstn_skipn, firstn_skipn.
Qed.

Lemma occursIn_splitScan s :
  forall skip cur, skip = 0 \/ cur = [] ->
  forall piece, In piece (splitScan skip cur s) -> occursIn piece (rev cur ++ s).
Proof.
  induction s as [|c s IH]; intros skip cur Hinv piece Hin.
  - simpl in Hin. destruct Hin as [<- | Hin]; [|contradiction].
    rewrite app_nil_r. apply occursIn_refl.
  - cbn [splitScan] in Hin. destruct skip as [|k].
    + destruct (matchSeparator (c :: s)) as [[|k]|].
      * apply IH in Hin; [|now left].
        simpl in Hin. now rewrite <- app_assoc in Hin.
      * destruct Hin as [<- | Hin].
        -- exists [], (c :: s). reflexivity.
        -- apply IH in Hin; [|now right]. simpl in Hin.
           destruct Hin as (p & q & ->). exists (rev cur ++ c :: p), q.
           now rewrite <- app_assoc.
      * apply IH in Hin; [|now left].
        simpl in Hin. now rewrite <- app_assoc in Hin.
    + destruct Hinv as [Hk | ->]; [discriminate|].
      apply IH in Hin; [|now right]. simpl in *.
      destruct Hin as (p & q & ->). now exists (c :: p), q.
Qed.

Lemma occursIn_splitParagraphs text piece :
  In piece (splitParagraphs text) -> occursIn piece text.
Proof. intros H. now apply occursIn_splitScan in H; [|now left]. Qed.

End StringFacts.

(** ** The chunker *)

Section ChunkerFacts.
Import DocumentProcessor.

Variable generateId : nat -> str.

Lemma sizes : CHUNK_SIZE = 1000 /\ OVERLAP = 200.
Proof. split; reflexivity. Qed.

(** The loop over a long paragraph leaves by its own test: fuel beyond the
    paragraph's length changes nothing. *)
Lemma windows_fuel paragraph docId cursor :
  forall fuel extra paragraphStart n,
    length paragraph <= paragraphStart + fuel ->
    windows generateId (fuel + extra) paragraph docId cursor paragraphStart n
    = windows generateId fuel paragraph docId cursor paragraphStart n.
Proof.
  induction fuel as [|fuel IH]; intros extra ps n Hlen.
  - destruct extra; [reflexivity|]. cbn [windows Nat.add].
    destruct (Nat.ltb_spec ps (length paragraph)); [lia|reflexivity].
  - cbn [windows Nat.add].
    destruct (Nat.ltb_spec ps (length paragraph)); [|reflexivity].
    rewrite IH; [reflexivity|]. pose proof sizes. lia.
Qed.

Lemma ForallOrdPairs_app {A} (R : A -> A -> Prop) (l1 l2 : list A) :
  ForallOrdPairs R l1 -> ForallOrdPairs R l2 ->
  (forall x y, In x l1 -> In y l2 -> R x y) ->
  ForallOrdPairs R (l1 ++ l2).
Proof.
  induction 1 as [|x l1 Hx Hl1 IH]; intros H2 Hcross; simpl; [assumption|].
  constructor.
  - apply Forall_app. split; [assumption|].
    apply Forall_forall. intros y Hy. apply Hcross; [now left|assumption].
  - apply IH; [assumption|]. intros a b Ha Hb. apply Hcross; [now right|assumption].
Qed.

Lemma ForallOrdPairs_map {A B} (f : A -> B) (R : A -> A -> Prop) (Q : B -> B -> Prop)
      (l : list A) :
  (forall x y, R x y -> Q (f x) (f y)) ->
  ForallOrdPairs R l -> ForallOrdPairs Q (map f l).
Proof.
  intros HRQ. induction 1 as [|x l Hx Hl IH]; simpl; constructor; [|assumption].
  apply Forall_map. eapply Forall_impl; [|exact Hx]. intros y. apply HRQ.
Qed.

(** The windows of one long paragraph placed at [cursor]. *)
Lemma windows_spec paragraph docId cursor :
  forall fuel paragraphStart n,
    let cs := fst (windows generateId fuel paragraph docId cursor paragraphStart n) in
    Forall (fun c =>
              cursor + paragraphStart <= startIndex c
              /\ endIndex c = cursor + Nat.min (startIndex c - cursor + CHUNK_SIZE)
                                             (length paragraph)
              /\ cutFrom paragraph cursor (cursor + length paragraph) c) cs
    /\ ForallOrdPairs inOrder cs.
Proof.
  pose proof sizes as [Hsize Hoverlap].
  induction fuel as [|fuel IH]; intros ps n; cbn [windows].
  - simpl. split; constructor.
  - destruct (Nat.ltb_spec ps (length paragraph)) as [Hlt|Hge];
      [|simpl; split; constructor].
    specialize (IH (ps + (CHUNK_SIZE - OVERLAP))).
    set (piece := trim (slice paragraph ps (Nat.min (ps + CHUNK_SIZE) (length paragraph)))).
    assert (Hpiece : occursIn piece paragraph /\ length piece <= CHUNK_SIZE).
    { split.
      - eapply occursIn_trans; [apply occursIn_trim|apply occursIn_slice].
      - unfold piece. etransitivity; [apply length_trim|].
        etransitivity; [apply length_slice|]. lia. }
    destruct piece as [|c piece]; cbn [fst snd app].
    + destruct (IH n) as [IHall IHord]. split; [|exact IHord].
      eapply Forall_impl; [|exact IHall]. cbn beta. intros a Ha.
      repeat split; try apply Ha; lia.
    + match goal with |- context [windows _ _ _ _ _ _ ?m] => specialize (IH m) end.
      cbn zeta in IH. destruct IH as [IHall IHord].
      split.
      * constructor.
        -- cbn [startIndex endIndex content]. unfold cutFrom.
           cbn [startIndex endIndex content].
           replace (cursor + ps - cursor) with ps by lia.
           repeat split; try lia; apply Hpiece.
        -- eapply Forall_impl; [|exact IHall]. cbn beta. intros a Ha.
           repeat split; try apply Ha; lia.
      * constructor; [|assumption].
        eapply Forall_impl; [|exact IHall]. cbn beta.
        intros a (Hlo & Hend & _). unfold inOrder.
        cbn [startIndex endIndex]. lia.
Qed.

Lemma cutFrom_weaken text paragraph lo hi lo' hi' c :
  cutFrom paragraph lo hi c -> occursIn paragraph text -> lo' <= lo -> hi <= hi' ->
  cutFrom text lo' hi' c.
Proof.
  intros (H1 & H2 & H3 & H4 & H5) Hin Hlo Hhi.
  repeat split; try lia. eapply occursIn_trans; eassumption.
Qed.

(** The paragraph loop: every chunk is cut from the text, chunks appear in
    order, and chunks of different paragraphs are apart. *)
Lemma chunkParagraphs_spec text docId :
  forall paragraphs cursor n,
    Forall (fun p => 0 < length p /\ occursIn p text) paragraphs ->
    let cs := fst (chunkParagraphs generateId paragraphs docId cursor n) in
    Forall (cutFrom text cursor (cursor + totalLength paragraphs)) cs
    /\ ForallOrdPairs inOrder cs.
Proof.
  pose proof sizes as [Hsize Hoverlap].
  induction paragraphs as [|p more IH]; intros cursor n Hps; cbn [chunkParagraphs].
  - simpl. split; constructor.
  - inversion Hps as [|? ? [Hpos Hin] Hmore]; subst.
    cbn zeta. cbn [totalLength].
    set (here := if length p <=? CHUNK_SIZE then _ else _).
    assert (Hhere : Forall (cutFrom text cursor (cursor + length p)) (fst here)
                    /\ ForallOrdPairs inOrder (fst here)).
    { subst here.
      destruct (Nat.leb_spec (length p) CHUNK_SIZE) as [Hsmall|Hlarge].
      - cbn [fst]. split; [|repeat constructor].
        constructor; [|constructor]. unfold cutFrom. cbn [startIndex endIndex content].
        repeat split; try lia.
        + eapply occursIn_trans; [apply occursIn_trim|exact Hin].
        + etransitivity; [apply length_trim|exact Hsmall].
      - destruct (windows_spec p docId cursor (length p) 0 n) as [Hall Hord].
        split; [|exact Hord].
        eapply Forall_impl; [|exact Hall]. cbn beta. intros c (_ & _ & Hcut).
        eapply cutFrom_weaken; [exact Hcut|exact Hin|lia|lia]. }
    destruct Hhere as [Hall Hord].
    destruct (IH (cursor + length p) (snd here) Hmore) as [IHall IHord].
    cbn [fst snd].
    split.
    + apply Forall_app. split.
      * eapply Forall_impl; [|exact Hall]. intros c (H1 & H2 & H3 & H4).
        repeat split; try lia; apply H4.
      * eapply Forall_impl; [|exact IHall]. intros c (H1 & H2 & H3 & H4).
        repeat split; try lia; apply H4.
    + apply ForallOrdPairs_app; [assumption|assumption|].
      intros x y Hx Hy.
      rewrite Forall_forall in Hall, IHall.
      destruct (Hall x Hx) as (? & ? & ? & _), (IHall y Hy) as (? & ? & ? & _).
      unfold inOrder. lia.
Qed.

Lemma paragraphsOf_spec text :
  Forall (fun p => 0 < length p /\ occursIn p text) (paragraphsOf text).
Proof.
  apply Forall_forall. intros p Hp. unfold paragraphsOf in Hp.
  apply filter_In in Hp. destruct Hp as [Hin Hlen].
  apply Nat.ltb_lt in Hlen. split.
  - pose proof (length_trim p). lia.
  - now apply occursIn_splitParagraphs.
Qed.

(** [chunkDocument] on any text and for any document type. *)
Lemma chunkDocument_spec text docId docType n :
  let cs := fst (chunkDocument generateId text docId docType n) in
  Forall (cutFrom text 0 (length text + totalLength (paragraphsOf text))) cs
  /\ ForallOrdPairs inOrder cs.
Proof.
  destruct (chunkParagraphs_spec text docId (paragraphsOf text) 0 n
              (paragraphsOf_spec text)) as [Hall Hord].
  cbn zeta in *. unfold chunkDocument. cbn [fst].
  destruct (isPdf docType).
  - unfold addPageNumbers. split.
    + apply Forall_map. eapply Forall_impl; [|exact Hall].
      intros c (H1 & H2 & H3 & H4). unfold cutFrom. cbn. repeat split; try lia; apply H4.
    + eapply ForallOrdPairs_map; [|exact Hord]. intros x y H. exact H.
  - split; [|exact Hord].
    eapply Forall_impl; [|exact Hall].
    intros c (H1 & H2 & H3 & H4). repeat split; try lia; apply H4.
Qed.

End ChunkerFacts.

(** ** Texts without long paragraphs *)

Section ShortParagraphs.
Import DocumentProcessor.

Variable generateId : nat -> str.

Lemma Subseq_refl s : Subseq s s.
Proof. induction s; constructor; assumption. Qed.

Lemma Subseq_behind pre s t : Subseq s t -> Subseq s (pre ++ t).
Proof. intros H. induction pre; simpl; [assumption|now constructor]. Qed.

Lemma Subseq_app s1 t1 s2 t2 :
  Subseq s1 t1 -> Subseq s2 t2 -> Subseq (s1 ++ s2) (t1 ++ t2).
Proof.
  intros H1 H2. induction H1; simpl.
  - now apply Subseq_behind.
  - now constructor.
  - now constructor.
Qed.

Lemma Subseq_occursIn piece text : occursIn piece text -> Subseq piece text.
Proof.
  intros (before & after & ->). apply Subseq_behind.
  rewrite <- (app_nil_r piece) at 1. apply Subseq_app; [apply Subseq_refl|constructor].
Qed.

(** The greedy test finds a subsequence whenever there is one. *)
Lemma subsequenceOf_weaken t :
  (forall s b, subsequenceOf s t = true -> subsequenceOf s (b :: t) = true)
  /\ (forall a s, subsequenceOf (a :: s) t = true -> subsequenceOf s t = true).
Proof.
  induction t as [|c t [IHskip IHdrop]].
  - split; [intros [|a s] b H; [reflexivity|discriminate]|discriminate].
  - assert (Hdrop : forall a s, subsequenceOf (a :: s) (c :: t) = true ->
                                subsequenceOf s (c :: t) = true).
    { intros a s H. cbn [subsequenceOf] in H.
      destruct (a =? c)%N; [now apply IHskip|apply IHskip; now apply IHdrop in H]. }
    split; [|exact Hdrop].
    intros [|a s] b H; [reflexivity|].
    cbn [subsequenceOf]. destruct (a =? b)%N eqn:E; [|exact H].
    now apply Hdrop in H.
Qed.

Lemma subsequenceOf_complete s t : Subseq s t -> subsequenceOf s t = true.
Proof.
  induction 1 as [t|s x t H IH|s x t H IH].
  - now destruct t.
  - now apply subsequenceOf_weaken.
  - cbn [subsequenceOf]. now rewrite N.eqb_refl.
Qed.

(** Whatever is kept of each piece, the pieces of [split] kept in order
    form a subsequence of the text. *)
Lemma Subseq_splitScan (keep : str -> str) :
  (forall p, Subseq (keep p) p) ->
  forall s skip cur, skip = 0 \/ cur = [] ->
    Subseq (concat (map keep (splitScan skip cur s))) (rev cur ++ s).
Proof.
  intros Hkeep. induction s as [|c s IH]; intros skip cur Hinv.
  - simpl. rewrite !app_nil_r. apply Hkeep.
  - cbn [splitScan]. destruct skip as [|k].
    + destruct (matchSeparator (c :: s)) as [[|k]|].
      * specialize (IH 0 (c :: cur) (or_introl eq_refl)).
        simpl in IH. now rewrite <- app_assoc in IH.
      * cbn [map concat]. apply Subseq_app; [apply Hkeep|].
        constructor. apply (IH k [] (or_intror eq_refl)).
      * specialize (IH 0 (c :: cur) (or_introl eq_refl)).
        simpl in IH. now rewrite <- app_assoc in IH.
    + destruct Hinv as [Hk | ->]; [discriminate|].
      simpl. constructor. apply (IH k [] (or_intror eq_refl)).
Qed.

Lemma concat_paragraphs_Subseq text :
  Subseq (concat (map trim (paragraphsOf text))) text.
Proof.
  pose (keep := fun p : str => if 0 <? length (trim p) then trim p else []).
  assert (Hkeep : forall p, Subseq (keep p) p).
  { intros p. unfold keep. destruct (0 <? length (trim p)); [|constructor].
    apply Subseq_occursIn, occursIn_trim. }
  replace (concat (map trim (paragraphsOf text)))
    with (concat (map keep (splitParagraphs text))).
  - apply (Subseq_splitScan keep Hkeep text 0 [] (or_introl eq_refl)).
  - unfold paragraphsOf. induction (splitParagraphs text) as [|p ps IH];
      [reflexivity|].
    cbn [map concat filter]. unfold keep at 1.
    destruct (0 <? length (trim p)); cbn [map concat]; now rewrite IH.
Qed.

Lemma disjointAscending_spec cs :
  ForallOrdPairs (fun c1 c2 => endIndex c1 <= startIndex c2) cs ->
  disjointAscending cs = true.
Proof.
  induction 1 as [|c cs Hc Hcs IH]; [reflexivity|].
  cbn [disjointAscending]. rewrite IH, andb_true_r.
  apply forallb_forall. intros c' Hc'. apply Nat.leb_le.
  rewrite Forall_forall in Hc. now apply Hc.
Qed.

(** Paragraphs that fit a chunk give one fragment each, side by side. *)
Lemma chunkParagraphs_short text docId :
  forall paragraphs cursor n,
    Forall (fun p => 0 < length p /\ occursIn p text) paragraphs ->
    Forall (fun p => length p <= CHUNK_SIZE) paragraphs ->
    let cs := fst (chunkParagraphs generateId paragraphs docId cursor n) in
    map content cs = map trim paragraphs
    /\ ForallOrdPairs (fun c1 c2 => endIndex c1 <= startIndex c2) cs.
Proof.
  induction paragraphs as [|p more IH]; intros cursor n Hps Hshort;
    cbn [chunkParagraphs].
  - simpl. split; [reflexivity|constructor].
  - inversion Hps as [|? ? Hp Hmore]; inversion Hshort as [|? ? Hlen Hshort']; subst.
    apply Nat.leb_le in Hlen. rewrite Hlen. cbn zeta. cbn [fst snd app map content].
    destruct (IH (cursor + length p) (S n) Hmore Hshort') as [IHc IHo].
    destruct (chunkParagraphs_spec generateId text docId more (cursor + length p)
                (S n) Hmore) as [Hcut _].
    cbn zeta in *. split; [now rewrite IHc|].
    constructor; [|exact IHo].
    eapply Forall_impl; [|exact Hcut]. intros c Hc. cbn [endIndex]. apply Hc.
Qed.

Lemma chunkDocument_short text docId docType n :
  Forall (fun p => length p <= CHUNK_SIZE) (paragraphsOf text) ->
  let cs := fst (chunkDocument generateId text docId docType n) in
  disjointAscending cs = true
  /\ subsequenceOf (concat (map content cs)) text = true.
Proof.
  intros Hshort.
  destruct (chunkParagraphs_short text docId (paragraphsOf text) 0 n
              (paragraphsOf_spec text) Hshort) as [Hc Ho].
  cbn zeta in *. unfold chunkDocument. cbn [fst].
  assert (Hgoal : forall cs',
             map content cs' = map trim (paragraphsOf text) ->
             ForallOrdPairs (fun c1 c2 => endIndex c1 <= startIndex c2) cs' ->
             disjointAscending cs' = true
             /\ subsequenceOf (concat (map content cs')) text = true).
  { intros cs' Hc' Ho'. split; [now apply disjointAscending_spec|].
    rewrite Hc'. apply subsequenceOf_complete, concat_paragraphs_Subseq. }
  destruct (isPdf docType); [|now apply Hgoal].
  unfold addPageNumbers. apply Hgoal.
  - rewrite map_map. cbn [setPage content]. exact Hc.
  - eapply ForallOrdPairs_map; [|exact Ho]. intros x y H. exact H.
Qed.

End ShortParagraphs.

(** ** Claims on the chunker *)

Section ChunkerClaims.
Import DocumentProcessor.

(** C5.  The configured overlap is below the chunk size, and whatever the
    text, every emitted fragment holds at most [CHUNK_SIZE] code units. *)
Theorem fragment_length_bounded :
  OVERLAP < CHUNK_SIZE
  /\ forall (generateId : nat -> str) (text docId : str) (docType : DocumentType)
            (n : nat),
      Forall (fun c => length (content c) <= CHUNK_SIZE)
             (fst (chunkDocument generateId text docId docType n)).
Proof.
  split; [pose proof sizes; lia|].
  intros generateId text docId docType n.
  destruct (chunkDocument_spec generateId text docId docType n) as [Hall _].
  eapply Forall_impl; [|exact Hall]. intros c Hc. apply Hc.
Qed.

(** C3, as stated, fails on a paragraph longer than [CHUNK_SIZE]: its two
    windows, [0, 1000) and [800, 1001), overlap, and their concatenation is
    longer than the text. *)
Lemma long_paragraph_windows_overlap :
  let cs := fst (chunkDocument Sample.ids Sample.longText [] txt 0) in
  map (fun c => (startIndex c, endIndex c)) cs = [(0, 1000); (800, 1001)]
  /\ disjointAscending cs = false
  /\ subsequenceOf (concat (map content cs)) Sample.longText = false.
Proof. repeat split; vm_compute; reflexivity. Qed.

(** C3, amended.  Whatever the text, start positions ascend strictly, end
    positions never descend, a fragment reaches into a later one by at most
    [OVERLAP] positions, every range is non-empty and every fragment's
    content is a contiguous part of the text.  When no paragraph is longer
    than [CHUNK_SIZE], the ranges are pairwise disjoint and the concatenated
    fragments are a subsequence of the text, as the claim has it. *)
Theorem fragments_ascend_with_bounded_overlap
        (generateId : nat -> str) (text docId : str) (docType : DocumentType)
        (n : nat) :
  let cs := fst (chunkDocument generateId text docId docType n) in
  ForallOrdPairs inOrder cs
  /\ Forall (fun c => startIndex c < endIndex c /\ occursIn (content c) text) cs
  /\ (Forall (fun p => length p <= CHUNK_SIZE) (paragraphsOf text) ->
      disjointAscending cs = true
      /\ subsequenceOf (concat (map content cs)) text = true).
Proof.
  destruct (chunkDocument_spec generateId text docId docType n) as [Hall Hord].
  cbv zeta in *. split; [exact Hord|]. split.
  - eapply Forall_impl; [|exact Hall]. intros c Hc. split; apply Hc.
  - apply chunkDocument_short.
Qed.

Lemma fragments_ascend_with_bounded_overlap_witness :
  let cs := fst (chunkDocument Sample.ids Sample.twoPages [] txt 0) in
  Forall (fun p => length p <= CHUNK_SIZE) (paragraphsOf Sample.twoPages)
  /\ ForallOrdPairs inOrder cs
  /\ Forall (fun c => startIndex c < endIndex c
                      /\ occursIn (content c) Sample.twoPages) cs
  /\ disjointAscending cs = true
  /\ subsequenceOf (concat (map content cs)) Sample.twoPages = true.
Proof.
  assert (Hshort : Forall (fun p => length p <= CHUNK_SIZE)
                          (paragraphsOf Sample.twoPages)).
  { apply Forall_forall. intros p Hp. apply Nat.leb_le. revert p Hp.
    apply (proj1 (forallb_forall (fun p : str => length p <=? CHUNK_SIZE)
                                 (paragraphsOf Sample.twoPages))).
    vm_compute. reflexivity. }
  destruct (fragments_ascend_with_bounded_overlap
              Sample.ids Sample.twoPages [] txt 0) as (Hord & Hall & Hcond).
  destruct (Hcond Hshort) as [Hdisjoint Hsub].
  repeat split; assumption.
Defined.

(** C4.  The claim fails on the two-page text: the chunk that holds the
    second marker and the second page's text starts, in the text, where the
    marker stands (position 22), yet its recorded [startIndex] is 20 (the
    cursor leaves out the blank line between the paragraphs) and it is given
    page 1. *)
Theorem second_page_chunk_gets_page_1 :
  map (fun c => (startIndex c, page c, content c))
      (fst (chunkDocument Sample.ids Sample.twoPages [] pdf 0))
  = [(0, Some 1%N, units "--- Page 1 ---
Alpha");
     (20, Some 1%N, units "--- Page 2 ---
Beta")]
  /\ pageStartsOf Sample.twoPages = [(1%N, 0%Z); (2%N, 22%Z)]
  /\ indexOf Sample.twoPages (units "--- Page 2 ---
Beta") = Some 22.
Proof. repeat split; vm_compute; reflexivity. Qed.

(** The index recorded for a marker is the first occurrence of its text.  A
    marker text met again is recorded at the first position, and the search
    from the last entry then stops at it: the third chunk, recorded at 32,
    past the second marker (18) and before the quoted one (40), is given
    page 1. *)
Lemma repeated_marker_takes_first_position :
  pageStartsOf Sample.quotedMarker = [(1%N, 0%Z); (2%N, 18%Z); (1%N, 0%Z)]
  /\ map (fun c => (startIndex c, page c))
         (fst (chunkDocument Sample.ids Sample.quotedMarker [] pdf 0))
     = [(0, Some 1%N); (16, Some 1%N); (32, Some 1%N)]
  /\ matchMarkers (skipn 40 Sample.quotedMarker) = [units "--- Page 1 ---"].
Proof. repeat split; vm_compute; reflexivity. Qed.

End ChunkerClaims.

(** ** The vector search *)

Section SearchFacts.
Import Storage Rag.

Lemma eqb_eq (s t : str) : eqb s t = true <-> s = t.
Proof.
  revert t. induction s as [|c s IH]; destruct t as [|d t]; simpl;
    try (split; [discriminate|discriminate]); [tauto|].
  rewrite andb_true_iff, N.eqb_eq, IH. split.
  - now intros [-> ->].
  - intros H. now inversion H.
Qed.

Lemma In_insertScored x y l : In x (insertScored y l) <-> x = y \/ In x l.
Proof.
  induction l as [|z l IH]; simpl.
  - intuition.
  - destruct (comesAfter y z); simpl; rewrite ?IH; intuition.
Qed.

Lemma In_sortBySimilarity x l : In x (sortBySimilarity l) <-> In x l.
Proof.
  induction l as [|y l IH]; simpl; [tauto|].
  rewrite In_insertScored, IH. intuition.
Qed.

Lemma In_firstn {A} (x : A) n l : In x (firstn n l) -> In x l.
Proof.
  revert l. induction n as [|n IH]; intros [|y l]; simpl; try tauto.
  intros [H|H]; [now left|right; now apply IH].
Qed.

Lemma In_sliceTo {A} (x : A) l k : In x (sliceTo l k) -> In x l.
Proof. unfold sliceTo. destruct (k <? 0)%Z; apply In_firstn. Qed.

Lemma length_sliceTo {A} (l : list A) k :
  (0 <= k)%Z -> (Z.of_nat (length (sliceTo l k)) <= k)%Z.
Proof.
  intros Hk. unfold sliceTo.
  destruct (Z.ltb_spec k 0); [lia|].
  rewrite length_firstn. lia.
Qed.

Lemma In_restrictTo ids c l : In c (restrictTo ids l) -> In c l.
Proof.
  unfold restrictTo. destruct ids as [ids|]; [|tauto].
  destruct (0 <? length ids); [|tauto].
  intros H. now apply filter_In in H.
Qed.

(** What [searchChunks] hands back: chunks of the store that carry an
    embedding and score at least the threshold it was given. *)
Lemma In_rank queryEmbedding topK threshold allChunks c :
  In c (rank queryEmbedding topK threshold allChunks) ->
  In c allChunks /\ hasEmbedding c = true
  /\ (threshold <=? similarityTo queryEmbedding c)%float = true.
Proof.
  unfold rank. intros H.
  apply in_map_iff in H. destruct H as ([c' sim] & Hc & H). simpl in Hc. subst c'.
  apply In_sliceTo, In_sortBySimilarity, filter_In in H.
  destruct H as [H Hsim]. simpl in Hsim.
  apply in_map_iff in H. destruct H as (c' & Heq & H).
  inversion Heq; subst. apply filter_In in H. tauto.
Qed.

Section WithCollaborators.
Variable generateEmbedding : str -> result (list float).

(** [searchDocuments] returns exactly when the query embeds and the
    store is open, and then returns this list. *)
Lemma searchDocuments_returns query options w q d :
  generateEmbedding query = Ok q -> db w = Some d ->
  exists r,
    searchDocuments generateEmbedding query options w = (Ok r, w)
    /\ res_chunks r
       = sliceTo (restrictTo (opt_documentIds options)
                    (rank q (topKOf options * 2)
                          (thresholdOf options * 0x1.999999999999ap-1)%float
                          (getAll (chunkStore d))))
                 (topKOf options).
Proof.
  intros Hq Hd.
  unfold searchDocuments, tryCatch, bind, lift, searchChunks, ensureDB, getDB,
    bind, ret.
  rewrite Hq, Hd. eexists. split; reflexivity.
Qed.

Lemma searchDocuments_inv query options w r w' :
  searchDocuments generateEmbedding query options w = (Ok r, w') ->
  exists q d, generateEmbedding query = Ok q /\ db w = Some d /\ w' = w.
Proof.
  unfold searchDocuments, tryCatch, bind, lift, searchChunks, ensureDB, getDB,
    bind, ret, throw.
  destruct (generateEmbedding query) as [q|e]; [|discriminate].
  destruct (db w) as [d|]; [|discriminate].
  intros H. inversion H. now exists q, d.
Qed.

End WithCollaborators.

End SearchFacts.

Section SearchClaims.
Import Storage Rag.

(** C1, as stated, fails: with threshold 0.7 the search returns a chunk at
    cosine 0.6 from the query, because [searchChunks] is called with the
    threshold 0.7 * 0.8 = 0.56. *)
Lemma search_returns_below_threshold :
  ~ searchMeetsThreshold Sample.embedQuery [] 5
      0x1.6666666666666p-1%float None Sample.world.
Proof.
  intros H.
  destruct (searchDocuments_returns Sample.embedQuery []
              (mkSearchOptions (Some 5%Z) (Some 0x1.6666666666666p-1%float) None)
              Sample.world Sample.query (mkDB [] [Sample.chunkA] []) eq_refl eq_refl)
    as (r & Hr & Hchunks).
  destruct (H Sample.query r Sample.world eq_refl Hr) as [_ Hall].
  rewrite Hchunks in Hall. vm_compute in Hall.
  inversion Hall as [|c l Hc Hl]. discriminate Hc.
Qed.

(** C1, amended.  When the query embeds and the store is open, the search
    returns, for a non-negative [topK], at most [topK] chunks, all of them
    chunks of the store whose cosine similarity to the query embedding is at
    least 0.8 times the caller's threshold. *)
Theorem search_bounded_relaxed_threshold
        (generateEmbedding : str -> result (list float))
        (query : str) (options : SearchOptions) (w : World)
        (q : list float) (d : DB) :
  generateEmbedding query = Ok q ->
  db w = Some d ->
  (0 <= topKOf options)%Z ->
  exists r,
    searchDocuments generateEmbedding query options w = (Ok r, w)
    /\ (Z.of_nat (length (res_chunks r)) <= topKOf options)%Z
    /\ Forall (fun c =>
                 In c (getAll (chunkStore d))
                 /\ (thresholdOf options * 0x1.999999999999ap-1
                     <=? similarityTo q c)%float = true)
              (res_chunks r).
Proof.
  intros Hq Hd Hk.
  destruct (searchDocuments_returns generateEmbedding query options w q d Hq Hd)
    as (r & Hr & Hchunks).
  exists r. split; [exact Hr|]. rewrite Hchunks. split.
  - now apply length_sliceTo.
  - apply Forall_forall. intros c Hc.
    apply In_sliceTo, In_restrictTo, In_rank in Hc. tauto.
Qed.

Lemma search_bounded_relaxed_threshold_witness :
  exists r,
    searchDocuments Sample.embedQuery []
                    (mkSearchOptions (Some 5%Z) (Some 0x1.6666666666666p-1%float) None)
                    Sample.world = (Ok r, Sample.world)
    /\ (Z.of_nat (length (res_chunks r)) <= 5)%Z
    /\ Forall (fun c =>
                 In c [Sample.chunkA]
                 /\ (0x1.6666666666666p-1 * 0x1.999999999999ap-1
                     <=? similarityTo Sample.query c)%float = true)
              (res_chunks r).
Proof.
  apply (search_bounded_relaxed_threshold Sample.embedQuery []
           (mkSearchOptions (Some 5%Z) (Some 0x1.6666666666666p-1%float) None)
           Sample.world Sample.query (mkDB [] [Sample.chunkA] []));
    [reflexivity | reflexivity | unfold topKOf; simpl; lia].
Defined.

(** The allow-list is applied to what [searchChunks] returned, that is after
    the cut to [2 * topK] candidates: asked for one chunk of document [dB],
    the search returns none, although the chunk of [dB] is at cosine 0.8 from
    the query, above the threshold 0.7. *)
Example allow_list_applies_after_truncation :
  exists r,
    searchDocuments Sample.embedAxis []
      (mkSearchOptions (Some 1%Z) (Some 0x1.6666666666666p-1%float)
                       (Some [units "dB"]))
      Sample.crowdedWorld = (Ok r, Sample.crowdedWorld)
    /\ res_chunks r = []
    /\ (0x1.6666666666666p-1 <=? similarityTo [1; 0] Sample.b1)%float = true.
Proof. eexists. repeat split; vm_compute; reflexivity. Qed.

(** ** Cosine similarity *)

(** C2.  On an all-zero vector both similarity functions divide zero by zero:
    the result is NaN, not 0, whichever argument is the zero vector. *)
Theorem zero_vector_similarity_is_nan :
  is_nan (cosineSimilarity [0; 0]%float [1; 2]%float) = true
  /\ is_nan (cosineSimilarity [1; 2]%float [0; 0]%float) = true
  /\ is_nan (calculateSimilarity [0; 0]%float [1; 2]%float) = true
  /\ is_nan (calculateSimilarity [1; 2]%float [0; 0]%float) = true
  /\ (0 <=? cosineSimilarity [0; 0]%float [1; 2]%float)%float = false.
Proof. repeat split; vm_compute; reflexivity. Qed.

Lemma positive_above_zero (t : float) :
  (0 <? t)%float = true -> (t <=? 0)%float = false.
Proof.
  rewrite ltb_spec, leb_spec. unfold SFltb, SFleb.
  change (Prim2SF 0) with (S754_zero false).
  destruct (Prim2SF t) as [s|s| |s m e]; simpl; try discriminate;
    destruct s; simpl; congruence.
Qed.

Lemma cosineSimilarity_mismatch a b :
  length a <> length b -> cosineSimilarity a b = 0%float.
Proof.
  intros H. unfold cosineSimilarity.
  apply Nat.eqb_neq in H. now rewrite H.
Qed.

(** C10.  On vectors of different lengths both similarity functions return
    0, and so [searchChunks] with a positive threshold never returns a chunk
    whose embedding has another length than the query embedding. *)
Theorem dimension_mismatch_scores_zero (a b : list float) :
  length a <> length b ->
  cosineSimilarity a b = 0%float
  /\ calculateSimilarity a b = 0%float
  /\ forall topK threshold allChunks chunk,
      (0 <? threshold)%float = true ->
      embedding chunk = Some b ->
      ~ In chunk (rank a topK threshold allChunks).
Proof.
  intros H. split; [now apply cosineSimilarity_mismatch|]. split.
  - unfold calculateSimilarity. apply Nat.eqb_neq in H. now rewrite H.
  - intros topK threshold allChunks chunk Hpos Hemb Hin.
    apply In_rank in Hin. destruct Hin as (_ & _ & Hsim).
    unfold similarityTo in Hsim. rewrite Hemb in Hsim.
    rewrite cosineSimilarity_mismatch in Hsim by exact H.
    apply positive_above_zero in Hpos. congruence.
Qed.

Lemma dimension_mismatch_scores_zero_witness :
  cosineSimilarity Sample.query [1]%float = 0%float
  /\ calculateSimilarity Sample.query [1]%float = 0%float
  /\ forall topK threshold allChunks chunk,
      (0 <? threshold)%float = true ->
      embedding chunk = Some [1]%float ->
      ~ In chunk (rank Sample.query topK threshold allChunks).
Proof.
  apply (dimension_mismatch_scores_zero Sample.query [1]%float). vm_compute. lia.
Defined.

End SearchClaims.

(** ** Deleting a document *)

Section DeleteFacts.
Import Storage Rag.

Lemma In_delete {V} (keyOf : V -> str) k (store : objectStore V) v :
  In v (delete keyOf k store) <-> In v store /\ keyOf v <> k.
Proof.
  unfold delete. rewrite filter_In, negb_true_iff.
  split; intros [Hin Hk]; split; try assumption.
  - intros <-. assert (eqb (keyOf v) (keyOf v) = true) by now apply eqb_eq. congruence.
  - destruct (eqb k (keyOf v)) eqn:E; [|reflexivity].
    apply eqb_eq in E. congruence.
Qed.

Lemma In_deleteEach (found : list DocumentChunk) :
  forall (store : objectStore DocumentChunk) c,
    In c (fold_left (fun store chunk => delete id (id chunk) store) found store) ->
    In c store /\ forall chunk, In chunk found -> id chunk <> id c.
Proof.
  induction found as [|x found IH]; intros store c Hin; simpl in Hin.
  - split; [assumption|]. intros ? [].
  - apply IH in Hin. destruct Hin as [Hin Hrest].
    apply In_delete in Hin. destruct Hin as [Hin Hx].
    split; [assumption|]. intros chunk [<-|Hc]; [congruence|now apply Hrest].
Qed.

Lemma deleteDocument_chunks key d c :
  In c (fold_left (fun store chunk => delete id (id chunk) store)
                  (byDocument key (chunkStore d)) (chunkStore d)) ->
  In c (chunkStore d) /\ documentId c <> key.
Proof.
  intros Hin. apply In_deleteEach in Hin. destruct Hin as [Hin Hnot].
  split; [assumption|]. intros Hkey.
  apply (Hnot c); [|reflexivity].
  unfold byDocument, getAll. apply filter_In. split; [assumption|].
  apply eqb_eq. congruence.
Qed.

(** C8.  On an open store [deleteDocument(id)] returns, and afterwards the
    chunk store holds no chunk whose [documentId] is [id]; hence no search
    on the resulting store returns such a chunk. *)
Theorem deleted_document_leaves_no_chunk (key : str) (w : World) (d : DB) :
  db w = Some d ->
  exists d',
    Storage.deleteDocument key w = (Ok tt, mkWorld (Some d') (tick w) (reported w))
    /\ Forall (fun c => In c (chunkStore d) /\ documentId c <> key)
              (getAll (chunkStore d'))
    /\ forall generateEmbedding query options r w',
        searchDocuments generateEmbedding query options
                        (mkWorld (Some d') (tick w) (reported w)) = (Ok r, w') ->
        Forall (fun c => documentId c <> key) (res_chunks r).
Proof.
  intros Hd.
  unfold Storage.deleteDocument, bind, ensureDB, getDB, bind, ret, setDB.
  rewrite Hd. eexists. split; [reflexivity|]. cbn [chunkStore]. split.
  - apply Forall_forall. intros c Hc. now apply deleteDocument_chunks.
  - intros generateEmbedding query options r w' Hsearch.
    destruct (searchDocuments_inv _ _ _ _ _ _ Hsearch) as (q & d' & Hq & Hd' & ->).
    destruct (searchDocuments_returns generateEmbedding query options _ q d' Hq Hd')
      as (r' & Hr' & Hchunks).
    rewrite Hr' in Hsearch. inversion Hsearch; subst r'.
    rewrite Hchunks. cbn [db] in Hd'. inversion Hd'; subst d'. cbn [chunkStore].
    apply Forall_forall. intros c Hc.
    apply In_sliceTo, In_restrictTo, In_rank in Hc. destruct Hc as [Hc _].
    now apply deleteDocument_chunks in Hc.
Qed.

Lemma deleted_document_leaves_no_chunk_witness :
  exists d',
    Storage.deleteDocument (units "d1") Sample.world
    = (Ok tt, mkWorld (Some d') 0 [])
    /\ Forall (fun c => In c [Sample.chunkA] /\ documentId c <> units "d1")
              (getAll (chunkStore d'))
    /\ forall generateEmbedding query options r w',
        searchDocuments generateEmbedding query options (mkWorld (Some d') 0 [])
        = (Ok r, w') ->
        Forall (fun c => documentId c <> units "d1") (res_chunks r).
Proof.
  apply (deleted_document_leaves_no_chunk (units "d1") Sample.world
           (mkDB [] [Sample.chunkA] [])).
  reflexivity.
Defined.

End DeleteFacts.

(** ** Answers *)

Section AnswerFacts.
Import Storage Rag.

Variable generateId : nat -> str.
Variable clock : nat -> Z.
Variable generateEmbedding : str -> result (list float).
Variable generateText : str -> str -> float -> Z -> result str.

Lemma keepsOpen_ret {A} (a : A) : keepsOpen (ret a).
Proof. intros w H. exact H. Qed.

Lemma keepsOpen_throw {A} e : keepsOpen (@throw A e).
Proof. intros w H. exact H. Qed.

Lemma keepsOpen_lift {A} (r : result A) : keepsOpen (lift r).
Proof. intros w H. exact H. Qed.

Lemma keepsOpen_draw : keepsOpen draw.
Proof. intros w H. exact H. Qed.

Lemma keepsOpen_bind {A B} (m : M A) (k : A -> M B) :
  keepsOpen m -> (forall a, keepsOpen (k a)) -> keepsOpen (bind m k).
Proof.
  intros Hm Hk w H. unfold bind. specialize (Hm w H).
  destruct (m w) as [[a|e] w1]; simpl in *; [now apply Hk|assumption].
Qed.

Lemma keepsOpen_tryCatch {A} (m : M A) (h : thrown -> M A) :
  keepsOpen m -> (forall e, keepsOpen (h e)) -> keepsOpen (tryCatch m h).
Proof.
  intros Hm Hh w H. unfold tryCatch. specialize (Hm w H).
  destruct (m w) as [[a|e] w1]; simpl in *; [assumption|now apply Hh].
Qed.

Lemma keepsOpen_ensureDB : keepsOpen ensureDB.
Proof.
  intros w H. unfold ensureDB, bind, getDB.
  destruct (db w) eqn:E; simpl; rewrite E; congruence.
Qed.

Lemma keepsOpen_setDB d : keepsOpen (setDB d).
Proof. intros w H. discriminate. Qed.

Create HintDb open.

#[local] Hint Resolve keepsOpen_ret keepsOpen_throw keepsOpen_lift keepsOpen_draw
  keepsOpen_ensureDB keepsOpen_setDB : open.

Ltac keeps :=
  repeat first
    [ solve [auto with open]
    | apply keepsOpen_bind; [|intros ?; cbv beta]
    | apply keepsOpen_tryCatch; [|intros ?; cbv beta] ].

Lemma keepsOpen_saveChatMessage message : keepsOpen (saveChatMessage message).
Proof. unfold saveChatMessage. keeps. Qed.

Lemma keepsOpen_searchDocuments query options :
  keepsOpen (searchDocuments generateEmbedding query options).
Proof.
  unfold searchDocuments, searchChunks. keeps.
Qed.

Lemma keepsOpen_resolveNames chunks :
  forall documentMap, keepsOpen (resolveNames chunks documentMap).
Proof.
  induction chunks as [|c chunks IH]; intros documentMap; cbn [resolveNames].
  - keeps.
  - destruct (mapGet documentMap (documentId c)); [apply IH|].
    apply keepsOpen_bind; [unfold getDocument; keeps|].
    intros [d|]; apply IH.
Qed.

Lemma keepsOpen_cite userQuestion chunks :
  forall i documentMap context sources,
    keepsOpen (cite generateEmbedding userQuestion i chunks documentMap context sources).
Proof.
  induction chunks as [|c chunks IH]; intros i documentMap context sources;
    cbn [cite].
  - keeps.
  - apply keepsOpen_bind; [|intros ?; apply IH].
    destruct (embedding c); keeps.
Qed.

Lemma keepsOpen_answer userQuestion options :
  keepsOpen (answer generateId clock generateEmbedding generateText userQuestion options).
Proof.
  unfold answer.
  apply keepsOpen_bind; [apply keepsOpen_searchDocuments|intros searchResults].
  apply keepsOpen_bind.
  - destruct (0 <? length (res_chunks searchResults)); [|keeps].
    apply keepsOpen_bind; [apply keepsOpen_resolveNames|intros ?].
    apply keepsOpen_cite.
  - intros built. apply keepsOpen_bind; [keeps|intros ?].
    apply keepsOpen_bind; [keeps|intros ?].
    apply keepsOpen_bind; [keeps|intros ?].
    apply keepsOpen_bind; [apply keepsOpen_saveChatMessage|intros ?]. keeps.
Qed.

Lemma eqb_refl (s : str) : eqb s s = true.
Proof. now apply eqb_eq. Qed.

Lemma get_put {V} (keyOf : V -> str) (v : V) (store : objectStore V) :
  get keyOf (keyOf v) (put keyOf v store) = Some v.
Proof.
  unfold get. induction store as [|v' store IH]; simpl.
  - now rewrite eqb_refl.
  - destruct (eqb (keyOf v) (keyOf v')) eqn:E; simpl.
    + now rewrite eqb_refl.
    + destruct (ltb (keyOf v) (keyOf v')); simpl.
      * now rewrite eqb_refl.
      * now rewrite E.
Qed.

(** The [catch] block on an open store: the apology is built, saved and
    returned. *)
Lemma recover_returns e w d :
  db w = Some d ->
  exists message,
    recover generateId clock e w
    = (Ok message,
       mkWorld (Some (mkDB (documents d) (chunkStore d)
                           (put msg_id message (chat_history d))))
               (S (S (tick w))) (reported w))
    /\ role message = assistant
    /\ msg_content message = apology e.
Proof.
  intros Hd. unfold recover, bind, draw, saveChatMessage, bind, ensureDB, bind,
    getDB, ret, setDB. cbn [db tick reported]. rewrite Hd.
  eexists. repeat split.
Qed.

Lemma recordUserMessage_opens userMessage w wu :
  recordUserMessage generateId clock userMessage w = (Ok tt, wu) -> db wu <> None.
Proof.
  unfold recordUserMessage, bind, draw, saveChatMessage, bind, ensureDB, bind,
    getDB, ret, setDB, throw. cbn [db tick reported].
  destruct (db w); intros H; inversion H; discriminate.
Qed.

(** C9.  Once the user's message is recorded, an error thrown anywhere on the
    answer path is caught: [generateResponse], and with it [chat], returns an
    assistant message whose content is the sentence "I apologize, but I
    encountered an error while processing your question: ", the message of
    the error ("Unknown error" when what was thrown is not an [Error]) and
    ". Please try again.", and that message is in the chat history
    afterwards. *)
Theorem failed_answer_is_answered
        (userMessage : str) (documentIds : option (list str))
        (w wu w1 : World) (e : thrown) :
  let options := mkResponseOptions None None None documentIds in
  recordUserMessage generateId clock userMessage w = (Ok tt, wu) ->
  answer generateId clock generateEmbedding generateText userMessage options wu
  = (Throw e, w1) ->
  exists message w2 d2,
    generateResponse generateId clock generateEmbedding generateText
                     userMessage options wu = (Ok message, w2)
    /\ chat generateId clock generateEmbedding generateText userMessage
            documentIds w = (Ok message, w2)
    /\ role message = assistant
    /\ msg_content message
       = units "I apologize, but I encountered an error while processing your question: "
           ++ match e with
              | JsError text => text
              | NotAnError => units "Unknown error"
              end
           ++ units ". Please try again."
    /\ db w2 = Some d2
    /\ get msg_id (msg_id message) (chat_history d2) = Some message.
Proof.
  intros options Huser Hanswer.
  pose proof (recordUserMessage_opens _ _ _ Huser) as Hopen.
  pose proof (keepsOpen_answer userMessage options wu Hopen) as Hopen1.
  rewrite Hanswer in Hopen1. cbn [snd] in Hopen1.
  destruct (db w1) as [d1|] eqn:Hd1; [|congruence].
  destruct (recover_returns e w1 d1 Hd1) as (message & Hrec & Hrole & Hcontent).
  assert (Hgen : generateResponse generateId clock generateEmbedding generateText
                   userMessage options wu
                 = (Ok message,
                    mkWorld (Some (mkDB (documents d1) (chunkStore d1)
                                        (put msg_id message (chat_history d1))))
                            (S (S (tick w1))) (reported w1))).
  { unfold generateResponse, tryCatch. rewrite Hanswer. exact Hrec. }
  eexists message, _, _. split; [exact Hgen|]. split.
  - unfold chat, tryCatch, bind. rewrite Huser. fold options. now rewrite Hgen.
  - split; [assumption|]. split.
    { rewrite Hcontent. unfold apology, messageOf. now destruct e. }
    split; [reflexivity|]. cbn [chat_history]. apply get_put.
Qed.

End AnswerFacts.

Lemma failed_answer_is_answered_witness :
  exists message w2 d2,
    Rag.generateResponse Sample.ids Z.of_nat Sample.noEmbedder Sample.noGenerator (units "why?")
      (Rag.mkResponseOptions None None None None)
      (snd (Rag.recordUserMessage Sample.ids Z.of_nat (units "why?") Sample.world))
    = (Ok message, w2)
    /\ Rag.chat Sample.ids Z.of_nat Sample.noEmbedder Sample.noGenerator (units "why?") None
                Sample.world = (Ok message, w2)
    /\ role message = assistant
    /\ msg_content message
       = units "I apologize, but I encountered an error while processing your question: Embedding model not loaded. Call initialize() first.. Please try again."
    /\ db w2 = Some d2
    /\ get msg_id (msg_id message) (chat_history d2) = Some message.
Proof.
  apply (failed_answer_is_answered Sample.ids Z.of_nat Sample.noEmbedder Sample.noGenerator
           (units "why?") None Sample.world
           (snd (Rag.recordUserMessage Sample.ids Z.of_nat (units "why?") Sample.world))
           (snd (Rag.recordUserMessage Sample.ids Z.of_nat (units "why?") Sample.world))
           (JsError (units "Embedding model not loaded. Call initialize() first.")));
    reflexivity.
Defined.

(** ** The embedding stage *)

Section JobFacts.
Import Storage Rag JobSpec.

Lemma updateAt_split {A} (k : nat) (f : A -> A) (l : list A) (a : A) :
  nth_error l k = Some a ->
  exists pre post,
    l = pre ++ a :: post /\ updateAt k f l = pre ++ f a :: post /\ length pre = k.
Proof.
  intros H. apply nth_error_split in H. destruct H as (pre & post & -> & Hlen).
  exists pre, post. repeat split; [|assumption].
  unfold updateAt. subst k.
  rewrite firstn_app, firstn_all, Nat.sub_diag, skipn_app, skipn_all, Nat.sub_diag.
  simpl. now rewrite app_nil_r.
Qed.

Lemma updateAt_beyond {A} (k : nat) (f : A -> A) (l : list A) :
  nth_error l k = None -> updateAt k f l = l.
Proof.
  intros H. apply nth_error_None in H. unfold updateAt.
  rewrite skipn_all2 by assumption. rewrite firstn_all2 by assumption.
  apply app_nil_r.
Qed.

Lemma length_updateAt {A} (k : nat) (f : A -> A) (l : list A) :
  length (updateAt k f l) = length l.
Proof.
  destruct (nth_error l k) as [a|] eqn:E.
  - destruct (updateAt_split k f l a E) as (pre & post & -> & -> & _).
    rewrite !length_app. reflexivity.
  - now rewrite updateAt_beyond.
Qed.

Lemma nth_error_updateAt {A} (k : nat) (f : A -> A) (l : list A) (i : nat) :
  nth_error (updateAt k f l) i
  = if i =? k then option_map f (nth_error l i) else nth_error l i.
Proof.
  destruct (nth_error l k) as [a|] eqn:E.
  - destruct (updateAt_split k f l a E) as (pre & post & -> & -> & Hlen).
    destruct (Nat.eqb_spec i k) as [->|Hne].
    + rewrite !nth_error_app2 by lia. rewrite Hlen, Nat.sub_diag. reflexivity.
    + destruct (Nat.lt_ge_cases i (length pre)).
      * now rewrite !nth_error_app1 by assumption.
      * rewrite !nth_error_app2 by assumption.
        destruct (i - length pre) eqn:D; [lia|reflexivity].
  - rewrite updateAt_beyond by assumption.
    destruct (Nat.eqb_spec i k) as [->|Hne]; [|reflexivity].
    now rewrite E.
Qed.

Lemma chunksOf_assignEmbedding i v d :
  chunksOf (assignEmbedding i v d)
  = updateAt i (fun chunk => setEmbedding chunk v) (chunksOf d).
Proof.
  unfold chunksOf, assignEmbedding. cbn [chunks].
  destruct (chunks d); [reflexivity|]. now destruct i.
Qed.

Lemma embedded_kept i v d n c :
  nth_error (chunksOf d) n = Some c -> embedded c ->
  exists c', nth_error (chunksOf (assignEmbedding i v d)) n = Some c' /\ embedded c'.
Proof.
  intros Hc He. rewrite chunksOf_assignEmbedding, nth_error_updateAt, Hc.
  destruct (n =? i); eexists; (split; [reflexivity|]); [discriminate|exact He].
Qed.

Lemma embedded_assigned i v d :
  i < length (chunksOf d) ->
  exists c', nth_error (chunksOf (assignEmbedding i v d)) i = Some c' /\ embedded c'.
Proof.
  intros Hi. rewrite chunksOf_assignEmbedding, nth_error_updateAt, Nat.eqb_refl.
  destruct (nth_error (chunksOf d) i) as [c|] eqn:E.
  - eexists. split; [reflexivity|discriminate].
  - apply nth_error_None in E. lia.
Qed.

Lemma forallb_isFinished ws :
  forallb isFinished ws = true -> forall wk, In wk ws -> wk = Finished.
Proof.
  intros H wk Hin. rewrite forallb_forall in H. specialize (H wk Hin).
  now destruct wk.
Qed.

Lemma reported_updateProgress st p m w :
  snd (updateProgress st p m w)
  = mkWorld (db w) (tick w) (reported w ++ [mkProgress st (mathMin 100 (mathMax 0 p)) m]).
Proof. reflexivity. Qed.

(** A worker resuming with an embedding keeps the invariant. *)
Lemma invariant_embedded n db0 j k i v :
  invariant n db0 j ->
  nth_error (workers j) k = Some (Awaiting i) ->
  invariant n db0 (afterEmbedded j k i v).
Proof.
  intros [Hn Hws Hcov Hdrain Hpend Hful Hrej Hstore Hout] Hk.
  destruct (updateAt_split k (fun _ => fst (nextTurn (queue j))) (workers j) _ Hk)
    as (pre & post & Hsplit & Hupd & _).
  assert (Hsettled : settled j <> Some (Ok tt)).
  { intros H. specialize (Hful H (Awaiting i)). rewrite Hsplit in Hful.
    assert (Awaiting i = Finished) by (apply Hful, in_elt). discriminate. }
  unfold afterEmbedded. constructor; cbn [world document queue workers settled outcome].
  - now rewrite chunksOf_assignEmbedding, length_updateAt.
  - rewrite Hupd. now destruct pre.
  - intros i' Hi'. rewrite Hupd.
    destruct (Hcov i' Hi') as [Hq|[Hw|[(c & Hc & He)|(e & He)]]].
    + destruct (queue j) as [|h q']; [contradiction|]. cbn [nextTurn fst snd].
      destruct Hq as [<-|Hq]; [right; left; apply in_elt|now left].
    + rewrite Hsplit in Hw. apply in_app_or in Hw.
      destruct Hw as [Hw|[Hw|Hw]].
      * right; left. apply in_or_app. now left.
      * inversion Hw; subst i'. right; right; left.
        apply embedded_assigned. now rewrite Hn.
      * right; left. apply in_or_app. right. now right.
    + right; right; left. eapply embedded_kept; eassumption.
    + right; right; right. exists e. rewrite Hsplit in He.
      apply in_app_or in He. destruct He as [He|[He|He]]; [|discriminate|].
      * apply in_or_app. now left.
      * apply in_or_app. right. now right.
  - rewrite Hupd. intros Hfin.
    destruct (queue j) as [|h q'] eqn:Hq; [reflexivity|]. cbn [nextTurn fst snd] in *.
    assert (In Finished (workers j)).
    { rewrite Hsplit. apply in_app_or in Hfin.
      destruct Hfin as [H|[H|H]]; [|discriminate|].
      - apply in_or_app. now left.
      - apply in_or_app. right. now right. }
    specialize (Hdrain H). discriminate.
  - destruct (settled j) as [r|] eqn:Hs; cbn [settle]; [discriminate|].
    destruct (forallb isFinished (updateAt k (fun _ => fst (nextTurn (queue j))) (workers j)))
      eqn:Hall; [discriminate|].
    intros _. split; [reflexivity|]. intros e He. rewrite Hupd in He.
    destruct (Hpend eq_refl) as [_ Hnone]. apply (Hnone e). rewrite Hsplit.
    apply in_app_or in He. destruct He as [He|[He|He]].
    + apply in_or_app. now left.
    + destruct (queue j); discriminate.
    + apply in_or_app. right. now right.
  - destruct (settled j) as [r|] eqn:Hs; cbn [settle].
    + intros H. congruence.
    + match goal with
      | |- context [forallb isFinished ?ws] =>
          destruct (forallb isFinished ws) eqn:Hall; [|discriminate]
      end.
      intros _. now apply forallb_isFinished.
  - intros e0. destruct (settled j) as [r|] eqn:Hs; cbn [settle].
    + intros H. inversion H; subst r. specialize (Hrej e0 eq_refl).
      rewrite Hupd. rewrite Hsplit in Hrej.
      apply in_app_or in Hrej. destruct Hrej as [He|[He|He]]; [|discriminate|].
      * apply in_or_app. now left.
      * apply in_or_app. right. now right.
    + match goal with
      | |- context [forallb isFinished ?ws] =>
          destruct (forallb isFinished ws); discriminate
      end.
  - rewrite reported_updateProgress. cbn [db].
    destruct Hstore as [Hdb|Hs]; [now left|contradiction].
  - destruct (outcome j) as [[d|e]|]; [|  |exact I].
    + destruct Hout as [Hs _]. contradiction.
    + destruct Hout as (Hev & Hsome & Hsame). rewrite reported_updateProgress.
      cbn [reported]. split; [apply in_or_app; now left|].
      destruct (settled j) as [r|] eqn:Hs; [|congruence]. cbn [settle].
      split; [discriminate|]. intros e0 H. inversion H; subst r. now apply Hsame.
Qed.

(** A worker resuming with an exception keeps the invariant. *)
Lemma invariant_rejected n db0 j k i e :
  invariant n db0 j ->
  nth_error (workers j) k = Some (Awaiting i) ->
  invariant n db0 (afterRejected j k e).
Proof.
  intros [Hn Hws Hcov Hdrain Hpend Hful Hrej Hstore Hout] Hk.
  destruct (updateAt_split k (fun _ => Rejected e) (workers j) _ Hk)
    as (pre & post & Hsplit & Hupd & _).
  assert (Hsettled : settled j <> Some (Ok tt)).
  { intros H. specialize (Hful H (Awaiting i)). rewrite Hsplit in Hful.
    assert (Awaiting i = Finished) by (apply Hful, in_elt). discriminate. }
  unfold afterRejected. constructor; cbn [world document queue workers settled outcome].
  - exact Hn.
  - rewrite Hupd. now destruct pre.
  - intros i' Hi'. right; right; right. exists e. rewrite Hupd. apply in_elt.
  - rewrite Hupd. intros Hfin. apply Hdrain. rewrite Hsplit.
    apply in_app_or in Hfin. destruct Hfin as [H|[H|H]]; [|discriminate|].
    + apply in_or_app. now left.
    + apply in_or_app. right. now right.
  - destruct (settled j); discriminate.
  - destruct (settled j) as [r|] eqn:Hs; cbn [settle]; [congruence|discriminate].
  - intros e0. destruct (settled j) as [r|] eqn:Hs; cbn [settle]; intros H;
      inversion H; subst; rewrite Hupd.
    + specialize (Hrej e0 eq_refl). rewrite Hsplit in Hrej.
      apply in_app_or in Hrej. destruct Hrej as [He|[He|He]]; [|discriminate|].
      * apply in_or_app. now left.
      * apply in_or_app. right. now right.
    + apply in_elt.
  - destruct Hstore as [Hdb|Hs]; [now left|contradiction].
  - destruct (outcome j) as [[d|e1]|]; [|  |exact I].
    + destruct Hout as [Hs _]. contradiction.
    + destruct Hout as (Hev & Hsome & Hsame). split; [exact Hev|].
      destruct (settled j) as [r|] eqn:Hs; [|congruence]. cbn [settle].
      split; [discriminate|]. intros e0 H. inversion H; subst r. now apply Hsame.
Qed.

Lemma fail_spec e w :
  Rag.fail e w
  = (Throw e, mkWorld (db w) (tick w) (reported w ++ [errorEvent e])).
Proof. reflexivity. Qed.

Lemma persist_spec d w :
  tryCatch (persist d) Rag.fail w
  = match db w with
    | Some _ =>
        (Ok d, snd (tryCatch (persist d) Rag.fail w))
    | None =>
        let e := JsError (units "Storage not initialized. Call initialize() first.") in
        (Throw e,
         mkWorld None (tick w)
                 ((reported w
                     ++ [mkProgress indexing 95 (units "Saving to local index...")])
                    ++ [errorEvent e]))
    end.
Proof.
  unfold tryCatch, persist, saveDocument, bind, ensureDB, bind, getDB, ret, setDB,
    updateProgress, throw. cbn [db tick reported].
  destruct (db w) eqn:E; cbn [fst snd]; [reflexivity|].
  cbv zeta. rewrite fail_spec. cbn [db tick reported]. reflexivity.
Qed.

(** [processDocument] resuming from the join keeps the invariant. *)
Lemma invariant_joined n db0 j r :
  invariant n db0 j ->
  settled j = Some r ->
  outcome j = None ->
  invariant n db0 (afterJoin j r).
Proof.
  intros [Hn Hws Hcov Hdrain Hpend Hful Hrej Hstore Hout] Hs Hnone.
  unfold afterJoin.
  constructor; cbn [world document queue workers settled outcome]; try assumption.
  - destruct r as [[]|e].
    + now right.
    + rewrite fail_spec. cbn [snd db].
      destruct Hstore as [Hdb|Hok]; [now left|congruence].
  - destruct r as [[]|e].
    + rewrite persist_spec. destruct (db (world j)); cbn [fst snd].
      * split; [assumption|reflexivity].
      * cbn [reported]. split; [apply in_or_app; right; now left|].
        split; [congruence|]. intros e0 H. congruence.
    + rewrite fail_spec. cbn [fst snd reported].
      split; [apply in_or_app; right; now left|].
      split; [congruence|]. intros e0 H. congruence.
Qed.

Lemma startWorkers_spec k :
  forall pending, k <= length pending ->
    startWorkers k pending = (map Awaiting (firstn k pending), skipn k pending).
Proof.
  induction k as [|k IH]; intros pending Hk; [reflexivity|].
  destruct pending as [|i pending]; [simpl in Hk; lia|].
  cbn [startWorkers nextTurn fst snd]. rewrite IH by (simpl in Hk; lia).
  reflexivity.
Qed.

Lemma firstn_seq k : forall start len,
  firstn k (seq start len) = seq start (Nat.min k len).
Proof.
  induction k as [|k IH]; intros start [|len]; simpl; try reflexivity.
  now rewrite IH.
Qed.

Lemma embeddingJob_spec d w :
  let n := length (chunksOf d) in
  let k := Nat.min CONCURRENCY_LIMIT n in
  0 < n ->
  embeddingJob d w
  = mkJob w d (seq k (n - k)) (map Awaiting (seq 0 k)) 0 None None.
Proof.
  intros n k Hn. unfold embeddingJob. fold n. fold k.
  rewrite startWorkers_spec by (rewrite length_seq; subst k; lia).
  cbn [fst snd]. rewrite firstn_seq, skipn_seq.
  replace (Nat.min k n) with k by (subst k; lia).
  destruct k as [|k'] eqn:Hk; [unfold CONCURRENCY_LIMIT in *; subst k; lia|].
  reflexivity.
Qed.

Lemma invariant_start d w :
  0 < length (chunksOf d) ->
  invariant (length (chunksOf d)) (db w) (embeddingJob d w).
Proof.
  intros Hn. rewrite embeddingJob_spec by assumption.
  set (n := length (chunksOf d)) in *. set (k := Nat.min CONCURRENCY_LIMIT n).
  assert (Hk : 0 < k <= n) by (unfold CONCURRENCY_LIMIT in *; subst k; lia).
  constructor; cbn [world document queue workers settled outcome];
    try discriminate; try exact I.
  - reflexivity.
  - destruct k; [lia|discriminate].
  - intros i Hi. destruct (Nat.lt_ge_cases i k).
    + right; left. apply in_map, in_seq. lia.
    + left. apply in_seq. lia.
  - intros H. apply in_map_iff in H. destruct H as (? & ? & _). discriminate.
  - intros _. split.
    + destruct k; [lia|reflexivity].
    + intros e H. apply in_map_iff in H. destruct H as (? & ? & _). discriminate.
  - now left.
Qed.

Lemma invariant_step n db0 j j' :
  invariant n db0 j -> step j j' -> invariant n db0 j'.
Proof.
  intros Hinv Hstep. destruct Hstep.
  - eapply invariant_embedded; eassumption.
  - eapply invariant_rejected; eassumption.
  - now apply invariant_joined.
Qed.

Lemma invariant_steps n db0 j j' :
  invariant n db0 j -> steps j j' -> invariant n db0 j'.
Proof.
  intros Hinv Hsteps.
  induction Hsteps as [j|j1 j2 j3 H12 IH H23]; [assumption|].
  apply (invariant_step n db0 j2 j3); [now apply IH|assumption].
Qed.

(** When the join is fulfilled every chunk carries an embedding. *)
Lemma invariant_all_embedded n db0 j :
  invariant n db0 j -> settled j = Some (Ok tt) ->
  Forall embedded (chunksOf (document j)).
Proof.
  intros [Hn Hws Hcov Hdrain Hpend Hful Hrej Hstore Hout] Hs.
  specialize (Hful Hs).
  assert (Hq : queue j = []).
  { apply Hdrain. destruct (workers j) as [|wk ws]; [congruence|].
    rewrite (Hful wk (or_introl eq_refl)). now left. }
  apply Forall_forall. intros c Hc.
  apply In_nth_error in Hc. destruct Hc as [i Hi].
  assert (Hlt : i < n).
  { rewrite <- Hn. apply nth_error_Some. congruence. }
  destruct (Hcov i Hlt) as [H|[H|[(c' & Hc' & He)|(e & H)]]].
  - rewrite Hq in H. contradiction.
  - apply Hful in H. discriminate.
  - congruence.
  - apply Hful in H. discriminate.
Qed.

Lemma length_filter_elt {A} (p : A -> bool) pre x post :
  length (filter p (pre ++ x :: post))
  = length (filter p pre) + (if p x then 1 else 0) + length (filter p post).
Proof.
  rewrite filter_app, length_app. simpl. destruct (p x); simpl; lia.
Qed.

(** Every step uses up one unit of what remains. *)
Lemma step_remaining j j' : step j j' -> S (remaining j') = remaining j.
Proof.
  intros Hstep. destruct Hstep as [j k i v Hk|j k i e Hk|j r Hs Hnone].
  - destruct (updateAt_split k (fun _ => fst (nextTurn (queue j))) (workers j) _ Hk)
      as (pre & post & Hsplit & Hupd & _).
    unfold remaining, afterEmbedded. cbn [queue workers outcome].
    rewrite Hupd, Hsplit, !length_filter_elt.
    destruct (queue j); simpl; lia.
  - destruct (updateAt_split k (fun _ => Rejected e) (workers j) _ Hk)
      as (pre & post & Hsplit & Hupd & _).
    unfold remaining, afterRejected. cbn [queue workers outcome].
    rewrite Hupd, Hsplit, !length_filter_elt. simpl. lia.
  - unfold remaining, afterJoin. cbn [queue workers outcome]. rewrite Hnone. lia.
Qed.

(** Until [processDocument] has returned or thrown, a step is possible. *)
Lemma invariant_progress n db0 j :
  invariant n db0 j -> outcome j = None -> exists j', step j j'.
Proof.
  intros [Hn Hws Hcov Hdrain Hpend Hful Hrej Hstore Hout] Hnone.
  destruct (settled j) as [r|] eqn:Hs.
  - eexists. now apply step_joined with (r := r).
  - destruct (Hpend eq_refl) as [Hall Hrejected].
    assert (Hex : exists wk, In wk (workers j) /\ isFinished wk = false).
    { clear -Hall. induction (workers j) as [|wk ws IH]; [discriminate|].
      simpl in Hall. destruct (isFinished wk) eqn:E.
      - destruct (IH Hall) as (x & Hx & Hf). exists x. split; [now right|assumption].
      - exists wk. split; [now left|assumption]. }
    destruct Hex as (wk & Hin & Hf).
    destruct wk as [i| |e]; [|discriminate|now apply Hrejected in Hin].
    apply In_nth_error in Hin. destruct Hin as [k Hk].
    exists (afterEmbedded j k i []). now apply step_embedded.
Qed.

End JobFacts.

(** ** The embedding calls of a run *)

Section CallFacts.
Import Storage Rag JobSpec.

Lemma count_occ_seq (x len : nat) :
  forall start,
    count_occ Nat.eq_dec (seq start len) x
    = if (start <=? x) && (x <? start + len) then 1 else 0.
Proof.
  induction len as [|len IH]; intros start; cbn [seq count_occ].
  - destruct (Nat.leb_spec start x), (Nat.ltb_spec x (start + 0)); cbn; lia.
  - rewrite IH. destruct (Nat.eq_dec start x) as [->|Hne].
    + destruct (Nat.leb_spec (S x) x), (Nat.leb_spec x x),
        (Nat.ltb_spec x (x + S len)); cbn; lia.
    + destruct (Nat.leb_spec (S start) x), (Nat.leb_spec start x),
        (Nat.ltb_spec x (S start + len)), (Nat.ltb_spec x (start + S len));
        cbn; lia.
Qed.

Lemma awaited_map_Awaiting l : awaited (map Awaiting l) = l.
Proof.
  unfold awaited. induction l as [|i l IH]; cbn; [reflexivity|now f_equal].
Qed.

Lemma awaited_split pre wk post :
  awaited (pre ++ wk :: post) = awaited pre ++ awaited [wk] ++ awaited post.
Proof.
  unfold awaited. rewrite flat_map_app. cbn [flat_map]. now rewrite app_nil_r.
Qed.

Lemma count_occ_In_pos l (x : nat) :
  0 < count_occ Nat.eq_dec l x -> In x l.
Proof. intros H. now apply (count_occ_In Nat.eq_dec). Qed.

Lemma In_awaited i ws : In (Awaiting i) ws -> In i (awaited ws).
Proof.
  intros H. unfold awaited. apply in_flat_map. exists (Awaiting i).
  split; [assumption|now left].
Qed.

Lemma In_updateAt_Rejected {k} {f : worker -> worker} ws i e :
  nth_error ws k = Some (Awaiting i) ->
  In (Rejected e) ws -> In (Rejected e) (updateAt k f ws).
Proof.
  intros Hk Hin.
  destruct (updateAt_split k f ws _ Hk) as (pre & post & Hsplit & Hupd & _).
  rewrite Hupd. rewrite Hsplit in Hin.
  apply in_app_or in Hin. apply in_or_app.
  destruct Hin as [Hin|[Hin|Hin]]; [now left|discriminate|right; now right].
Qed.

Lemma map_content_updateAt i v cs :
  map content (updateAt i (fun chunk => setEmbedding chunk v) cs) = map content cs.
Proof.
  destruct (nth_error cs i) as [c|] eqn:E.
  - destruct (updateAt_split i (fun chunk => setEmbedding chunk v) cs c E)
      as (pre & post & -> & -> & _).
    rewrite !map_app. reflexivity.
  - now rewrite updateAt_beyond.
Qed.

Lemma recorded_start d w :
  0 < length (chunksOf d) ->
  recorded (length (chunksOf d)) d [] (embeddingJob d w).
Proof.
  intros Hn. rewrite embeddingJob_spec by assumption.
  set (n := length (chunksOf d)) in *. set (k := Nat.min CONCURRENCY_LIMIT n).
  constructor; cbn [document workers queue map]; try contradiction.
  - reflexivity.
  - intros x. rewrite awaited_map_Awaiting, !count_occ_seq. cbn [count_occ].
    destruct (Nat.leb_spec 0 x), (Nat.ltb_spec x (0 + k)), (Nat.leb_spec k x),
      (Nat.ltb_spec x (k + (n - k))), (Nat.ltb_spec x n); cbn; subst k; lia.
Qed.

Lemma recorded_bound n d calls j i :
  recorded n d calls j -> In (Awaiting i) (workers j) -> i < n.
Proof.
  intros Hrec Hin. pose proof (rec_once _ _ _ _ Hrec i) as Hi.
  apply In_awaited, (count_occ_In Nat.eq_dec) in Hin.
  destruct (Nat.ltb_spec i n); [assumption|lia].
Qed.

Lemma recorded_embedded n d calls j k i c v :
  recorded n d calls j ->
  nth_error (workers j) k = Some (Awaiting i) ->
  nth_error (chunksOf (document j)) i = Some c ->
  recorded n d (calls ++ [mkCall i (content c) (Ok v)]) (afterEmbedded j k i v).
Proof.
  intros [Hcontent Honce Hans Hrej] Hk Hc.
  destruct (updateAt_split k (fun _ => fst (nextTurn (queue j))) (workers j) _ Hk)
    as (pre & post & Hsplit & Hupd & _).
  assert (Hfresh : count_occ Nat.eq_dec (map asked calls) i = 0).
  { specialize (Honce i). rewrite Hsplit, awaited_split, !count_occ_app in Honce.
    cbn [awaited flat_map app count_occ] in Honce.
    destruct (Nat.eq_dec i i); [|congruence]. destruct (i <? n); lia. }
  constructor; cbn [afterEmbedded document workers queue].
  - now rewrite chunksOf_assignEmbedding, map_content_updateAt.
  - intros x. specialize (Honce x).
    rewrite Hupd, map_app, awaited_split, !count_occ_app.
    rewrite Hsplit, awaited_split, !count_occ_app in Honce.
    cbn [map asked awaited flat_map app count_occ] in Honce |- *.
    destruct (queue j) as [|i' rest]; cbn [nextTurn fst snd flat_map app count_occ] in *;
      repeat match goal with
             | |- context [Nat.eq_dec ?a ?b] => destruct (Nat.eq_dec a b)
             | H : context [Nat.eq_dec ?a ?b] |- _ => destruct (Nat.eq_dec a b)
             end; lia.
  - intros i0 text v0 Hin. apply in_app_or in Hin. destruct Hin as [Hin|[Heq|[]]].
    + destruct (Hans i0 text v0 Hin) as (c0 & c' & Hc0 & Htext & Hc' & Hsame & Hemb).
      assert (Hne : i0 <> i).
      { intros ->. apply (in_map asked) in Hin. cbn [asked] in Hin.
        apply (count_occ_In Nat.eq_dec) in Hin. lia. }
      exists c0, c'. split; [assumption|]. split; [assumption|]. split.
      { rewrite chunksOf_assignEmbedding, nth_error_updateAt.
        destruct (Nat.eqb_spec i0 i); [contradiction|assumption]. }
      split; assumption.
    + inversion Heq; subst i0 text v0.
      assert (Hd : exists c0, nth_error (chunksOf d) i = Some c0 /\ content c0 = content c).
      { apply (f_equal (fun l => nth_error l i)) in Hcontent.
        rewrite !nth_error_map, Hc in Hcontent. cbn in Hcontent.
        destruct (nth_error (chunksOf d) i) as [c0|]; [|discriminate].
        exists c0. split; [reflexivity|]. cbn in Hcontent. congruence. }
      destruct Hd as (c0 & Hc0 & Hsame).
      exists c0, (setEmbedding c v).
      split; [assumption|]. split; [now symmetry|]. split.
      { rewrite chunksOf_assignEmbedding, nth_error_updateAt, Nat.eqb_refl, Hc.
        reflexivity. }
      split; [cbn; now symmetry|reflexivity].
  - intros i0 text e Hin. apply in_app_or in Hin. destruct Hin as [Hin|[Heq|[]]].
    + now apply (In_updateAt_Rejected _ i), (Hrej i0 text).
    + discriminate.
Qed.

Lemma recorded_rejected n d calls j k i c e :
  recorded n d calls j ->
  nth_error (workers j) k = Some (Awaiting i) ->
  nth_error (chunksOf (document j)) i = Some c ->
  recorded n d (calls ++ [mkCall i (content c) (Throw e)]) (afterRejected j k e).
Proof.
  intros [Hcontent Honce Hans Hrej] Hk Hc.
  destruct (updateAt_split k (fun _ => Rejected e) (workers j) _ Hk)
    as (pre & post & Hsplit & Hupd & _).
  constructor; cbn [afterRejected document workers queue].
  - assumption.
  - intros x. specialize (Honce x).
    rewrite Hupd, map_app, awaited_split, !count_occ_app.
    rewrite Hsplit, awaited_split, !count_occ_app in Honce.
    cbn [map asked awaited flat_map app count_occ] in Honce |- *.
    destruct (Nat.eq_dec i x); lia.
  - intros i0 text v0 Hin. apply in_app_or in Hin. destruct Hin as [Hin|[Heq|[]]].
    + now apply Hans.
    + discriminate.
  - intros i0 text e0 Hin. apply in_app_or in Hin. destruct Hin as [Hin|[Heq|[]]].
    + now apply (In_updateAt_Rejected _ i), (Hrej i0 text).
    + inversion Heq; subst. rewrite Hupd. apply in_or_app. right. now left.
Qed.

Lemma recorded_run n d calls j0 j :
  run j0 calls j -> recorded n d [] j0 -> recorded n d calls j.
Proof.
  induction 1 as [j|j0 calls j k i c v Hrun IH Hk Hc|j0 calls j k i c e Hrun IH Hk Hc
                  |j0 calls j r Hrun IH Hs Hout]; intros Hstart.
  - assumption.
  - now apply recorded_embedded; [apply IH| |].
  - now apply recorded_rejected; [apply IH| |].
  - destruct (IH Hstart) as [Hcontent Honce Hans Hrej]. now constructor.
Qed.

Lemma run_steps j0 calls j : run j0 calls j -> steps j0 j.
Proof.
  induction 1 as [j|j0 calls j k i c v Hrun IH Hk Hc|j0 calls j k i c e Hrun IH Hk Hc
                  |j0 calls j r Hrun IH Hs Hout].
  - apply steps_refl.
  - apply steps_next with (j2 := j); [assumption|now apply step_embedded].
  - apply steps_next with (j2 := j); [assumption|now apply step_rejected with (i := i)].
  - apply steps_next with (j2 := j); [assumption|now apply step_joined].
Qed.

(** Every run of the stage is a run with its calls recorded. *)
Lemma steps_run n d j0 j :
  recorded n d [] j0 -> n = length (chunksOf d) ->
  steps j0 j -> exists calls, run j0 calls j.
Proof.
  intros Hstart Hn. induction 1 as [j|j1 j2 j3 H12 IH H23].
  - exists []. apply run_start.
  - destruct (IH Hstart) as (calls & Hrun).
    pose proof (recorded_run n d _ _ _ Hrun Hstart) as Hrec.
    destruct H23 as [j k i v Hk|j k i e Hk|j r Hs Hout].
    + assert (Hc : exists c, nth_error (chunksOf (document j)) i = Some c).
      { pose proof (recorded_bound _ _ _ _ i Hrec (nth_error_In _ _ Hk)) as Hi.
        pose proof (f_equal (@length _) (rec_content _ _ _ _ Hrec)) as Hlen.
        rewrite !length_map in Hlen.
        destruct (nth_error (chunksOf (document j)) i) eqn:E; [now eexists|].
        apply nth_error_None in E. lia. }
      destruct Hc as (c & Hc). exists (calls ++ [mkCall i (content c) (Ok v)]).
      now apply run_embedded.
    + assert (Hc : exists c, nth_error (chunksOf (document j)) i = Some c).
      { pose proof (recorded_bound _ _ _ _ i Hrec (nth_error_In _ _ Hk)) as Hi.
        pose proof (f_equal (@length _) (rec_content _ _ _ _ Hrec)) as Hlen.
        rewrite !length_map in Hlen.
        destruct (nth_error (chunksOf (document j)) i) eqn:E; [now eexists|].
        apply nth_error_None in E. lia. }
      destruct Hc as (c & Hc). exists (calls ++ [mkCall i (content c) (Throw e)]).
      now apply run_rejected.
    + exists calls. now apply run_joined.
Qed.

Lemma recorded_NoDup n d calls j : recorded n d calls j -> NoDup (map asked calls).
Proof.
  intros Hrec. apply (NoDup_count_occ Nat.eq_dec). intros x.
  pose proof (rec_once _ _ _ _ Hrec x). destruct (x <? n); lia.
Qed.

(** When the join is fulfilled, every chunk carries the vector its call
    returned, and that call was made on the chunk's text. *)
Lemma recorded_fulfilled n d calls j i c' :
  recorded n d calls j -> n = length (chunksOf d) ->
  (forall wk, In wk (workers j) -> wk = Finished) -> queue j = [] ->
  nth_error (chunksOf (document j)) i = Some c' ->
  exists v, In (mkCall i (content c') (Ok v)) calls /\ embedding c' = Some v.
Proof.
  intros Hrec Hn Hall Hq Hc'.
  assert (Hi : i < n).
  { pose proof (f_equal (@length _) (rec_content _ _ _ _ Hrec)) as Hlen.
    rewrite !length_map in Hlen. rewrite Hn, <- Hlen.
    apply nth_error_Some. congruence. }
  assert (Hnone : awaited (workers j) = []).
  { clear -Hall. induction (workers j) as [|wk ws IH]; [reflexivity|].
    rewrite (Hall wk (or_introl eq_refl)). cbn. apply IH.
    intros x Hx. apply Hall. now right. }
  pose proof (rec_once _ _ _ _ Hrec i) as Hcount.
  rewrite Hnone, Hq in Hcount. cbn [count_occ] in Hcount.
  destruct (Nat.ltb_spec i n); [|lia].
  assert (Hin : In i (map asked calls)) by (apply (count_occ_In Nat.eq_dec); lia).
  apply in_map_iff in Hin. destruct Hin as ([i0 text [v|e]] & Hasked & Hin);
    cbn [asked] in Hasked; subst i0.
  - destruct (rec_answered _ _ _ _ Hrec i text v Hin)
      as (c0 & c1 & Hc0 & Htext & Hc1 & Hsame & Hemb).
    rewrite Hc' in Hc1. inversion Hc1; subst c1.
    exists v. split; [|assumption]. now rewrite Hsame, <- Htext.
  - apply (rec_rejected _ _ _ _ Hrec) in Hin. apply Hall in Hin. discriminate.
Qed.

End CallFacts.

Section IngestionClaims.
Import Storage Rag JobSpec.

Lemma sameStore_bind {A B} (m : M A) (k : A -> M B) :
  sameStore m -> (forall a, sameStore (k a)) -> sameStore (bind m k).
Proof.
  intros Hm Hk w. unfold bind. specialize (Hm w).
  destruct (m w) as [[a|e] w1]; cbn [snd] in *; [now rewrite Hk|assumption].
Qed.

Lemma sameStore_tryCatch {A} (m : M A) (h : thrown -> M A) :
  sameStore m -> (forall e, sameStore (h e)) -> sameStore (tryCatch m h).
Proof.
  intros Hm Hh w. unfold tryCatch. specialize (Hm w).
  destruct (m w) as [[a|e] w1]; cbn [snd] in *; [assumption|now rewrite Hh].
Qed.

Ltac same :=
  repeat first
    [ solve [intros ?; reflexivity]
    | apply sameStore_bind; [|intros ?; cbv beta]
    | apply sameStore_tryCatch; [|intros ?; cbv beta] ].

Lemma sameStore_processDocument generateId clock detect extract file :
  sameStore (DocumentProcessor.processDocument generateId clock detect extract file).
Proof.
  unfold DocumentProcessor.processDocument. same.
  unfold DocumentProcessor.extraction.
  match goal with |- sameStore (match ?t with _ => _ end) => destruct t end; same.
Qed.

(** [processDocument] reaches the embedding stage on a document with chunks,
    the store untouched. *)
Lemma processDocument_embedding clock documentIdOf detect extract file w j0 :
  processDocument clock documentIdOf detect extract file w = Embedding j0 ->
  exists d w1,
    j0 = embeddingJob d w1 /\ 0 < length (chunksOf d) /\ db w1 = db w.
Proof.
  unfold processDocument.
  match goal with |- context [match ?m w with _ => _ end] =>
    assert (Hsame : sameStore m)
      by (apply sameStore_bind; [same|intros ?];
          apply sameStore_bind; [apply sameStore_processDocument|intros ?];
          same);
    specialize (Hsame w); destruct (m w) as [[d|e] w1]
  end; [|discriminate].
  cbn [snd] in Hsame.
  destruct (Nat.ltb_spec 0 (length (chunksOf d))) as [Hpos|Hzero]; [|discriminate].
  intros Heq. inversion Heq. now exists d, w1.
Qed.

(** C6.  On a non-empty chunk list the stage starts [min(5, n)] workers, the
    first chunks handed out in order and the rest queued in order.  However
    the embedding calls are answered, every step uses up one of the [n + 1]
    units of work, a step is possible until [processDocument] has ended, and
    once the join is fulfilled (and when the document is returned) every
    chunk carries an embedding.  That embedding is the vector returned by the
    chunk's own call: no chunk is asked for twice, every call is made on the
    text of its chunk, a chunk whose call returned a vector carries that
    vector, and once the join is fulfilled every chunk carries the vector
    with which the call on its text was answered; so when the calls were
    answered by an embedding function, every chunk carries the value of that
    function on its text. *)
Theorem embedding_stage_embeds_every_chunk (d : Document) (w : World) :
  0 < length (chunksOf d) ->
  let n := length (chunksOf d) in
  let j0 := embeddingJob d w in
  length (workers j0) = Nat.min CONCURRENCY_LIMIT n
  /\ workers j0 = map Awaiting (seq 0 (Nat.min CONCURRENCY_LIMIT n))
  /\ queue j0 = seq (Nat.min CONCURRENCY_LIMIT n) (n - Nat.min CONCURRENCY_LIMIT n)
  /\ remaining j0 = S n
  /\ (forall j, steps j0 j ->
       (settled j = Some (Ok tt) ->
        Forall embedded (chunksOf (document j)) /\ length (chunksOf (document j)) = n)
       /\ (forall d', outcome j = Some (Ok d') ->
           Forall embedded (chunksOf d') /\ length (chunksOf d') = n)
       /\ (outcome j = None -> exists j', step j j')
       /\ (forall j', step j j' -> S (remaining j') = remaining j))
  /\ (forall j, steps j0 j -> exists calls, run j0 calls j)
  /\ forall calls j, run j0 calls j ->
       steps j0 j
       /\ NoDup (map asked calls)
       /\ (forall i text v, In (mkCall i text (Ok v)) calls ->
           exists c c',
             nth_error (chunksOf d) i = Some c /\ text = content c
             /\ nth_error (chunksOf (document j)) i = Some c'
             /\ content c' = content c /\ embedding c' = Some v)
       /\ (settled j = Some (Ok tt) ->
           forall i c', nth_error (chunksOf (document j)) i = Some c' ->
             exists v, In (mkCall i (content c') (Ok v)) calls
                       /\ embedding c' = Some v)
       /\ (settled j = Some (Ok tt) ->
           forall generateEmbedding : str -> result (list float),
             (forall asking, In asking calls ->
                answered asking = generateEmbedding (askedText asking)) ->
             Forall (fun c' => exists v, generateEmbedding (content c') = Ok v
                                         /\ embedding c' = Some v)
                    (chunksOf (document j))).
Proof.
  intros Hn n j0.
  pose proof (invariant_start d w Hn) as Hinv. fold n j0 in Hinv.
  assert (Hj0 : j0 = mkJob w d (seq (Nat.min CONCURRENCY_LIMIT n)
                                    (n - Nat.min CONCURRENCY_LIMIT n))
                           (map Awaiting (seq 0 (Nat.min CONCURRENCY_LIMIT n)))
                           0 None None)
    by (apply embeddingJob_spec; assumption).
  split; [rewrite Hj0; cbn [workers]; now rewrite length_map, length_seq|].
  split; [now rewrite Hj0|]. split; [now rewrite Hj0|]. split; [|split; [|split]].
  - rewrite Hj0. unfold remaining. cbn [queue workers outcome].
    rewrite length_seq.
    assert (Hall : forall l, filter isAwaiting (map Awaiting l) = map Awaiting l).
    { induction l as [|x l IH]; simpl; [reflexivity|now rewrite IH]. }
    rewrite Hall, length_map, length_seq. unfold CONCURRENCY_LIMIT. lia.
  - intros j Hsteps.
    pose proof (invariant_steps _ _ _ _ Hinv Hsteps) as Hj.
    split; [|split; [|split]].
    + intros Hs. split; [now apply (invariant_all_embedded n (db w))|apply Hj].
    + intros d' Hd'. pose proof (inv_outcome _ _ _ Hj) as Hout.
      rewrite Hd' in Hout. destruct Hout as [Hs ->].
      split; [now apply (invariant_all_embedded n (db w))|apply Hj].
    + now apply (invariant_progress n (db w)).
    + intros j'. apply step_remaining.
  - intros j Hsteps.
    exact (steps_run n d j0 j (recorded_start d w Hn) eq_refl Hsteps).
  - intros calls j Hrun.
    pose proof (run_steps _ _ _ Hrun) as Hsteps.
    pose proof (recorded_run n d _ _ _ Hrun (recorded_start d w Hn)) as Hrec.
    pose proof (invariant_steps _ _ _ _ Hinv Hsteps) as Hj.
    split; [exact Hsteps|]. split; [exact (recorded_NoDup _ _ _ _ Hrec)|].
    split; [exact (rec_answered _ _ _ _ Hrec)|].
    assert (Hlast : settled j = Some (Ok tt) ->
                    forall i c', nth_error (chunksOf (document j)) i = Some c' ->
                      exists v, In (mkCall i (content c') (Ok v)) calls
                                /\ embedding c' = Some v).
    { intros Hs i c' Hc'.
      pose proof (inv_fulfilled _ _ _ Hj Hs) as Hall.
      apply (recorded_fulfilled n d calls j i c' Hrec eq_refl Hall); [|exact Hc'].
      apply (inv_drained _ _ _ Hj).
      pose proof (inv_workers _ _ _ Hj) as Hne.
      destruct (workers j) as [|wk ws]; [congruence|].
      rewrite (Hall wk (or_introl eq_refl)). now left. }
    split; [exact Hlast|].
    intros Hs generateEmbedding Hanswers.
    apply Forall_forall. intros c' Hin.
    apply In_nth_error in Hin. destruct Hin as (i & Hc').
    destruct (Hlast Hs i c' Hc') as (v & Hcall & Hemb).
    exists v. split; [|exact Hemb].
    symmetry. exact (Hanswers _ Hcall).
Qed.

(** C7.  Once an embedding call has thrown, the join is rejected with the
    first exception thrown, the store is as it was before the ingestion,
    and [processDocument] ends in no other way than by reporting an error
    event and throwing that exception. *)
Theorem embedding_failure_aborts_ingestion
        (clock : nat -> Z) (documentIdOf : nat -> str)
        (detect : File -> result DocumentType)
        (extract : DocumentType -> File -> result str)
        (file : File) (w : World) (j0 j : job) (e : thrown) :
  processDocument clock documentIdOf detect extract file w = Embedding j0 ->
  steps j0 j ->
  In (Rejected e) (workers j) ->
  exists e0,
    In (Rejected e0) (workers j)
    /\ settled j = Some (Throw e0)
    /\ db (world j) = db w
    /\ match outcome j with
       | Some r => r = Throw e0 /\ In (errorEvent e0) (reported (world j))
       | None =>
           let j' := afterJoin j (Throw e0) in
           step j j' /\ outcome j' = Some (Throw e0)
           /\ In (errorEvent e0) (reported (world j'))
           /\ db (world j') = db w
       end.
Proof.
  intros Hstart Hsteps Hrejected.
  destruct (processDocument_embedding _ _ _ _ _ _ _ Hstart) as (d & w1 & -> & Hn & Hdb).
  pose proof (invariant_steps _ _ _ _ (invariant_start d w1 Hn) Hsteps) as Hj.
  destruct Hj as [_ _ _ _ Hpend Hful Hrej Hstore Hout].
  destruct (settled j) as [[[]|e0]|] eqn:Hs.
  - specialize (Hful eq_refl _ Hrejected). discriminate.
  - exists e0. split; [now apply Hrej|]. split; [reflexivity|].
    assert (Hstore' : db (world j) = db w)
      by (destruct Hstore as [H|H]; [congruence|discriminate]).
    split; [exact Hstore'|].
    destruct (outcome j) as [[d'|e1]|] eqn:Ho.
    + destruct Hout as [H _]. discriminate.
    + destruct Hout as (Hev & _ & Hsame). rewrite (Hsame e0 eq_refl) in *.
      now split.
    + cbv zeta. split; [now apply step_joined|].
      unfold afterJoin. cbn [outcome world]. rewrite fail_spec. cbn [fst snd reported db].
      split; [reflexivity|]. split; [apply in_or_app; right; now left|assumption].
  - destruct (Hpend eq_refl) as [_ Hnone]. now apply Hnone in Hrejected.
Qed.

End IngestionClaims.

Lemma embedding_stage_embeds_every_chunk_witness :
  let d := Rag.document SampleJob.job0 in
  let n := length (Rag.chunksOf d) in
  let j0 := Rag.embeddingJob d SampleJob.emptyWorld in
  n = 3
  /\ length (Rag.workers j0) = Nat.min Rag.CONCURRENCY_LIMIT n
  /\ Rag.workers j0 = map Rag.Awaiting (seq 0 (Nat.min Rag.CONCURRENCY_LIMIT n))
  /\ Rag.queue j0
     = seq (Nat.min Rag.CONCURRENCY_LIMIT n) (n - Nat.min Rag.CONCURRENCY_LIMIT n)
  /\ JobSpec.remaining j0 = S n
  /\ (forall j, Rag.steps j0 j ->
       (Rag.settled j = Some (Ok tt) ->
        Forall JobSpec.embedded (Rag.chunksOf (Rag.document j))
        /\ length (Rag.chunksOf (Rag.document j)) = n)
       /\ (forall d', Rag.outcome j = Some (Ok d') ->
           Forall JobSpec.embedded (Rag.chunksOf d') /\ length (Rag.chunksOf d') = n)
       /\ (Rag.outcome j = None -> exists j', Rag.step j j')
       /\ (forall j', Rag.step j j' -> S (JobSpec.remaining j') = JobSpec.remaining j))
  /\ (forall j, Rag.steps j0 j -> exists calls, Rag.run j0 calls j)
  /\ forall calls j, Rag.run j0 calls j ->
       Rag.steps j0 j
       /\ NoDup (map Rag.asked calls)
       /\ (forall i text v, In (Rag.mkCall i text (Ok v)) calls ->
           exists c c',
             nth_error (Rag.chunksOf d) i = Some c /\ text = content c
             /\ nth_error (Rag.chunksOf (Rag.document j)) i = Some c'
             /\ content c' = content c /\ embedding c' = Some v)
       /\ (Rag.settled j = Some (Ok tt) ->
           forall i c', nth_error (Rag.chunksOf (Rag.document j)) i = Some c' ->
             exists v, In (Rag.mkCall i (content c') (Ok v)) calls
                       /\ embedding c' = Some v)
       /\ (Rag.settled j = Some (Ok tt) ->
           forall generateEmbedding : str -> result (list float),
             (forall asking, In asking calls ->
                Rag.answered asking = generateEmbedding (Rag.askedText asking)) ->
             Forall (fun c' => exists v, generateEmbedding (content c') = Ok v
                                         /\ embedding c' = Some v)
                    (Rag.chunksOf (Rag.document j))).
Proof.
  split; [reflexivity|].
  apply (embedding_stage_embeds_every_chunk (Rag.document SampleJob.job0)
           SampleJob.emptyWorld).
  vm_compute. lia.
Defined.

Lemma embedding_failure_aborts_ingestion_witness :
  let j := Rag.afterRejected SampleJob.job0 1 SampleJob.outOfMemory in
  exists e0,
    In (Rag.Rejected e0) (Rag.workers j)
    /\ Rag.settled j = Some (Throw e0)
    /\ db (Rag.world j) = db SampleJob.emptyWorld
    /\ match Rag.outcome j with
       | Some r => r = Throw e0 /\ In (JobSpec.errorEvent e0) (reported (Rag.world j))
       | None =>
           let j' := Rag.afterJoin j (Throw e0) in
           Rag.step j j' /\ Rag.outcome j' = Some (Throw e0)
           /\ In (JobSpec.errorEvent e0) (reported (Rag.world j'))
           /\ db (Rag.world j') = db SampleJob.emptyWorld
       end.
Proof.
  apply (embedding_failure_aborts_ingestion Z.of_nat Sample.ids SampleJob.detect
           SampleJob.extract SampleJob.file SampleJob.emptyWorld SampleJob.job0
           (Rag.afterRejected SampleJob.job0 1 SampleJob.outOfMemory)
           SampleJob.outOfMemory).
  - vm_compute. reflexivity.
  - apply Rag.steps_next with (j2 := SampleJob.job0); [apply Rag.steps_refl|].
    apply Rag.step_rejected with (i := 1). reflexivity.
  - vm_compute. right. left. reflexivity.
Defined.

(** The sample ingestion, run to its end: three steps of the workers and the
    join; the document is returned and stored with its three chunks, all
    embedded, and the last event reported is [complete]. *)
Example sample_ingestion_completes :
  Rag.steps SampleJob.job0 SampleJob.finished
  /\ Rag.outcome SampleJob.finished = Some (Ok (Rag.document SampleJob.finished))
  /\ map embedding (getAll (chunkStore (SampleJob.storeOf SampleJob.finished)))
     = [Some [1]%float; Some [1]%float; Some [1]%float]
  /\ last (map stage (reported (Rag.world SampleJob.finished))) error = complete.
Proof.
  split.
  - apply Rag.steps_next with (j2 := SampleJob.job3);
      [|apply Rag.step_joined; reflexivity].
    apply Rag.steps_next with (j2 := SampleJob.job2);
      [|apply Rag.step_embedded; reflexivity].
    apply Rag.steps_next with (j2 := SampleJob.job1);
      [|apply Rag.step_embedded; reflexivity].
    apply Rag.steps_next with (j2 := SampleJob.job0);
      [apply Rag.steps_refl|apply Rag.step_embedded; reflexivity].
  - repeat split; vm_compute; reflexivity.
Qed.

(** The chunks of an ingested document name another document than the one
    returned: [processDocument] of the document processor draws one
    identifier for [chunkDocument] and a second one for the document.
    [deleteDocument] on the document's identifier therefore finds no chunk
    of it. *)
Example sample_chunks_name_another_document :
  let d := Rag.document SampleJob.finished in
  doc_id d = Sample.ids 5
  /\ map documentId (Rag.chunksOf d)
     = [Sample.ids 0; Sample.ids 0; Sample.ids 0]
  /\ length (Storage.byDocument (doc_id d)
                (chunkStore (SampleJob.storeOf SampleJob.finished))) = 0.
Proof. repeat split; vm_compute; reflexivity. Qed.

(** * Further properties *)

(** ** The object stores *)

Section StoreFacts.
Import Storage.

Lemma get_put_other {V} (keyOf : V -> str) (k : str) (v : V) (store : objectStore V) :
  k <> keyOf v -> get keyOf k (put keyOf v store) = get keyOf k store.
Proof.
  intros Hk. unfold get.
  assert (Hv : eqb k (keyOf v) = false).
  { destruct (eqb k (keyOf v)) eqn:E; [|reflexivity]. apply eqb_eq in E. contradiction. }
  induction store as [|v' store IH]; simpl.
  - now rewrite Hv.
  - destruct (eqb (keyOf v) (keyOf v')) eqn:E.
    + apply eqb_eq in E. simpl. rewrite Hv, <- E, Hv. reflexivity.
    + destruct (ltb (keyOf v) (keyOf v')); simpl.
      * now rewrite Hv.
      * now rewrite IH.
Qed.

Lemma get_delete_same {V} (keyOf : V -> str) (k : str) (store : objectStore V) :
  get keyOf k (delete keyOf k store) = None.
Proof.
  unfold get, delete. induction store as [|v store IH]; simpl; [reflexivity|].
  destruct (eqb k (keyOf v)) eqn:E; simpl; [assumption|now rewrite E].
Qed.

Lemma get_delete_other {V} (keyOf : V -> str) (k k' : str) (store : objectStore V) :
  k' <> k -> get keyOf k' (delete keyOf k store) = get keyOf k' store.
Proof.
  intros Hk. unfold get, delete. induction store as [|v store IH]; simpl; [reflexivity|].
  destruct (eqb k (keyOf v)) eqn:E; simpl.
  - apply eqb_eq in E. subst k.
    destruct (eqb k' (keyOf v)) eqn:E'; [apply eqb_eq in E'; contradiction|assumption].
  - destruct (eqb k' (keyOf v)); [reflexivity|assumption].
Qed.

Lemma get_None {V} (keyOf : V -> str) (k : str) (store : objectStore V) :
  get keyOf k store = None <-> forall v, In v store -> keyOf v <> k.
Proof.
  unfold get. split.
  - intros H v Hv Heq. apply (find_none _ _ H) in Hv.
    subst k. now rewrite eqb_refl in Hv.
  - intros H. induction store as [|v store IH]; simpl; [reflexivity|].
    destruct (eqb k (keyOf v)) eqn:E.
    + apply eqb_eq in E. exfalso. apply (H v); [now left|congruence].
    + apply IH. intros v' Hv'. apply H. now right.
Qed.

Lemma get_Some {V} (keyOf : V -> str) (k : str) (store : objectStore V) (v : V) :
  get keyOf k store = Some v -> In v store /\ keyOf v = k.
Proof.
  unfold get. intros H. apply find_some in H. destruct H as [Hin Hk].
  apply eqb_eq in Hk. now split.
Qed.

Lemma delete_absent {V} (keyOf : V -> str) (k : str) (store : objectStore V) :
  get keyOf k store = None -> delete keyOf k store = store.
Proof.
  intros H. unfold delete. induction store as [|v store IH]; simpl; [reflexivity|].
  unfold get in H. simpl in H. destruct (eqb k (keyOf v)); [discriminate|].
  simpl. now rewrite IH.
Qed.



End StoreFacts.

(** ** Documents in the store *)

Section DocumentStoreFacts.
Import Storage Notions.

Lemma saveDocument_spec document w d :
  db w = Some d ->
  saveDocument document w
  = (Ok tt,
     mkWorld (Some (mkDB (put doc_id (storedForm document) (documents d))
                         (fold_left (fun store chunk => put id chunk store)
                                    (map toStored (Rag.chunksOf document))
                                    (chunkStore d))
                         (chat_history d)))
             (tick w) (reported w)).
Proof.
  intros Hd. unfold saveDocument, bind, ensureDB, bind, getDB, ret, setDB.
  rewrite Hd. unfold storedForm, Rag.chunksOf.
  destruct (chunks document); reflexivity.
Qed.

Lemma getDocument_spec key w d :
  db w = Some d -> getDocument key w = (Ok (get doc_id key (documents d)), w).
Proof.
  intros Hd. unfold getDocument, bind, ensureDB, bind, getDB, ret. now rewrite Hd.
Qed.




Lemma deleteDocument_spec key w d :
  db w = Some d ->
  deleteDocument key w
  = (Ok tt,
     mkWorld (Some (mkDB (delete doc_id key (documents d))
                         (fold_left (fun store chunk => delete id (id chunk) store)
                                    (byDocument key (chunkStore d)) (chunkStore d))
                         (chat_history d)))
             (tick w) (reported w)).
Proof.
  intros Hd. unfold deleteDocument, bind, ensureDB, bind, getDB, ret, setDB.
  now rewrite Hd.
Qed.

(** X3.  After [deleteDocument(id)], [getDocument(id)] returns [null]; every
    other document reads as before and the chat history is untouched. *)
Theorem deleted_document_is_gone (key : str) (w : World) (d : DB) :
  db w = Some d ->
  exists w' d',
    deleteDocument key w = (Ok tt, w')
    /\ db w' = Some d'
    /\ getDocument key w' = (Ok None, w')
    /\ (forall key', key' <> key ->
          getDocument key' w' = (Ok (get doc_id key' (documents d)), w'))
    /\ chat_history d' = chat_history d.
Proof.
  intros Hd. rewrite (deleteDocument_spec key w d Hd).
  eexists _, _. split; [reflexivity|]. split; [reflexivity|].
  split; [|split; [|reflexivity]].
  - erewrite getDocument_spec by reflexivity. cbn [documents].
    now rewrite get_delete_same.
  - intros key' Hkey. erewrite getDocument_spec by reflexivity. cbn [documents].
    now rewrite get_delete_other.
Qed.

(** X4.  [deleteDocument] on an id that names no stored document and no
    chunk's [documentId] leaves the whole store as it is. *)
Theorem deleting_unknown_document_changes_nothing (key : str) (w : World) (d : DB) :
  db w = Some d ->
  get doc_id key (documents d) = None ->
  (forall chunk, In chunk (chunkStore d) -> documentId chunk <> key) ->
  deleteDocument key w = (Ok tt, mkWorld (Some d) (tick w) (reported w)).
Proof.
  intros Hd Hdoc Hchunks. rewrite (deleteDocument_spec key w d Hd).
  rewrite delete_absent by assumption.
  assert (Hnone : byDocument key (chunkStore d) = []).
  { unfold byDocument, getAll. induction (chunkStore d) as [|c cs IH]; [reflexivity|].
    simpl. destruct (eqb key (documentId c)) eqn:E.
    - apply eqb_eq in E. exfalso. apply (Hchunks c); [now left|congruence].
    - apply IH. intros chunk Hin. apply Hchunks. now right. }
  rewrite Hnone. simpl. now destruct d.
Qed.

End DocumentStoreFacts.

(** ** The chat history *)

Section HistoryFacts.
Import Storage Notions.

Lemma insertByTime_perm m l : Permutation (insertByTime m l) (m :: l).
Proof.
  induction l as [|m' l IH]; simpl; [reflexivity|].
  destruct (0 <? timestamp m - timestamp m')%Z; [|reflexivity].
  rewrite IH. apply perm_swap.
Qed.

Lemma sortByTime_perm l : Permutation (sortByTime l) l.
Proof.
  induction l as [|m l IH]; simpl; [reflexivity|].
  rewrite insertByTime_perm. now constructor.
Qed.

Lemma insertByTime_sorted m l :
  StronglySorted notLater l -> StronglySorted notLater (insertByTime m l).
Proof.
  induction 1 as [|m' l Hl IH Hm']; simpl; [repeat constructor|].
  destruct (Z.ltb_spec 0 (timestamp m - timestamp m')) as [Hlt|Hge].
  - constructor; [assumption|].
    rewrite (insertByTime_perm m l). constructor; [unfold notLater; lia|assumption].
  - constructor; [now constructor|].
    constructor; [unfold notLater; lia|].
    eapply Forall_impl; [|exact Hm']. unfold notLater. intros a Ha. lia.
Qed.

Lemma sortByTime_sorted l : StronglySorted notLater (sortByTime l).
Proof.
  induction l as [|m l IH]; simpl; [constructor|now apply insertByTime_sorted].
Qed.

Lemma getChatHistory_spec limit w d :
  db w = Some d ->
  getChatHistory limit w
  = (Ok (sliceFrom (sortByTime (getAll (chat_history d))) (- limit)), w).
Proof.
  intros Hd. unfold getChatHistory, bind, ensureDB, bind, getDB, ret. now rewrite Hd.
Qed.

(** X5.  [getChatHistory(limit)] returns the tail of the stored messages put
    in ascending order of time: with a positive limit the [limit] latest
    ones (all of them when there are fewer), and with the limit 0 the whole
    history, since [slice(-0)] is [slice(0)]. *)
Theorem chat_history_is_the_latest_in_order (limit : Z) (w : World) (d : DB) :
  db w = Some d ->
  exists older recent,
    getChatHistory limit w = (Ok recent, w)
    /\ Permutation (older ++ recent) (getAll (chat_history d))
    /\ StronglySorted notLater (older ++ recent)
    /\ ((0 < limit)%Z ->
        length recent = Nat.min (Z.to_nat limit) (length (chat_history d)))
    /\ (limit = 0%Z -> older = []).
Proof.
  intros Hd. rewrite (getChatHistory_spec limit w d Hd).
  set (sorted := sortByTime (getAll (chat_history d))).
  assert (Hlen : length sorted = length (chat_history d))
    by (apply Permutation_length, sortByTime_perm).
  unfold sliceFrom.
  destruct (Z.ltb_spec (- limit) 0) as [Hneg|Hpos].
  - set (n := Z.to_nat (Z.of_nat (length sorted) + - limit)).
    exists (firstn n sorted), (skipn n sorted).
    rewrite firstn_skipn. split; [reflexivity|].
    split; [apply sortByTime_perm|]. split; [apply sortByTime_sorted|].
    split; [|lia]. intros _. rewrite length_skipn. subst n. lia.
  - set (n := Z.to_nat (- limit)).
    exists (firstn n sorted), (skipn n sorted).
    rewrite firstn_skipn. split; [reflexivity|].
    split; [apply sortByTime_perm|]. split; [apply sortByTime_sorted|].
    split; [lia|]. intros ->. reflexivity.
Qed.

(** X6.  After [saveChatMessage] the message is in the history that
    [getChatHistory] returns for any limit at least the number of stored
    messages. *)
Theorem saved_message_is_in_history (message : ChatMessage) (limit : Z)
        (w : World) (d : DB) :
  db w = Some d ->
  (Z.of_nat (length (chat_history d)) < limit)%Z ->
  exists w' history,
    saveChatMessage message w = (Ok tt, w')
    /\ getChatHistory limit w' = (Ok history, w')
    /\ In message history.
Proof.
  intros Hd Hlimit.
  unfold saveChatMessage, bind, ensureDB, bind, getDB, ret, setDB. rewrite Hd.
  eexists _, _. split; [reflexivity|].
  erewrite getChatHistory_spec by reflexivity. split; [reflexivity|].
  cbn [chat_history]. unfold getAll.
  set (store := put msg_id message (chat_history d)).
  assert (Hin : In message store).
  { pose proof (get_put msg_id message (chat_history d)) as H.
    apply get_Some in H. apply H. }
  assert (Hlen : length store <= S (length (chat_history d))).
  { subst store. clear. induction (chat_history d) as [|m l IH]; simpl; [lia|].
    destruct (eqb (msg_id message) (msg_id m)); simpl; [lia|].
    destruct (ltb (msg_id message) (msg_id m)); simpl; lia. }
  assert (Hsorted : In message (sortByTime store))
    by (apply (Permutation_in _ (Permutation_sym (sortByTime_perm store))), Hin).
  assert (Hlen' : length (sortByTime store) = length store)
    by apply Permutation_length, sortByTime_perm.
  unfold sliceFrom. destruct (Z.ltb_spec (- limit) 0); [|lia].
  replace (Z.to_nat (Z.of_nat (length (sortByTime store)) + - limit)) with 0 by lia.
  exact Hsorted.
Qed.

(** X7.  [clearChatHistory] empties the history and touches neither the
    documents nor the chunks.  [deleteAllData] leaves no document, chunk or
    chat message behind: the counts are zero and no search finds a chunk. *)
Theorem cleared_stores_are_empty (w : World) (d : DB) :
  db w = Some d ->
  (exists w',
     clearChatHistory w = (Ok tt, w')
     /\ db w' = Some (mkDB (documents d) (chunkStore d) [])
     /\ forall limit, getChatHistory limit w' = (Ok [], w'))
  /\ (exists w',
        deleteAllData w = (Ok tt, w')
        /\ getAllDocuments w' = (Ok [], w')
        /\ (forall limit, getChatHistory limit w' = (Ok [], w'))
        /\ getStorageStats w' = (Ok (mkStats 0 0 0 0), w')
        /\ (forall queryEmbedding topK threshold,
              searchChunks queryEmbedding topK threshold w' = (Ok [], w'))).
Proof.
  intros Hd. split.
  - unfold clearChatHistory, bind, ensureDB, bind, getDB, ret, setDB.
    rewrite Hd. eexists. split; [reflexivity|]. split; [reflexivity|].
    intros limit. erewrite getChatHistory_spec by reflexivity.
    cbn. unfold sliceFrom. destruct (- limit <? 0)%Z; now rewrite skipn_nil.
  - unfold deleteAllData, bind, ensureDB, bind, getDB, ret, setDB.
    rewrite Hd. eexists. split; [reflexivity|]. split; [reflexivity|].
    split; [|split; [reflexivity|]].
    + intros limit. erewrite getChatHistory_spec by reflexivity.
      cbn. unfold sliceFrom. destruct (- limit <? 0)%Z; now rewrite skipn_nil.
    + intros q topK threshold.
      unfold searchChunks, bind, ensureDB, bind, getDB, ret. cbn [db].
      unfold rank. cbn. unfold sliceTo. destruct (topK <? 0)%Z; now rewrite firstn_nil.
Qed.

Lemma readEach_spec w d :
  db w = Some d ->
  forall keys,
    readEach keys w = (Ok (map (fun key => get doc_id key (documents d)) keys), w).
Proof.
  intros Hd. induction keys as [|key keys IH]; [reflexivity|].
  cbn [readEach]. unfold bind at 1. rewrite (getDocument_spec key w d Hd).
  unfold bind at 1. rewrite IH. reflexivity.
Qed.

(** X8.  [getAllDocuments] returns one entry per stored record, none of them
    [null], each carrying the id of the record it was read for. *)
Theorem all_documents_are_read (w : World) (d : DB) :
  db w = Some d ->
  exists docs,
    getAllDocuments w = (Ok (map Some docs), w)
    /\ map doc_id docs = map doc_id (getAll (documents d)).
Proof.
  intros Hd. unfold getAllDocuments, bind at 1. unfold ensureDB, bind, getDB, ret.
  rewrite Hd. rewrite (readEach_spec w d Hd). unfold getAll.
  assert (H : forall l, (forall x, In x l -> In x (documents d)) ->
            exists docs,
              map (fun key => get doc_id key (documents d)) (map doc_id l)
              = map Some docs
              /\ map doc_id docs = map doc_id l).
  { induction l as [|x l IH]; intros Hsub.
    - exists []. split; reflexivity.
    - destruct IH as (docs & Hdocs & Hids); [intros y Hy; apply Hsub; now right|].
      destruct (get doc_id (doc_id x) (documents d)) as [x'|] eqn:E.
      + exists (x' :: docs). pose proof (get_Some _ _ _ _ E) as [_ Hid].
        simpl. rewrite E, Hdocs, Hids, Hid. split; reflexivity.
      + exfalso. rewrite get_None in E.
        apply (E x); [apply Hsub; now left|reflexivity]. }
  destruct (H (documents d)) as (docs & Hdocs & Hids); [tauto|].
  exists docs. rewrite Hdocs. split; [reflexivity|exact Hids].
Qed.

End HistoryFacts.

(** ** Binary64 arithmetic *)

Section FloatFacts.

Lemma SFmul_comm x y : SFmul prec emax x y = SFmul prec emax y x.
Proof.
  destruct x as [sx|sx| |sx mx ex], y as [sy|sy| |sy my ey]; simpl;
    rewrite ?(xorb_comm sx sy); try reflexivity.
  now rewrite (Pos.mul_comm mx my), (Z.add_comm ex ey).
Qed.

Lemma float_mul_comm (x y : float) : (x * y = y * x)%float.
Proof.
  apply Prim2SF_inj. rewrite !mul_spec. apply SFmul_comm.
Qed.

(** A rounded value with the sign bit set is not above zero. *)
Lemma negative_round_not_positive m e :
  SFltb (S754_zero false) (binary_round prec emax true m e) = false.
Proof.
  unfold binary_round, binary_round_aux.
  destruct (shl_align m e _) as [mz ez].
  destruct (shr_fexp prec emax (Z.pos mz) ez loc_Exact) as [mrs e'].
  destruct (shr_fexp prec emax _ e' loc_Exact) as [mrs' e''].
  destruct (shr_m mrs') as [|p|p]; try reflexivity.
  destruct (e'' <=? emax - prec)%Z; reflexivity.
Qed.

Lemma normalize_antisym m m' e :
  m' = (- m)%Z ->
  SFltb (S754_zero false) (binary_normalize prec emax m e false) = true ->
  SFltb (S754_zero false) (binary_normalize prec emax m' e false) = false.
Proof.
  intros ->. destruct m as [|p|p]; simpl.
  - discriminate.
  - intros _. apply negative_round_not_positive.
  - now rewrite negative_round_not_positive.
Qed.

Lemma SFsub_antisym x y :
  SFltb (S754_zero false) (SFsub prec emax y x) = true ->
  SFltb (S754_zero false) (SFsub prec emax x y) = false.
Proof.
  destruct x as [sx|sx| |sx mx ex], y as [sy|sy| |sy my ey];
    try (destruct sx); try (destruct sy); try reflexivity; try discriminate.
  all: cbn [SFsub]; intros H;
    replace (IntDef.Z.min ey ex) with (IntDef.Z.min ex ey) in H
      by apply Z.min_comm;
    refine (normalize_antisym _ _ _ _ H); cbn [cond_Zopp];
    change IntDef.Z.sub with Z.sub; change IntDef.Z.opp with Z.opp; lia.
Qed.

(** The comparator of the sort cannot be positive both ways. *)
Lemma float_sub_antisym (x y : float) :
  (0 <? y - x)%float = true -> (0 <? x - y)%float = false.
Proof.
  rewrite !ltb_spec, !sub_spec.
  change (Prim2SF 0) with (S754_zero false). apply SFsub_antisym.
Qed.

End FloatFacts.

(** ** More on the vector search *)

Section SearchMore.
Import Storage Rag Notions.

Lemma sums_swap a :
  forall b dotProduct normA normB,
    sums b a dotProduct normB normA
    = let '(d, na, nb) := sums a b dotProduct normA normB in (d, nb, na).
Proof.
  induction a as [|x a IH]; intros [|y b] d na nb; try reflexivity.
  cbn [sums]. rewrite (float_mul_comm y x). apply IH.
Qed.

(** X9.  Cosine similarity does not depend on the order of its arguments,
    in either of its two copies, and the two copies compute the same
    number. *)
Theorem similarity_is_symmetric (a b : list float) :
  cosineSimilarity a b = cosineSimilarity b a
  /\ calculateSimilarity a b = calculateSimilarity b a
  /\ calculateSimilarity a b = cosineSimilarity a b.
Proof.
  assert (H : cosineSimilarity a b = cosineSimilarity b a).
  { unfold cosineSimilarity. rewrite (Nat.eqb_sym (length b) (length a)).
    destruct (length a =? length b); [|reflexivity]. cbn [negb].
    rewrite (sums_swap a b).
    destruct (sums a b 0 0 0) as [[d na] nb].
    now rewrite (float_mul_comm (sqrt nb) (sqrt na)). }
  split; [exact H|]. split; [exact H|reflexivity].
Qed.

Lemma insertScored_sorted x l :
  Sorted rankedBefore l -> Sorted rankedBefore (insertScored x l).
Proof.
  induction 1 as [|y rest Hrest IH Hhd]; cbn [insertScored].
  - repeat constructor.
  - destruct (comesAfter x y) eqn:E.
    + constructor; [assumption|].
      destruct rest as [|z rest']; cbn [insertScored].
      * constructor. unfold rankedBefore, comesAfter in *.
        now apply float_sub_antisym.
      * destruct (comesAfter x z).
        -- constructor. now inversion Hhd.
        -- constructor. unfold rankedBefore, comesAfter in *.
           now apply float_sub_antisym.
    + constructor; [now constructor|]. constructor. exact E.
Qed.

Lemma sortBySimilarity_sorted l : Sorted rankedBefore (sortBySimilarity l).
Proof.
  induction l as [|x l IH]; cbn; [constructor|now apply insertScored_sorted].
Qed.

Lemma Sorted_firstn {A} (R : A -> A -> Prop) n :
  forall l, Sorted R l -> Sorted R (firstn n l).
Proof.
  induction n as [|n IH]; intros l Hl; [constructor|].
  destruct Hl as [|x l Hl Hhd]; cbn [firstn]; [constructor|].
  constructor; [now apply IH|].
  destruct Hhd; destruct n; constructor; assumption.
Qed.

Lemma Sorted_sliceTo {A} (R : A -> A -> Prop) l k :
  Sorted R l -> Sorted R (sliceTo l k).
Proof. intros H. unfold sliceTo. destruct (k <? 0)%Z; now apply Sorted_firstn. Qed.

Lemma Sorted_map_fst (q : list float) (l : list scored) :
  Forall (fun r => snd r = similarityTo q (fst r)) l ->
  Sorted rankedBefore l ->
  Sorted (fun c1 c2 => (0 <? similarityTo q c2 - similarityTo q c1)%float = false)
         (map fst l).
Proof.
  intros Hall Hs. induction Hs as [|x l Hl IH Hhd]; cbn [map]; [constructor|].
  inversion Hall as [|? ? Hx Hall']; subst.
  constructor; [now apply IH|].
  destruct Hhd as [|y l' Hxy]; cbn [map]; constructor.
  inversion Hall' as [|? ? Hy _]; subst.
  unfold rankedBefore, comesAfter in Hxy. now rewrite Hx, Hy in Hxy.
Qed.

(** X10.  [searchChunks] returns its chunks in rank order: between two
    neighbours the comparator of the sort, the later similarity minus the
    earlier one, is never positive.  [searchDocuments] without an allow-list
    returns a prefix of that ranking, so the same holds for it. *)
Theorem search_results_are_ranked (queryEmbedding : list float) (topK : Z)
        (threshold : float) (allChunks : list DocumentChunk) :
  let descending :=
    Sorted (fun c1 c2 =>
              (0 <? similarityTo queryEmbedding c2
                    - similarityTo queryEmbedding c1)%float = false) in
  descending (rank queryEmbedding topK threshold allChunks)
  /\ forall k, descending (sliceTo (restrictTo None
                                      (rank queryEmbedding topK threshold allChunks)) k).
Proof.
  cbv zeta.
  assert (H : Sorted (fun c1 c2 =>
                        (0 <? similarityTo queryEmbedding c2
                              - similarityTo queryEmbedding c1)%float = false)
                     (rank queryEmbedding topK threshold allChunks)).
  { unfold rank. apply Sorted_map_fst.
    - apply Forall_forall. intros r Hr.
      apply In_sliceTo, In_sortBySimilarity, filter_In in Hr. destruct Hr as [Hr _].
      apply in_map_iff in Hr. destruct Hr as (c & <- & _). reflexivity.
    - apply Sorted_sliceTo, sortBySimilarity_sorted. }
  split; [exact H|]. intros k. cbn [restrictTo]. now apply Sorted_sliceTo.
Qed.

Section WithEmbedding.
Variable generateEmbedding : str -> result (list float).

Lemma searchDocuments_throws query options w e :
  generateEmbedding query = Throw e ->
  searchDocuments generateEmbedding query options w = (Throw e, w).
Proof.
  intros Hq. unfold searchDocuments, tryCatch, bind, lift, throw. now rewrite Hq.
Qed.

Lemma searchDocuments_closed query options w q :
  generateEmbedding query = Ok q -> db w = None ->
  searchDocuments generateEmbedding query options w
  = (Throw (JsError (units "Storage not initialized. Call initialize() first.")), w).
Proof.
  intros Hq Hd.
  unfold searchDocuments, tryCatch, bind, lift, searchChunks, ensureDB, getDB,
    bind, ret, throw.
  now rewrite Hq, Hd.
Qed.

(** X11.  [searchDocuments] only reads: whatever happens the state is
    unchanged.  It throws exactly what the embedding call throws, or the
    storage error when the store is not open, and returns otherwise. *)
Theorem search_only_reads (query : str) (options : SearchOptions) (w : World) :
  snd (searchDocuments generateEmbedding query options w) = w
  /\ match generateEmbedding query, db w with
     | Throw e, _ =>
         fst (searchDocuments generateEmbedding query options w) = Throw e
     | Ok _, None =>
         fst (searchDocuments generateEmbedding query options w)
         = Throw (JsError (units "Storage not initialized. Call initialize() first."))
     | Ok _, Some _ =>
         exists r, fst (searchDocuments generateEmbedding query options w) = Ok r
     end.
Proof.
  unfold searchDocuments, tryCatch, bind, lift, searchChunks, ensureDB, getDB,
    bind, ret, throw.
  destruct (generateEmbedding query) as [q|e]; [|split; reflexivity].
  destruct (db w) as [d|]; split; try reflexivity. eexists. reflexivity.
Qed.

Lemma rank_nothing q topK threshold allChunks :
  (forall c, In c allChunks -> hasEmbedding c = true ->
             (threshold <=? similarityTo q c)%float = false) ->
  rank q topK threshold allChunks = [].
Proof.
  intros H. unfold rank.
  assert (Hnil : filter (fun r : scored => (threshold <=? snd r)%float)
                        (map (fun chunk => (chunk, similarityTo q chunk))
                             (filter hasEmbedding allChunks)) = []).
  { induction allChunks as [|c cs IH]; [reflexivity|].
    cbn [filter]. destruct (hasEmbedding c) eqn:E.
    - cbn [map filter snd]. rewrite (H c (or_introl eq_refl) E).
      apply IH. intros c' Hc'. apply H. now right.
    - apply IH. intros c' Hc'. apply H. now right. }
  rewrite Hnil. cbn. unfold sliceTo. destruct (topK <? 0)%Z; now rewrite firstn_nil.
Qed.

(** X12.  When no stored chunk with an embedding reaches the relaxed
    threshold, the search returns the empty result: no chunk,
    [totalResults] 0, and both relevance statistics 0. *)
Theorem search_without_match_is_empty (query : str) (options : SearchOptions)
        (w : World) (q : list float) (d : DB) :
  generateEmbedding query = Ok q ->
  db w = Some d ->
  (forall c, In c (getAll (chunkStore d)) -> hasEmbedding c = true ->
     (thresholdOf options * 0x1.999999999999ap-1 <=? similarityTo q c)%float = false) ->
  searchDocuments generateEmbedding query options w
  = (Ok (mkSearchResult [] 0 0 0), w).
Proof.
  intros Hq Hd Hnone.
  unfold searchDocuments, tryCatch, bind, lift, searchChunks, ensureDB, getDB,
    bind, ret.
  rewrite Hq, Hd. rewrite (rank_nothing q _ _ _ Hnone).
  assert (Hr : restrictTo (opt_documentIds options) [] = []).
  { unfold restrictTo. destruct (opt_documentIds options) as [ids|]; [|reflexivity].
    now destruct (0 <? length ids). }
  rewrite Hr. unfold sliceTo.
  destruct (topKOf options <? 0)%Z; rewrite !firstn_nil; reflexivity.
Qed.

(** X13.  With a non-empty allow-list every returned chunk belongs to a
    listed document; an empty allow-list restricts nothing, the result
    being the one obtained without a list. *)
Theorem search_honours_allow_list (query : str) (topK : option Z)
        (threshold : option float) (ids : list str) (w : World)
        (q : list float) (d : DB) :
  generateEmbedding query = Ok q ->
  db w = Some d ->
  exists r,
    searchDocuments generateEmbedding query
                    (mkSearchOptions topK threshold (Some ids)) w = (Ok r, w)
    /\ (ids <> [] -> Forall (fun c => In (documentId c) ids) (res_chunks r))
    /\ (ids = [] ->
        searchDocuments generateEmbedding query
                        (mkSearchOptions topK threshold None) w = (Ok r, w)).
Proof.
  intros Hq Hd.
  destruct (searchDocuments_returns generateEmbedding query
              (mkSearchOptions topK threshold (Some ids)) w q d Hq Hd)
    as (r & Hr & Hchunks).
  exists r. split; [exact Hr|]. split.
  - intros Hids. rewrite Hchunks.
    apply Forall_forall. intros c Hc. apply In_sliceTo in Hc.
    cbn [opt_documentIds restrictTo] in Hc.
    destruct ids as [|i ids]; [contradiction|]. cbn [length Nat.ltb Nat.leb] in Hc.
    apply filter_In in Hc. destruct Hc as [_ Hc]. unfold includes in Hc.
    apply existsb_exists in Hc. destruct Hc as (x & Hx & Heq).
    apply eqb_eq in Heq. now subst x.
  - intros ->. exact Hr.
Qed.

End WithEmbedding.

End SearchMore.

(** ** More on answers *)

Section AnswerMore.
Local Open Scope js_scope.
Import Storage Rag Notions.

Variable generateId : nat -> str.
Variable clock : nat -> Z.
Variable generateEmbedding : str -> result (list float).
Variable generateText : str -> str -> float -> Z -> result str.

Lemma resolveNames_reads chunks :
  forall documentMap w d,
    db w = Some d -> exists m, resolveNames chunks documentMap w = (Ok m, w).
Proof.
  induction chunks as [|c chunks IH]; intros documentMap w d Hd; cbn [resolveNames].
  - eexists. reflexivity.
  - destruct (mapGet documentMap (documentId c)); [now apply IH with d|].
    unfold bind. rewrite (getDocument_spec _ _ _ Hd).
    destruct (get doc_id (documentId c) (documents d)); now apply IH with d.
Qed.

Lemma cite_spec userQuestion q chunks :
  generateEmbedding userQuestion = Ok q ->
  forall i documentMap context sources w,
  exists context' cited,
    cite generateEmbedding userQuestion i chunks documentMap context sources w
    = (Ok (context', sources ++ cited), w)
    /\ Forall2 (cites q) chunks cited.
Proof.
  intros Hq. induction chunks as [|c chunks IH]; intros i documentMap context sources w;
    cbn [cite].
  - exists context, []. rewrite app_nil_r. split; [reflexivity|constructor].
  - unfold bind at 1.
    set (score := match embedding c with
                  | Some e => calculateSimilarity q e
                  | None => 0%float
                  end).
    assert (Hscore : (match embedding c with
                      | Some e =>
                          q0 <- lift (generateEmbedding userQuestion) ;;
                          ret (calculateSimilarity q0 e)
                      | None => ret 0%float
                      end) w = (Ok score, w)).
    { subst score. destruct (embedding c); [|reflexivity].
      unfold bind, lift, ret. now rewrite Hq. }
    rewrite Hscore.
    edestruct IH as (context' & cited & Hcite & Hall). rewrite Hcite.
    eexists context', (_ :: cited). rewrite <- app_assoc. split; [reflexivity|].
    constructor; [|exact Hall].
    repeat split.
Qed.

(** The [try] block on an open store: it throws before anything is written,
    or it saves and returns a message whose sources cite the chunks found,
    one per chunk and in their order. *)
Lemma answer_spec userQuestion options w d :
  db w = Some d ->
  (exists e,
     answer generateId clock generateEmbedding generateText userQuestion options w
     = (Throw e, w))
  \/ (exists q r text cited,
        generateEmbedding userQuestion = Ok q
        /\ searchDocuments generateEmbedding userQuestion
             (mkSearchOptions
                (Some match maxSources options with Some k => k | None => 5%Z end)
                (Some 0x1.3333333333333p-1%float) (resp_documentIds options)) w
           = (Ok r, w)
        /\ Forall2 (cites q) (res_chunks r) cited
        /\ let message :=
             mkMessage (generateId (tick w)) text assistant (clock (S (tick w)))
                       (match cited with [] => None | _ :: _ => Some cited end) in
           answer generateId clock generateEmbedding generateText userQuestion options w
           = (Ok message,
              mkWorld (Some (mkDB (documents d) (chunkStore d)
                                  (put msg_id message (chat_history d))))
                      (S (S (tick w))) (reported w))).
Proof.
  intros Hd.
  set (opts := mkSearchOptions _ _ _).
  destruct (generateEmbedding userQuestion) as [q|e] eqn:Hq.
  - destruct (searchDocuments_returns generateEmbedding userQuestion opts w q d Hq Hd)
      as (r & Hsearch & _).
    assert (Hbuilt : exists context cited,
               (if 0 <? length (res_chunks r)
                then documentMap <- resolveNames (res_chunks r) [] ;;
                     cite generateEmbedding userQuestion 0 (res_chunks r)
                          documentMap [] []
                else ret ([], [])) w = (Ok (context, cited), w)
               /\ Forall2 (cites q) (res_chunks r) cited).
    { destruct (res_chunks r) as [|c cs] eqn:Hcs.
      - exists [], []. split; [reflexivity|constructor].
      - cbn [length Nat.ltb Nat.leb]. unfold bind.
        destruct (resolveNames_reads (c :: cs) [] w d Hd) as (m & Hm). rewrite Hm.
        destruct (cite_spec userQuestion q (c :: cs) Hq 0 m [] [] w)
          as (context & cited & Hcite & Hall).
        exists context, cited. split; assumption. }
    destruct Hbuilt as (context & cited & Hbuilt & Hall).
    destruct (generateText userQuestion context
                match temperature options with
                | Some t => t
                | None => 0x1.6666666666666p-1%float
                end
                match maxTokens options with Some k => k | None => 512%Z end)
      as [text|e] eqn:Htext.
    + right. exists q, r, text, cited. split; [reflexivity|].
      split; [exact Hsearch|]. split; [exact Hall|]. cbv zeta.
      unfold answer. fold opts. unfold bind at 1. rewrite Hsearch.
      unfold bind at 1. rewrite Hbuilt. cbn [fst snd].
      unfold bind at 1, lift at 1. rewrite Htext.
      unfold bind, draw, saveChatMessage, bind, ensureDB, bind, getDB, ret, setDB.
      cbn [db tick reported]. rewrite Hd. reflexivity.
    + left. exists e. unfold answer. fold opts. unfold bind at 1. rewrite Hsearch.
      unfold bind at 1. rewrite Hbuilt. cbn [fst snd].
      unfold bind at 1, lift at 1. rewrite Htext. reflexivity.
  - left. exists e. unfold answer. fold opts. unfold bind at 1.
    now rewrite (searchDocuments_throws generateEmbedding userQuestion opts w e Hq).
Qed.

End AnswerMore.

Section AnswerTheorems.
Import Storage Rag Notions.
Local Open Scope js_scope.

Variable generateId : nat -> str.
Variable clock : nat -> Z.
Variable generateEmbedding : str -> result (list float).
Variable generateText : str -> str -> float -> Z -> result str.




(** X15.  With the store closed the fallback does not help: the [catch]
    block of [generateResponse] fails to save its apology, so
    [generateResponse], [chat] and [askQuestion] all throw the storage error,
    and nothing is written. *)
Theorem closed_store_defeats_the_fallback
        (userMessage : str) (options : ResponseOptions)
        (documentIds : option (list str)) (w : World) :
  db w = None ->
  let storageError :=
    JsError (units "Storage not initialized. Call initialize() first.") in
  let w' := mkWorld None (S (S (tick w))) (reported w) in
  generateResponse generateId clock generateEmbedding generateText
                   userMessage options w = (Throw storageError, w')
  /\ chat generateId clock generateEmbedding generateText userMessage documentIds w
     = (Throw storageError, w')
  /\ askQuestion generateId clock generateEmbedding generateText userMessage
                 documentIds w = (Throw storageError, w').
Proof.
  intros Hd storageError w'.
  assert (Hgen : forall options',
             generateResponse generateId clock generateEmbedding generateText
                              userMessage options' w = (Throw storageError, w')).
  { intros options'. unfold generateResponse, tryCatch, answer.
    set (opts := mkSearchOptions _ _ _).
    assert (Hrec : forall e, recover generateId clock e w = (Throw storageError, w')).
    { intros e. unfold recover, bind, draw, saveChatMessage, bind, ensureDB, bind,
        getDB, throw. cbn [db tick reported]. rewrite Hd. reflexivity. }
    unfold bind at 1.
    destruct (generateEmbedding userMessage) as [q|e] eqn:Hq.
    - rewrite (searchDocuments_closed generateEmbedding userMessage opts w q Hq Hd).
      apply Hrec.
    - rewrite (searchDocuments_throws generateEmbedding userMessage opts w e Hq).
      apply Hrec. }
  split; [apply Hgen|]. split.
  - unfold chat, tryCatch, recordUserMessage, bind, draw, saveChatMessage, bind,
      ensureDB, bind, getDB, throw. cbn [db tick reported]. rewrite Hd. reflexivity.
  - unfold askQuestion, bind. now rewrite Hgen.
Qed.

(** X16.  On an open store [chat] never throws: it returns an assistant
    message, and the history then holds the user's message and, put after
    it, the reply.  Both can be read back unless the two generated ids
    coincide, in which case the reply has replaced the user's message. *)
Theorem chat_always_answers_on_open_store
        (userMessage : str) (documentIds : option (list str)) (w : World) (d : DB) :
  db w = Some d ->
  let asked :=
    mkMessage (generateId (tick w)) userMessage user (clock (S (tick w))) None in
  exists reply w2 d2,
    chat generateId clock generateEmbedding generateText userMessage documentIds w
    = (Ok reply, w2)
    /\ role reply = assistant
    /\ msg_id reply = generateId (S (S (tick w)))
    /\ db w2 = Some d2
    /\ chat_history d2 = put msg_id reply (put msg_id asked (chat_history d))
    /\ get msg_id (msg_id reply) (chat_history d2) = Some reply
    /\ (generateId (tick w) <> generateId (S (S (tick w))) ->
        get msg_id (generateId (tick w)) (chat_history d2) = Some asked).
Proof.
  intros Hd asked.
  set (du := mkDB (documents d) (chunkStore d) (put msg_id asked (chat_history d))).
  set (wu := mkWorld (Some du) (S (S (tick w))) (reported w)).
  assert (Huser : recordUserMessage generateId clock userMessage w = (Ok tt, wu)).
  { unfold recordUserMessage, bind, draw, saveChatMessage, bind, ensureDB, bind,
      getDB, ret, setDB. cbn [db tick reported]. now rewrite Hd. }
  assert (Hgen : exists text cited,
             let reply := mkMessage (generateId (tick wu)) text assistant
                                    (clock (S (tick wu))) cited in
             generateResponse generateId clock generateEmbedding generateText
               userMessage (mkResponseOptions None None None documentIds) wu
             = (Ok reply,
                mkWorld (Some (mkDB (documents du) (chunkStore du)
                                    (put msg_id reply (chat_history du))))
                        (S (S (tick wu))) (reported wu))).
  { destruct (answer_spec generateId clock generateEmbedding generateText userMessage
                (mkResponseOptions None None None documentIds) wu du eq_refl)
      as [(e & Hthrow)|(q & r & text & cited & _ & _ & _ & Hanswer)].
    - exists (apology e), None. unfold generateResponse, tryCatch. rewrite Hthrow.
      unfold recover, bind, draw, saveChatMessage, bind, ensureDB, bind,
        getDB, ret, setDB. reflexivity.
    - eexists text, _. unfold generateResponse, tryCatch.
      cbv zeta in Hanswer. rewrite Hanswer. reflexivity. }
  destruct Hgen as (text & cited & Hgen). cbv zeta in Hgen.
  eexists _, _, _. split.
  { unfold chat, tryCatch, bind. rewrite Huser, Hgen. reflexivity. }
  split; [reflexivity|]. split; [reflexivity|]. split; [reflexivity|].
  split; [reflexivity|]. split.
  - exact (get_put msg_id _ _).
  - intros Hids. cbn [chat_history du].
    rewrite get_put_other by exact Hids.
    exact (get_put msg_id asked _).
Qed.

(** X17.  On an open store [askQuestion] never throws either.  When the
    answer path failed it returns as answer the sentence "I apologize, but I
    encountered an error while processing your question: ", the message of
    the error ("Unknown error" when what was thrown is not an [Error]) and
    ". Please try again.", with no sources and confidence 0; and whenever it
    returns no sources its confidence is 0. *)
Theorem ask_question_always_returns
        (question : str) (documentIds : option (list str)) (w : World) (d : DB) :
  db w = Some d ->
  exists a w2,
    askQuestion generateId clock generateEmbedding generateText question documentIds w
    = (Ok a, w2)
    /\ (answerSources a = [] -> confidence a = 0%float)
    /\ (forall e w1,
          answer generateId clock generateEmbedding generateText question
                 (mkResponseOptions None None None documentIds) w = (Throw e, w1) ->
          a = mkAnswer
                (units "I apologize, but I encountered an error while processing your question: "
                   ++ match e with
                      | JsError text => text
                      | NotAnError => units "Unknown error"
                      end
                   ++ units ". Please try again.")
                [] 0).
Proof.
  intros Hd. unfold askQuestion, bind, generateResponse, tryCatch.
  destruct (answer_spec generateId clock generateEmbedding generateText question
              (mkResponseOptions None None None documentIds) w d Hd)
    as [(e & Hthrow)|(q & r & text & cited & _ & _ & _ & Hanswer)].
  - rewrite Hthrow.
    destruct (recover_returns generateId clock e w d Hd) as (m & Hrec & _ & Hcontent).
    rewrite Hrec. unfold ret.
    assert (Hsrc : sources m = None).
    { revert Hrec. unfold recover, bind, draw, saveChatMessage, bind, ensureDB, bind,
        getDB, ret, setDB. cbn [db tick reported]. rewrite Hd.
      intros H. inversion H. reflexivity. }
    rewrite Hsrc, Hcontent. eexists _, _. split; [reflexivity|].
    split; [reflexivity|]. intros e' w1 H. inversion H; subst e'.
    unfold apology, messageOf. now destruct e.
  - cbv zeta in Hanswer. rewrite Hanswer. unfold ret. cbn [sources msg_content].
    eexists _, _. split; [reflexivity|]. split; [|discriminate].
    destruct cited; [reflexivity|]. cbn [answerSources]. discriminate.
Qed.

End AnswerTheorems.

(** ** More on the chunker and the document processor *)

Section ChunkerMore.
Import DocumentProcessor Notions.

Variable generateId : nat -> str.

Lemma windows_ids paragraph docId cursor :
  forall fuel paragraphStart n,
    let r := windows generateId fuel paragraph docId cursor paragraphStart n in
    map id (fst r) = map generateId (seq n (length (fst r)))
    /\ snd r = n + length (fst r)
    /\ Forall (fresh docId) (fst r).
Proof.
  induction fuel as [|fuel IH]; intros ps n; cbn [windows].
  - cbn. repeat split; [lia|constructor].
  - destruct (ps <? length paragraph); [|cbn; repeat split; [lia|constructor]].
    destruct (trim (slice paragraph ps (Nat.min (ps + CHUNK_SIZE) (length paragraph))))
      as [|u us] eqn:E; cbn [fst snd app].
    + apply IH.
    + specialize (IH (ps + (CHUNK_SIZE - OVERLAP)) (S n)). cbv zeta in IH.
      destruct IH as (Hids & Hn & Hall). cbn [map length seq id].
      rewrite Hids, Hn. repeat split; [lia|].
      constructor; [|exact Hall]. repeat split. cbn. discriminate.
Qed.

Lemma chunkParagraphs_ids docId :
  forall paragraphs cursor n,
    Forall (fun p => 0 < length (trim p)) paragraphs ->
    let r := chunkParagraphs generateId paragraphs docId cursor n in
    map id (fst r) = map generateId (seq n (length (fst r)))
    /\ snd r = n + length (fst r)
    /\ Forall (fresh docId) (fst r).
Proof.
  induction paragraphs as [|p more IH]; intros cursor n Hall; cbn [chunkParagraphs].
  - cbn. repeat split; [lia|constructor].
  - inversion Hall as [|? ? Hp Hmore]; subst.
    set (here := if length p <=? CHUNK_SIZE then _ else _).
    assert (Hhere : map id (fst here) = map generateId (seq n (length (fst here)))
                    /\ snd here = n + length (fst here)
                    /\ Forall (fresh docId) (fst here)).
    { subst here. destruct (length p <=? CHUNK_SIZE).
      - cbn. repeat split; [lia|]. constructor; [|constructor].
        repeat split. cbn. destruct (trim p); [simpl in Hp; lia|discriminate].
      - apply windows_ids. }
    destruct Hhere as (Hids & Hn & Hfresh).
    specialize (IH (cursor + length p) (snd here) Hmore). cbv zeta in IH.
    destruct IH as (Hids' & Hn' & Hfresh'). cbn [fst snd].
    split; [|split].
    + rewrite map_app, length_app, seq_app, map_app, Hids, Hids', Hn. reflexivity.
    + rewrite Hn', Hn, length_app. lia.
    + apply Forall_app. now split.
Qed.

Lemma paragraphsOf_nonblank content :
  Forall (fun p => 0 < length (trim p)) (paragraphsOf content).
Proof.
  apply Forall_forall. intros p Hp. unfold paragraphsOf in Hp.
  apply filter_In in Hp. now apply Nat.ltb_lt.
Qed.

Lemma chunkDocument_owner
        (text docId : str) (docType : DocumentType) (n : nat) :
  let produced := chunkDocument generateId text docId docType n in
  map id (fst produced) = map generateId (seq n (length (fst produced)))
  /\ snd produced = n + length (fst produced)
  /\ Forall (fun c => documentId c = docId) (fst produced).
Proof.
  destruct (chunkParagraphs_ids docId (paragraphsOf text) 0 n
              (paragraphsOf_nonblank text)) as (Hids & Hn & Hfresh).
  assert (Hown : Forall (fun c => documentId c = docId)
                        (fst (chunkParagraphs generateId (paragraphsOf text) docId 0 n)))
    by (eapply Forall_impl; [|exact Hfresh]; now intros c (H & _)).
  cbv zeta. unfold chunkDocument. cbn [fst snd].
  destruct (isPdf docType); [|now repeat split].
  unfold addPageNumbers. rewrite length_map, map_map. cbn [setPage id].
  split; [exact Hids|]. split; [exact Hn|].
  apply Forall_map. exact Hown.
Qed.

(** X18.  The chunks of a document are numbered as they are made: their ids
    are the next identifiers drawn, one per chunk and in order, and the
    count of identifiers moves on by the number of chunks.  Every chunk
    names the document it was made for, has some text and no embedding, and
    has a page number exactly when the document is a PDF. *)
Theorem chunks_are_numbered_and_owned
        (text docId : str) (docType : DocumentType) (n : nat) :
  let produced := chunkDocument generateId text docId docType n in
  map id (fst produced) = map generateId (seq n (length (fst produced)))
  /\ snd produced = n + length (fst produced)
  /\ Forall (fun c =>
               documentId c = docId /\ embedding c = None /\ content c <> []
               /\ (page c <> None <-> docType = pdf))
            (fst produced).
Proof.
  destruct (chunkParagraphs_ids docId (paragraphsOf text) 0 n
              (paragraphsOf_nonblank text)) as (Hids & Hn & Hfresh).
  cbv zeta. unfold chunkDocument. cbn [fst snd].
  destruct docType; cbn [isPdf];
    try (split; [exact Hids|]; split; [exact Hn|];
         eapply Forall_impl; [|exact Hfresh];
         intros c (H1 & H2 & H3 & H4); repeat split; try assumption;
         [now intros ?|discriminate]).
  unfold addPageNumbers. rewrite length_map, map_map. cbn [setPage id].
  split; [exact Hids|]. split; [exact Hn|].
  apply Forall_map. eapply Forall_impl; [|exact Hfresh].
  intros c (H1 & H2 & H3 & H4). cbn. repeat split; try assumption; discriminate.
Qed.



Lemma trim_blank (p : str) : forallb isWhiteSpace p = true -> trim p = [].
Proof.
  intros H. unfold trim, trimStart.
  assert (Hdrop : dropWhile isWhiteSpace p = []).
  { induction p as [|c p IH]; [reflexivity|]. simpl in *.
    apply andb_prop in H. destruct H as [-> H]. now apply IH. }
  rewrite Hdrop. reflexivity.
Qed.

Lemma paragraphsOf_blank (text : str) :
  forallb isWhiteSpace text = true -> paragraphsOf text = [].
Proof.
  intros Hblank. unfold paragraphsOf.
  assert (Hall : forall p, In p (splitParagraphs text) ->
                           (0 <? length (trim p)) = false).
  { intros p Hp. apply occursIn_splitParagraphs in Hp.
    destruct Hp as (before & after & Heq). rewrite Heq in Hblank.
    rewrite !forallb_app in Hblank.
    apply andb_prop in Hblank. destruct Hblank as [_ Hrest].
    apply andb_prop in Hrest. destruct Hrest as [Hp _].
    now rewrite (trim_blank p Hp). }
  induction (splitParagraphs text) as [|p ps IH]; [reflexivity|].
  cbn [filter]. rewrite (Hall p (or_introl eq_refl)).
  apply IH. intros p' Hp'. apply Hall. now right.
Qed.

(** X19.  A text of white space only gives no chunk and draws no
    identifier, whatever the document type. *)
Theorem blank_text_gives_no_chunk
        (text docId : str) (docType : DocumentType) (n : nat) :
  forallb isWhiteSpace text = true ->
  chunkDocument generateId text docId docType n = ([], n).
Proof.
  intros Hblank. unfold chunkDocument.
  rewrite (paragraphsOf_blank text Hblank). cbn [chunkParagraphs fst snd].
  now destruct (isPdf docType).
Qed.

End ChunkerMore.

Section ProcessorFacts.
Import DocumentProcessor Notions.
Local Open Scope js_scope.

Variable generateId : nat -> str.
Variable clock : nat -> Z.
Variable detectDocumentType : File -> result DocumentType.
Variable extractText : DocumentType -> File -> result str.

Lemma extraction_lift t file :
  t <> image -> extraction extractText t file = lift (extractText t file).
Proof. intros Ht. destruct t; try reflexivity. congruence. Qed.

(** The run of [processDocument] on a readable file. *)
Lemma processDocument_runs
        (file : File) (w : World) (t : DocumentType) (text : str) :
  detectDocumentType file = Ok t ->
  t <> image ->
  extractText t file = Ok text ->
  let produced :=
    chunkDocument generateId text (generateId (tick w)) t (S (S (tick w))) in
  processDocument generateId clock detectDocumentType extractText file w
  = (Ok (mkDocument (generateId (snd produced)) (file_name file) text t
                    (file_size file) (clock (S (snd produced)))
                    (Some (clock (S (S (snd produced))))) (Some (fst produced))),
     mkWorld (db w) (S (S (S (snd produced))))
             (reported w
                ++ [mkProgress uploading 0 (units "Starting document processing...");
                    mkProgress extracting 10
                               (units "Processing " ++ upperName t ++ units " file...");
                    mkProgress chunking 60 (units "Breaking document into chunks...");
                    mkProgress complete 100 (units "Document processing complete!")])).
Proof.
  intros Hdetect Himage Hextract produced.
  unfold processDocument, tryCatch.
  unfold bind at 1. unfold updateProgress at 1.
  unfold bind at 1, lift at 1. rewrite Hdetect.
  unfold bind at 1. unfold updateProgress at 1.
  unfold bind at 1. rewrite (extraction_lift t file Himage). unfold lift at 1.
  rewrite Hextract.
  unfold bind, updateProgress, draw, chunkDocumentM, ret.
  cbn [db tick reported fst snd]. fold produced.
  rewrite <- !app_assoc. reflexivity.
Qed.

(** X20.  A readable file becomes a document that carries the file's name
    and size and the extracted text.  Its chunks all name the identifier
    drawn before the chunking, their own ids are the identifiers drawn
    next, and the document's id is the one drawn after them: the chunks'
    [documentId] is the document's [id] only if [generateId] repeats itself.
    The events reported begin with the upload and extraction events and end
    with the chunking and completion events, whatever the extraction reports
    in between; the store is not touched. *)
Theorem processed_document_and_chunks_differ_in_id
        (file : File) (w : World) (t : DocumentType) (text : str) :
  detectDocumentType file = Ok t ->
  t <> image ->
  extractText t file = Ok text ->
  exists d w',
    processDocument generateId clock detectDocumentType extractText file w = (Ok d, w')
    /\ doc_name d = file_name file /\ doc_content d = text
    /\ doc_type d = t /\ doc_size d = file_size file
    /\ chunks d = Some (fst (chunkDocument generateId text (generateId (tick w)) t
                                           (S (S (tick w)))))
    /\ Forall (fun c => documentId c = generateId (tick w)) (Rag.chunksOf d)
    /\ map id (Rag.chunksOf d)
       = map generateId (seq (S (S (tick w))) (length (Rag.chunksOf d)))
    /\ doc_id d = generateId (S (S (tick w)) + length (Rag.chunksOf d))
    /\ tick w' = tick w + 5 + length (Rag.chunksOf d)
    /\ db w' = db w
    /\ exists during,
         reported w'
         = reported w
             ++ [mkProgress uploading 0 (units "Starting document processing...");
                 mkProgress extracting 10
                            (units "Processing " ++ upperName t ++ units " file...")]
             ++ during
             ++ [mkProgress chunking 60 (units "Breaking document into chunks...");
                 mkProgress complete 100 (units "Document processing complete!")].
Proof.
  intros Hdetect Himage Hextract.
  pose proof (chunkDocument_owner generateId text (generateId (tick w)) t
                (S (S (tick w)))) as Hchunks.
  pose proof (processDocument_runs file w t text Hdetect Himage Hextract) as Hrun.
  cbv zeta in Hchunks, Hrun. destruct Hchunks as (Hids & Hn & Hown).
  eexists _, _. split; [exact Hrun|].
  unfold Rag.chunksOf. cbn [doc_name doc_content doc_type doc_size chunks doc_id
    tick db reported].
  repeat (split; [reflexivity|]).
  split; [exact Hown|]. split; [exact Hids|]. rewrite Hn.
  split; [reflexivity|]. split; [lia|]. split; [reflexivity|].
  exists []. reflexivity.
Qed.



(** [processDocument] on a file that is not readable. *)
Lemma processDocument_throws (file : File) (w : World) :
  readable detectDocumentType extractText file = false ->
  exists e earlier,
    processDocument generateId clock detectDocumentType extractText file w
    = (Throw e,
       mkWorld (db w) (tick w)
               (reported w ++ earlier
                  ++ [mkProgress error 0 (units "Processing failed: " ++ messageOf e)])).
Proof.
  unfold readable. intros Hunreadable.
  unfold processDocument, tryCatch.
  unfold bind at 1. unfold updateProgress at 1.
  unfold bind at 1, lift at 1.
  destruct (detectDocumentType file) as [t|e].
  - unfold bind at 1. unfold updateProgress at 1. unfold bind at 1.
    destruct t; cbn [extraction];
      try (unfold lift at 1; destruct (extractText _ file) as [text|e];
           [discriminate|];
           exists e; eexists [_; _]; unfold bind, updateProgress, throw;
           cbn [db tick reported]; rewrite <- !app_assoc; reflexivity).
    eexists _, [_; _]. unfold bind, updateProgress, throw.
    cbn [db tick reported]. rewrite <- !app_assoc. reflexivity.
  - exists e. eexists [_]. unfold bind, updateProgress, throw.
    cbn [db tick reported]. rewrite <- !app_assoc. reflexivity.
Qed.

(** X21.  A file that is not readable gives no document: [processDocument]
    throws what the detection or the extraction threw, or the unsupported
    file type error for an image, after reporting an error event that words
    it.  No identifier is drawn and the store is not touched. *)
Theorem unreadable_file_is_reported_and_rethrown (file : File) (w : World) :
  readable detectDocumentType extractText file = false ->
  exists e earlier,
    processDocument generateId clock detectDocumentType extractText file w
    = (Throw e,
       mkWorld (db w) (tick w)
               (reported w ++ earlier
                  ++ [mkProgress error 0 (units "Processing failed: " ++ messageOf e)]))
    /\ match detectDocumentType file with
       | Throw e' => e = e'
       | Ok image => e = JsError (units "Unsupported file type: " ++ file_type file)
       | Ok t => extractText t file = Throw e
       end.
Proof.
  unfold readable. intros Hunreadable.
  unfold processDocument, tryCatch.
  unfold bind at 1. unfold updateProgress at 1.
  unfold bind at 1, lift at 1.
  destruct (detectDocumentType file) as [t|e].
  - unfold bind at 1. unfold updateProgress at 1. unfold bind at 1.
    destruct t; cbn [extraction];
      try (unfold lift at 1; destruct (extractText _ file) as [text|e];
           [discriminate|];
           exists e; eexists [_; _]; unfold bind, updateProgress, throw;
           cbn [db tick reported]; rewrite <- !app_assoc; split; reflexivity).
    eexists _, [_; _]. unfold bind, updateProgress, throw.
    cbn [db tick reported]. rewrite <- !app_assoc. split; reflexivity.
  - exists e. eexists [_]. unfold bind, updateProgress, throw.
    cbn [db tick reported]. rewrite <- !app_assoc. split; reflexivity.
Qed.



Lemma processDocument_cases file w :
  if readable detectDocumentType extractText file
  then exists d w',
      processDocument generateId clock detectDocumentType extractText file w
      = (Ok d, w')
      /\ doc_name d = file_name file /\ db w' = db w
  else exists e w',
      processDocument generateId clock detectDocumentType extractText file w
      = (Throw e, w')
      /\ db w' = db w.
Proof.
  destruct (readable detectDocumentType extractText file) eqn:E.
  - unfold readable in E.
    destruct (detectDocumentType file) as [t|] eqn:Ht; [|discriminate].
    assert (Himage : t <> image) by (intros ->; discriminate).
    destruct (extractText t file) as [text|] eqn:Hx;
      [|destruct t; discriminate].
    pose proof (processDocument_runs file w t text Ht Himage Hx) as Hrun.
    cbv zeta in Hrun. eexists _, _. split; [exact Hrun|]. split; reflexivity.
  - destruct (processDocument_throws file w E) as (e & earlier & Hrun).
    eexists _, _. split; [exact Hrun|reflexivity].
Qed.

Lemma processEach_spec files :
  forall i total documents w,
  exists added w',
    processEach generateId clock detectDocumentType extractText files i total
                documents w
    = (Ok (documents ++ added), w')
    /\ map doc_name added
       = map file_name (filter (readable detectDocumentType extractText) files)
    /\ db w' = db w.
Proof.
  induction files as [|file more IH]; intros i total documents w; cbn [processEach].
  - exists [], w. rewrite app_nil_r. repeat split.
  - unfold bind at 1. unfold updateProgress at 1.
    set (w0 := mkWorld _ _ _).
    unfold bind at 1, tryCatch at 1, bind at 1.
    pose proof (processDocument_cases file w0) as Hcases. cbn [filter].
    destruct (readable detectDocumentType extractText file).
    + destruct Hcases as (d & w1 & -> & Hname & Hdb). unfold ret at 1.
      destruct (IH (S i) total (documents ++ [d]) w1) as (added & w' & -> & Hnames & Hdb').
      exists (d :: added), w'. rewrite <- app_assoc. split; [reflexivity|].
      cbn [map]. rewrite Hname, Hnames. split; [reflexivity|].
      rewrite Hdb', Hdb. reflexivity.
    + destruct Hcases as (e & w1 & -> & Hdb). unfold ret at 1.
      destruct (IH (S i) total documents w1) as (added & w' & -> & Hnames & Hdb').
      exists added, w'. split; [reflexivity|]. split; [exact Hnames|].
      rewrite Hdb', Hdb. reflexivity.
Qed.

(** X22.  [processMultipleDocuments] never throws.  It returns one document
    for each readable file and none for the others, in the order of the
    files, whatever went wrong with the files passed over; the store is not
    touched. *)
Theorem batch_keeps_the_readable_files (files : list File) (w : World) :
  exists documents w',
    processMultipleDocuments generateId clock detectDocumentType extractText files w
    = (Ok documents, w')
    /\ map doc_name documents
       = map file_name (filter (readable detectDocumentType extractText) files)
    /\ db w' = db w.
Proof.
  unfold processMultipleDocuments.
  destruct (processEach_spec files 0 (length files) [] w) as (added & w' & H).
  now exists added, w'.
Qed.

End ProcessorFacts.

(** ** More on the ingestion *)

Section IngestionMore.
Import Storage Rag JobSpec Notions.
Local Open Scope js_scope.




Lemma persist_open d w d0 :
  db w = Some d0 ->
  tryCatch (persist d) Rag.fail w
  = (Ok d,
     mkWorld (Some (mkDB (put doc_id (storedForm d) (documents d0))
                         (fold_left (fun store chunk => put id chunk store)
                                    (map toStored (chunksOf d)) (chunkStore d0))
                         (chat_history d0)))
             (tick w)
             (reported w
                ++ [mkProgress indexing 95 (units "Saving to local index...");
                    mkProgress complete 100 (units "Document ready for analysis!")])).
Proof.
  intros Hd. unfold tryCatch, persist.
  unfold bind at 1. unfold updateProgress at 1.
  unfold bind at 1.
  rewrite (saveDocument_spec d _ d0) by exact Hd.
  unfold bind, updateProgress, ret. cbn [db tick reported].
  rewrite <- app_assoc. reflexivity.
Qed.


Lemma Forall2_updateAt {A} (R : A -> A -> Prop) (f : A -> A) k l :
  (forall x, R x x) -> (forall x, R x (f x)) -> Forall2 R l (updateAt k f l).
Proof.
  intros Hrefl Hf.
  assert (Hsame : forall l', Forall2 R l' l')
    by (induction l'; constructor; auto).
  destruct (nth_error l k) as [a|] eqn:E.
  - destruct (updateAt_split k f l a E) as (pre & post & -> & -> & _).
    apply Forall2_app; [apply Hsame|]. constructor; [apply Hf|apply Hsame].
  - rewrite updateAt_beyond by assumption. apply Hsame.
Qed.

Lemma Forall2_sameText_trans l1 l2 l3 :
  Forall2 sameText l1 l2 -> Forall2 sameText l2 l3 -> Forall2 sameText l1 l3.
Proof.
  intros H12. revert l3. induction H12 as [|x y l1 l2 Hxy H12 IH]; intros l3 H23;
    inversion H23; subst; constructor.
  - unfold sameText in *. intuition congruence.
  - now apply IH.
Qed.

Lemma step_document j j' :
  step j j' -> onlyEmbeddingsDiffer (document j) (document j').
Proof.
  assert (Hrefl : forall d, onlyEmbeddingsDiffer d d).
  { intros d. repeat split. induction (chunksOf d); constructor; [|assumption].
    now repeat split. }
  intros Hstep. destruct Hstep as [j k i v Hk|j k i e Hk|j r Hs Hout];
    cbn [afterEmbedded afterRejected afterJoin document]; try apply Hrefl.
  repeat split. rewrite chunksOf_assignEmbedding.
  apply Forall2_updateAt; intros c; now repeat split.
Qed.

(** X24.  Whatever steps the embedding stage takes, the job's document
    differs from the one that entered the stage at most in the embeddings of
    its chunks: the same chunks in the same order with their ids, text,
    positions and pages, under the same document record; and no identifier
    is drawn. *)
Theorem embedding_changes_only_embeddings (d : Document) (w : World) (j : job) :
  steps (embeddingJob d w) j ->
  onlyEmbeddingsDiffer d (document j) /\ tick (world j) = tick w.
Proof.
  assert (Htick : forall j1 j2, step j1 j2 -> tick (world j2) = tick (world j1)).
  { intros j1 j2 Hstep. destruct Hstep as [j1 k i v Hk|j1 k i e Hk|j1 r Hs Hout];
      cbn [afterEmbedded afterRejected afterJoin world]; try reflexivity.
    destruct r as [[]|e].
    - unfold tryCatch, persist, saveDocument, bind, ensureDB, bind, getDB, ret,
        setDB, updateProgress, throw, Rag.fail. cbn [db tick reported].
      destruct (db (world j1)); reflexivity.
    - reflexivity. }
  intros Hsteps. remember (embeddingJob d w) as j0 eqn:Hj0.
  induction Hsteps as [j|j1 j2 j3 H12 IH H23]; subst.
  - split; [|reflexivity]. cbn [embeddingJob document].
    repeat split. induction (chunksOf d); constructor; [|assumption].
    now repeat split.
  - destruct (IH eq_refl) as [Hdoc Ht]. split; [|rewrite (Htick _ _ H23); exact Ht].
    pose proof (step_document _ _ H23) as Hstep.
    unfold onlyEmbeddingsDiffer in *.
    destruct Hdoc as (? & ? & ? & ? & ? & ? & ? & Hcs).
    destruct Hstep as (? & ? & ? & ? & ? & ? & ? & Hcs').
    repeat split; try congruence.
    exact (Forall2_sameText_trans _ _ _ Hcs Hcs').
Qed.

Lemma filter_map_Awaiting (p : worker -> bool) l :
  (forall i, p (Awaiting i) = true) ->
  filter p (map Awaiting l) = map Awaiting l.
Proof.
  intros Hp. induction l as [|x l IH]; cbn; [reflexivity|]. now rewrite Hp, IH.
Qed.

Lemma filter_none {A} (p : A -> bool) l :
  (forall x, In x l -> p x = false) -> filter p l = [].
Proof.
  induction l as [|x l IH]; intros H; cbn; [reflexivity|].
  rewrite (H x (or_introl eq_refl)). apply IH. intros y Hy. apply H. now right.
Qed.

Lemma accounted_step n events0 j j' :
  accounted n events0 j -> step j j' -> accounted n events0 j'.
Proof.
  intros [Hsum Hevents] Hstep.
  destruct Hstep as [j k i v Hk|j k i e Hk|j r Hs Hout]; unfold accounted.
  - destruct (updateAt_split k (fun _ => fst (nextTurn (queue j))) (workers j) _ Hk)
      as (pre & post & Hsplit & Hupd & _).
    cbn [afterEmbedded completedChunks queue workers world].
    rewrite reported_updateProgress. cbn [reported].
    rewrite Hupd, filter_app, length_app, !length_filter_elt.
    rewrite Hsplit, !length_filter_elt in Hsum. cbn in Hsum |- *.
    destruct (queue j); cbn in *; lia.
  - destruct (updateAt_split k (fun _ => Rejected e) (workers j) _ Hk)
      as (pre & post & Hsplit & Hupd & _).
    cbn [afterRejected completedChunks queue workers world].
    rewrite Hupd, !length_filter_elt.
    rewrite Hsplit, !length_filter_elt in Hsum. cbn in Hsum |- *. lia.
  - cbn [afterJoin completedChunks queue workers world]. split; [exact Hsum|].
    destruct r as [[]|e].
    + destruct (db (world j)) as [d0|] eqn:E;
        [rewrite (persist_open _ _ _ E)|rewrite persist_spec, E];
        cbn [snd reported]; rewrite !filter_app, !length_app; cbn; lia.
    + rewrite fail_spec. cbn [snd reported].
      rewrite filter_app, length_app. cbn. lia.
Qed.

(** X25.  The embedding stage keeps count: at every moment the chunks
    embedded, queued, awaited and given up add up to the number of chunks,
    and one embedding event has been reported per embedded chunk.  When the
    join is fulfilled the count of embedded chunks is the number of chunks. *)
Theorem embedded_chunks_are_counted (d : Document) (w : World) (j : job) :
  0 < length (chunksOf d) ->
  steps (embeddingJob d w) j ->
  accounted (length (chunksOf d))
            (length (filter isEmbeddingEvent (reported w))) j
  /\ (settled j = Some (Ok tt) -> completedChunks j = length (chunksOf d)).
Proof.
  intros Hn Hsteps.
  assert (Hacc : accounted (length (chunksOf d))
                           (length (filter isEmbeddingEvent (reported w))) j).
  { remember (embeddingJob d w) as j0 eqn:Hj0.
    induction Hsteps as [j|j1 j2 j3 H12 IH H23]; subst.
    - rewrite embeddingJob_spec by assumption. unfold accounted.
      cbn [completedChunks queue workers world].
      rewrite (filter_map_Awaiting isAwaiting) by reflexivity.
      rewrite (filter_none isRejected), length_map, !length_seq.
      + unfold CONCURRENCY_LIMIT. cbn [length]. split; lia.
      + intros x Hx. apply in_map_iff in Hx. now destruct Hx as (i & <- & _).
    - apply (accounted_step _ _ j2); [now apply IH|assumption]. }
  split; [exact Hacc|]. intros Hs.
  pose proof (invariant_steps _ _ _ _ (invariant_start d w Hn) Hsteps) as Hinv.
  pose proof (inv_fulfilled _ _ _ Hinv Hs) as Hall.
  assert (Hq : queue j = []).
  { apply (inv_drained _ _ _ Hinv).
    pose proof (inv_workers _ _ _ Hinv) as Hne.
    destruct (workers j) as [|wk ws]; [congruence|].
    rewrite (Hall wk (or_introl eq_refl)). now left. }
  destruct Hacc as [Hsum _]. rewrite Hq in Hsum.
  rewrite (filter_none isAwaiting), (filter_none isRejected) in Hsum.
  - cbn in Hsum. lia.
  - intros x Hx. now rewrite (Hall x Hx).
  - intros x Hx. now rewrite (Hall x Hx).
Qed.

Section WithProcessor.
Variable clock : nat -> Z.
Variable documentIdOf : nat -> str.
Variable detectDocumentType : File -> result DocumentType.
Variable extractText : DocumentType -> File -> result str.

(** X26.  A readable file whose text is white space only is stored without
    an embedding stage: [processDocument] returns a document with no chunk,
    named after the file, and the store holds its record; the chunk store
    and the chat history are as before. *)
Theorem blank_document_is_stored_unembedded
        (file : File) (w : World) (d0 : DB) (t : DocumentType) (text : str) :
  detectDocumentType file = Ok t ->
  t <> image ->
  extractText t file = Ok text ->
  forallb isWhiteSpace text = true ->
  db w = Some d0 ->
  exists d w',
    processDocument clock documentIdOf detectDocumentType extractText file w
    = Ended (Ok d) w'
    /\ chunks d = Some [] /\ doc_name d = file_name file
    /\ doc_id d = documentIdOf (S (S (tick w)))
    /\ db w' = Some (mkDB (put doc_id (storedForm d) (documents d0))
                          (chunkStore d0) (chat_history d0))
    /\ getDocument (doc_id d) w' = (Ok (Some (storedForm d)), w').
Proof.
  intros Hdetect Himage Hextract Hblank Hd.
  unfold processDocument.
  unfold bind at 1. unfold updateProgress at 1.
  set (w0 := mkWorld _ _ _).
  pose proof (processDocument_runs documentIdOf clock detectDocumentType extractText
                file w0 t text Hdetect Himage Hextract) as Hrun.
  cbv zeta in Hrun. unfold DocumentProcessor.chunkDocument in Hrun.
  rewrite (paragraphsOf_blank text Hblank) in Hrun.
  cbn [DocumentProcessor.chunkParagraphs fst snd] in Hrun.
  assert (Hnil : (if isPdf t then DocumentProcessor.addPageNumbers [] text else [])
                 = @nil DocumentChunk) by (now destruct (isPdf t)).
  rewrite Hnil in Hrun.
  set (d := mkDocument _ _ _ _ _ _ _ _) in Hrun.
  assert (Hchunks : chunks d = Some []) by reflexivity.
  assert (Hname : doc_name d = file_name file) by reflexivity.
  assert (Hid : doc_id d = documentIdOf (S (S (tick w)))) by reflexivity.
  assert (Hcs : chunksOf d = []) by reflexivity.
  unfold bind at 1. rewrite Hrun.
  unfold bind, updateProgress, ret. rewrite Hcs. cbn [length Nat.ltb Nat.leb].
  set (w2 := mkWorld _ _ _).
  assert (Hd2 : db w2 = Some d0) by (subst w2 w0; cbn [db] in *; congruence).
  rewrite (persist_open d w2 d0 Hd2). cbn [fst snd].
  eexists d, _. split; [reflexivity|].
  split; [exact Hchunks|]. split; [exact Hname|]. split; [exact Hid|].
  rewrite Hcs. cbn [map fold_left db]. split; [reflexivity|].
  erewrite getDocument_spec by reflexivity. cbn [documents].
  now rewrite (get_put doc_id (storedForm d)).
Qed.

(** X27.  An unreadable file ends the ingestion before the embedding stage:
    [processDocument] throws the processor's error, after two error events
    that word it, one from the document processor and one of its own.  No
    identifier is drawn and the store is not touched. *)
Theorem unreadable_file_ends_ingestion (file : File) (w : World) :
  readable detectDocumentType extractText file = false ->
  exists e w' earlier,
    processDocument clock documentIdOf detectDocumentType extractText file w
    = Ended (Throw e) w'
    /\ db w' = db w /\ tick w' = tick w
    /\ reported w'
       = reported w ++ earlier
           ++ [mkProgress error 0 (units "Processing failed: " ++ messageOf e);
               mkProgress error 0
                          (units "Failed to process document: " ++ messageOf e)].
Proof.
  intros Hunreadable. unfold processDocument.
  unfold bind at 1. unfold updateProgress at 1.
  set (w0 := mkWorld _ _ _).
  destruct (processDocument_throws documentIdOf clock detectDocumentType extractText
              file w0 Hunreadable) as (e & earlier & Hrun).
  unfold bind at 1. rewrite Hrun. rewrite fail_spec. cbn [fst snd db tick reported].
  exists e. eexists _, (_ :: earlier). split; [reflexivity|].
  split; [reflexivity|]. split; [reflexivity|].
  subst w0. cbn [reported]. rewrite <- !app_assoc. reflexivity.
Qed.

End WithProcessor.

End IngestionMore.

(** ** The language model service *)

Section LlmFacts.
Import Storage Rag Llm Notions.

Lemma dropWhile_idem {A} (p : A -> bool) l :
  dropWhile p (dropWhile p l) = dropWhile p l.
Proof.
  induction l as [|x l IH]; [reflexivity|]. cbn [dropWhile].
  destruct (p x) eqn:E; [exact IH|]. cbn [dropWhile]. now rewrite E.
Qed.

Lemma dropWhile_keeps_last {A} (p : A -> bool) l c :
  p c = false -> exists l', dropWhile p (l ++ [c]) = l' ++ [c].
Proof.
  intros Hc. induction l as [|x l IH]; cbn [app dropWhile].
  - rewrite Hc. now exists [].
  - destruct (p x); [exact IH|]. now exists (x :: l).
Qed.

Lemma trim_trim (s : str) : trim (trim s) = trim s.
Proof.
  unfold trim at 1.
  assert (Hstart : trimStart (trim s) = trim s).
  { unfold trim, trimEnd, trimStart.
    destruct (dropWhile isWhiteSpace s) as [|c y] eqn:E; [reflexivity|].
    assert (Hc : isWhiteSpace c = false).
    { clear -E. induction s as [|x s IH]; [discriminate|].
      cbn [dropWhile] in E. destruct (isWhiteSpace x) eqn:Ex; [now apply IH|].
      now inversion E; subst. }
    cbn [rev].
    destruct (dropWhile_keeps_last isWhiteSpace (rev y) c Hc) as (l' & ->).
    rewrite rev_app_distr. cbn [rev app dropWhile]. now rewrite Hc. }
  rewrite Hstart. unfold trim, trimEnd.
  now rewrite rev_involutive, dropWhile_idem.
Qed.

Lemma truthy_default : truthy 0x1.6666666666666p-1 = true.
Proof. reflexivity. Qed.

(** X28.  [generateText] throws its own error when no text model is loaded.
    Otherwise it calls the model once, with the prompt built from the question
    and the context, a token limit that is never 0 and a temperature that is
    never 0 or NaN (the caller's values when they are neither), rethrows what
    the model throws, and returns the generated text without white space at
    either end. *)
Theorem generated_text_is_cleaned
        (svc : Service) (prompt context : str) (temperature : float) (maxTokens : Z) :
  match textGenerator svc with
  | None =>
      generateText svc prompt context temperature maxTokens
      = Throw (JsError (units "Text generation model not loaded. Call initialize() first."))
  | Some run =>
      exists k t,
        k <> 0%Z /\ truthy t = true
        /\ (maxTokens <> 0%Z -> k = maxTokens)
        /\ (truthy temperature = true -> t = temperature)
        /\ match run (buildPrompt prompt context) k t with
           | Ok _ =>
               exists text,
                 generateText svc prompt context temperature maxTokens = Ok text
                 /\ trim text = text
           | Throw e =>
               generateText svc prompt context temperature maxTokens = Throw e
           end
  end.
Proof.
  unfold generateText. destruct (textGenerator svc) as [run|]; [|reflexivity].
  exists (maxNewTokensFor maxTokens), (temperatureFor svc temperature).
  split; [|split; [|split; [|split]]].
  - unfold maxNewTokensFor. destruct (Z.eqb_spec maxTokens 0); [discriminate|assumption].
  - unfold temperatureFor. destruct (truthy temperature) eqn:E; [exact E|].
    destruct (configTemperature svc) as [t|]; [|exact truthy_default].
    destruct (truthy t) eqn:Et; [exact Et|exact truthy_default].
  - unfold maxNewTokensFor. intros H. destruct (Z.eqb_spec maxTokens 0); congruence.
  - unfold temperatureFor. now intros ->.
  - destruct (run _ _ _) as [generated|e]; [|reflexivity].
    eexists. split; [reflexivity|]. unfold cleanResponse. apply trim_trim.
Qed.

Variable generateId : nat -> str.
Variable clock : nat -> Z.

(** X29.  After [unloadModel] the service reports no model loaded, and on an
    open store [chat] still answers: the reply reads "I apologize, but I
    encountered an error while processing your question: Embedding model not
    loaded. Call initialize() first.. Please try again.", has no sources, and
    is saved after the user's message. *)
Theorem unloaded_model_is_answered_with_apology
        (svc : Service) (userMessage : str) (documentIds : option (list str))
        (w : World) (d : DB) :
  db w = Some d ->
  let unloaded := unloadModel svc in
  let asked :=
    mkMessage (generateId (tick w)) userMessage user (clock (S (tick w))) None in
  let reply :=
    mkMessage (generateId (S (S (tick w))))
              (units "I apologize, but I encountered an error while processing your question: Embedding model not loaded. Call initialize() first.. Please try again.")
              assistant (clock (S (S (S (tick w))))) None in
  isModelLoaded unloaded = false
  /\ chat generateId clock (generateEmbedding unloaded) (generateText unloaded)
          userMessage documentIds w
     = (Ok reply,
        mkWorld (Some (mkDB (documents d) (chunkStore d)
                            (put msg_id reply (put msg_id asked (chat_history d)))))
                (4 + tick w) (reported w)).
Proof.
  intros Hd unloaded asked reply. split; [reflexivity|].
  unfold chat, tryCatch, recordUserMessage.
  unfold bind at 1. unfold bind at 1, draw at 1. unfold bind at 1, draw at 1.
  unfold saveChatMessage at 1. unfold bind at 1, ensureDB at 1, bind at 1, getDB at 1.
  cbn [db tick reported]. rewrite Hd. unfold ret at 1, setDB at 1.
  cbn [db tick reported].
  unfold generateResponse, tryCatch, answer.
  unfold bind at 1. unfold searchDocuments, tryCatch.
  unfold bind at 1, lift at 1.
  change (generateEmbedding unloaded userMessage)
    with (@Throw (list float)
            (JsError (units "Embedding model not loaded. Call initialize() first."))).
  unfold throw at 1.
  unfold recover, bind, draw, saveChatMessage, bind, ensureDB, bind, getDB, ret, setDB.
  cbn [db tick reported]. reflexivity.
Qed.

End LlmFacts.

(** ** Progress events *)

Section ProgressFacts.

Lemma SFcompare_swap x y : SFcompare y x = option_map CompOpp (SFcompare x y).
Proof.
  destruct x as [sx|sx| |sx mx ex], y as [sy|sy| |sy my ey]; cbn [SFcompare option_map];
    try reflexivity;
    try (destruct sx; reflexivity); try (destruct sy; reflexivity);
    try (destruct sx, sy; reflexivity).
  change (PosDef.Pos.compare_cont Eq my mx) with (Pos.compare my mx).
  change (PosDef.Pos.compare_cont Eq mx my) with (Pos.compare mx my).
  rewrite (Z.compare_antisym ex ey), (Pos.compare_antisym mx my).
  destruct sx, sy; try reflexivity;
    destruct (ex ?= ey)%Z; cbn [CompOpp]; try reflexivity;
    destruct (mx ?= my)%positive; reflexivity.
Qed.

Lemma SFcompare_refl x : x <> S754_nan -> SFcompare x x = Some Eq.
Proof.
  intros Hx. destruct x as [s|s| |s m e]; cbn [SFcompare]; try reflexivity.
  - now destruct s.
  - congruence.
  - change (PosDef.Pos.compare_cont Eq m m) with (Pos.compare m m).
    rewrite Z.compare_refl, Pos.compare_refl. now destruct s.
Qed.

Lemma is_nan_false (x : float) : is_nan x = false <-> Prim2SF x <> S754_nan.
Proof.
  unfold is_nan. rewrite eqb_spec. unfold SFeqb. split.
  - intros H Hnan. rewrite Hnan in H. discriminate.
  - intros H. now rewrite (SFcompare_refl _ H).
Qed.

Lemma compared (x y : float) :
  is_nan x = false -> is_nan y = false ->
  exists c, SFcompare (Prim2SF x) (Prim2SF y) = Some c.
Proof.
  rewrite !is_nan_false. intros Hx Hy.
  destruct (Prim2SF x), (Prim2SF y); cbn [SFcompare]; try congruence; eexists; reflexivity.
Qed.

Lemma ltb_leb (x y : float) : (x <? y)%float = true -> (x <=? y)%float = true.
Proof.
  rewrite ltb_spec, leb_spec. unfold SFltb, SFleb.
  now destruct (SFcompare _ _) as [[]|].
Qed.

Lemma leb_not_nan (x y : float) :
  (x <=? y)%float = true -> is_nan x = false /\ is_nan y = false.
Proof.
  rewrite leb_spec, !is_nan_false. unfold SFleb. intros H.
  split; intros Hnan; rewrite Hnan in H; cbn in H;
    [discriminate|now destruct (Prim2SF x)].
Qed.

Lemma not_ltb_leb (x y : float) :
  is_nan x = false -> is_nan y = false ->
  (x <? y)%float = false -> (y <=? x)%float = true.
Proof.
  intros Hx Hy. destruct (compared x y Hx Hy) as (c & Hc).
  rewrite ltb_spec, leb_spec. unfold SFltb, SFleb.
  rewrite (SFcompare_swap (Prim2SF x) (Prim2SF y)), Hc.
  now destruct c.
Qed.

Lemma leb_not_ltb (x y : float) :
  (x <=? y)%float = true -> (y <? x)%float = false.
Proof.
  rewrite ltb_spec, leb_spec. unfold SFltb, SFleb.
  rewrite (SFcompare_swap (Prim2SF x) (Prim2SF y)).
  now destruct (SFcompare _ _) as [[]|].
Qed.

Lemma leb_not_ltb_eqb (x y : float) :
  (x <=? y)%float = true -> (x <? y)%float = false -> (x =? y)%float = true.
Proof.
  rewrite ltb_spec, leb_spec, eqb_spec. unfold SFltb, SFleb, SFeqb.
  now destruct (SFcompare _ _) as [[]|].
Qed.

(** The value [Math.min(100, Math.max(0, p))]. *)
Lemma clamp_cases (p : float) :
  mathMin 100 (mathMax 0 p)
  = if is_nan p then nan
    else if (0 <? p)%float then (if (100 <? p)%float then 100 else p)%float
         else 0%float.
Proof.
  unfold mathMax. change (is_nan 0) with false. cbn [orb].
  destruct (is_nan p) eqn:Hp; [reflexivity|].
  destruct (0 <? p)%float eqn:Hpos.
  - unfold mathMin. change (is_nan 100) with false. rewrite Hp. cbn [orb].
    destruct (100 <? p)%float; [reflexivity|].
    destruct (p <? 100)%float; reflexivity.
  - assert (Hzero : (if (p <? 0)%float then 0%float
                     else match classify 0 with NZero => p | _ => 0%float end)
                    = 0%float) by (destruct (p <? 0)%float; reflexivity).
    rewrite Hzero. reflexivity.
Qed.

(** X30.  Every progress event carries a clamped value: [updateProgress]
    appends one event with the stage and message given, whose progress is
    NaN when the value given is NaN and otherwise lies between 0 and 100, and
    equals the value given when that already lies between 0 and 100.  Nothing
    else changes. *)
Theorem reported_progress_is_clamped
        (st : ProcessingStage) (p : float) (m : str) (w : World) :
  exists v,
    updateProgress st p m w
    = (Ok tt, mkWorld (db w) (tick w) (reported w ++ [mkProgress st v m]))
    /\ (is_nan p = true -> is_nan v = true)
    /\ (is_nan p = false -> (0 <=? v)%float = true /\ (v <=? 100)%float = true)
    /\ ((0 <=? p)%float = true -> (p <=? 100)%float = true -> (v =? p)%float = true).
Proof.
  exists (mathMin 100 (mathMax 0 p)). split; [reflexivity|].
  rewrite clamp_cases. split; [|split].
  - now intros ->.
  - intros Hp. rewrite Hp.
    destruct (0 <? p)%float eqn:Hpos; [|split; reflexivity].
    destruct (100 <? p)%float eqn:Hbig; [split; reflexivity|].
    split; [now apply ltb_leb|]. now apply not_ltb_leb.
  - intros Hlow Hhigh. destruct (leb_not_nan _ _ Hlow) as [_ Hp]. rewrite Hp.
    destruct (0 <? p)%float eqn:Hpos.
    + rewrite (leb_not_ltb _ _ Hhigh).
      unfold is_nan in Hp. now destruct (p =? p)%float.
    + now apply leb_not_ltb_eqb.
Qed.

End ProgressFacts.

(** ** Instances of the further properties *)



Lemma deleted_document_is_gone_witness :
  exists w' d',
    Storage.deleteDocument (units "d7") Examples.library = (Ok tt, w')
    /\ db w' = Some d'
    /\ Storage.getDocument (units "d7") w' = (Ok None, w')
    /\ (forall key', key' <> units "d7" ->
          Storage.getDocument key' w'
          = (Ok (get doc_id key'
                     (documents (mkDB [Notions.storedForm Examples.notes] []
                                      [Examples.early; Examples.late]))), w'))
    /\ chat_history d'
       = chat_history (mkDB [Notions.storedForm Examples.notes] []
                            [Examples.early; Examples.late]).
Proof.
  apply (deleted_document_is_gone (units "d7") Examples.library
           (mkDB [Notions.storedForm Examples.notes] []
                 [Examples.early; Examples.late])).
  reflexivity.
Defined.

Lemma deleting_unknown_document_changes_nothing_witness :
  Storage.deleteDocument (units "zz") Sample.world
  = (Ok tt, mkWorld (Some (mkDB [] [Sample.chunkA] [])) (tick Sample.world)
                    (reported Sample.world)).
Proof.
  apply (deleting_unknown_document_changes_nothing (units "zz") Sample.world
           (mkDB [] [Sample.chunkA] [])).
  - reflexivity.
  - reflexivity.
  - simpl. intros chunk [<-|[]]. vm_compute. discriminate.
Defined.

Lemma chat_history_is_the_latest_in_order_witness :
  exists older recent,
    Storage.getChatHistory 1 Examples.library = (Ok recent, Examples.library)
    /\ Permutation (older ++ recent)
                   (getAll (chat_history (mkDB [Notions.storedForm Examples.notes] []
                                               [Examples.early; Examples.late])))
    /\ StronglySorted Notions.notLater (older ++ recent)
    /\ ((0 < 1)%Z ->
        length recent
        = Nat.min (Z.to_nat 1)
                  (length (chat_history (mkDB [Notions.storedForm Examples.notes] []
                                              [Examples.early; Examples.late]))))
    /\ (1%Z = 0%Z -> older = []).
Proof.
  apply (chat_history_is_the_latest_in_order 1 Examples.library
           (mkDB [Notions.storedForm Examples.notes] []
                 [Examples.early; Examples.late])).
  reflexivity.
Defined.

Lemma saved_message_is_in_history_witness :
  exists w' history,
    Storage.saveChatMessage Examples.late Sample.world = (Ok tt, w')
    /\ Storage.getChatHistory 50 w' = (Ok history, w')
    /\ In Examples.late history.
Proof.
  apply (saved_message_is_in_history Examples.late 50 Sample.world
           (mkDB [] [Sample.chunkA] [])).
  - reflexivity.
  - simpl. lia.
Defined.

Lemma cleared_stores_are_empty_witness :
  (exists w',
     Storage.clearChatHistory Examples.library = (Ok tt, w')
     /\ db w' = Some (mkDB [Notions.storedForm Examples.notes] [] [])
     /\ forall limit, Storage.getChatHistory limit w' = (Ok [], w'))
  /\ (exists w',
        Storage.deleteAllData Examples.library = (Ok tt, w')
        /\ Storage.getAllDocuments w' = (Ok [], w')
        /\ (forall limit, Storage.getChatHistory limit w' = (Ok [], w'))
        /\ Storage.getStorageStats w' = (Ok (Storage.mkStats 0 0 0 0), w')
        /\ (forall queryEmbedding topK threshold,
              Storage.searchChunks queryEmbedding topK threshold w' = (Ok [], w'))).
Proof.
  apply (cleared_stores_are_empty Examples.library
           (mkDB [Notions.storedForm Examples.notes] []
                 [Examples.early; Examples.late])).
  reflexivity.
Defined.

Lemma all_documents_are_read_witness :
  exists docs,
    Storage.getAllDocuments Examples.library = (Ok (map Some docs), Examples.library)
    /\ map doc_id docs = [units "d7"].
Proof.
  apply (all_documents_are_read Examples.library
           (mkDB [Notions.storedForm Examples.notes] []
                 [Examples.early; Examples.late])).
  reflexivity.
Defined.

Lemma search_without_match_is_empty_witness :
  Rag.searchDocuments Examples.embedAcross (units "beta")
                      (Rag.mkSearchOptions None None None) Sample.world
  = (Ok (mkSearchResult [] 0 0 0), Sample.world).
Proof.
  apply (search_without_match_is_empty Examples.embedAcross (units "beta")
           (Rag.mkSearchOptions None None None) Sample.world [0; 1]%float
           (mkDB [] [Sample.chunkA] [])).
  - reflexivity.
  - reflexivity.
  - simpl. intros c [<-|[]] _. vm_compute. reflexivity.
Defined.

Lemma search_honours_allow_list_witness :
  exists r,
    Rag.searchDocuments Sample.embedAxis (units "one")
                        (Rag.mkSearchOptions None None (Some [units "dB"]))
                        Sample.crowdedWorld
    = (Ok r, Sample.crowdedWorld)
    /\ ([units "dB"] <> [] ->
        Forall (fun c => In (documentId c) [units "dB"]) (res_chunks r))
    /\ ([units "dB"] = [] ->
        Rag.searchDocuments Sample.embedAxis (units "one")
                            (Rag.mkSearchOptions None None None) Sample.crowdedWorld
        = (Ok r, Sample.crowdedWorld)).
Proof.
  apply (search_honours_allow_list Sample.embedAxis (units "one") None None
           [units "dB"] Sample.crowdedWorld [1; 0]%float
           (mkDB [] [Sample.a1; Sample.a2; Sample.b1] [])).
  - reflexivity.
  - reflexivity.
Defined.


Lemma closed_store_defeats_the_fallback_witness :
  let storageError :=
    JsError (units "Storage not initialized. Call initialize() first.") in
  let w' := mkWorld None 2 [] in
  Rag.generateResponse Sample.ids Z.of_nat Sample.embedQuery Sample.noGenerator
                       (units "why?") (Rag.mkResponseOptions None None None None)
                       Examples.closed = (Throw storageError, w')
  /\ Rag.chat Sample.ids Z.of_nat Sample.embedQuery Sample.noGenerator (units "why?")
              None Examples.closed = (Throw storageError, w')
  /\ Rag.askQuestion Sample.ids Z.of_nat Sample.embedQuery Sample.noGenerator
                     (units "why?") None Examples.closed = (Throw storageError, w').
Proof.
  apply (closed_store_defeats_the_fallback Sample.ids Z.of_nat Sample.embedQuery
           Sample.noGenerator (units "why?") (Rag.mkResponseOptions None None None None)
           None Examples.closed).
  reflexivity.
Defined.

Lemma chat_always_answers_on_open_store_witness :
  let asked := mkMessage (Sample.ids 0) (units "why?") user 1 None in
  exists reply w2 d2,
    Rag.chat Sample.ids Z.of_nat Sample.noEmbedder Sample.noGenerator (units "why?")
             None Sample.world = (Ok reply, w2)
    /\ role reply = assistant
    /\ msg_id reply = Sample.ids 2
    /\ db w2 = Some d2
    /\ chat_history d2 = put msg_id reply (put msg_id asked [])
    /\ get msg_id (msg_id reply) (chat_history d2) = Some reply
    /\ (Sample.ids 0 <> Sample.ids 2 ->
        get msg_id (Sample.ids 0) (chat_history d2) = Some asked).
Proof.
  apply (chat_always_answers_on_open_store Sample.ids Z.of_nat Sample.noEmbedder
           Sample.noGenerator (units "why?") None Sample.world
           (mkDB [] [Sample.chunkA] [])).
  reflexivity.
Defined.

Lemma ask_question_always_returns_witness :
  exists a w2,
    Rag.askQuestion Sample.ids Z.of_nat Sample.noEmbedder Sample.noGenerator
                    (units "why?") None Sample.world = (Ok a, w2)
    /\ (Rag.answerSources a = [] -> Rag.confidence a = 0%float)
    /\ (forall e w1,
          Rag.answer Sample.ids Z.of_nat Sample.noEmbedder Sample.noGenerator
                     (units "why?") (Rag.mkResponseOptions None None None None)
                     Sample.world = (Throw e, w1) ->
          a = Rag.mkAnswer
                (units "I apologize, but I encountered an error while processing your question: "
                   ++ match e with
                      | JsError text => text
                      | NotAnError => units "Unknown error"
                      end
                   ++ units ". Please try again.")
                [] 0).
Proof.
  apply (ask_question_always_returns Sample.ids Z.of_nat Sample.noEmbedder
           Sample.noGenerator (units "why?") None Sample.world
           (mkDB [] [Sample.chunkA] [])).
  reflexivity.
Defined.

Lemma blank_text_gives_no_chunk_witness :
  DocumentProcessor.chunkDocument Sample.ids (units "  
 ") (units "d1") pdf 0 = ([], 0).
Proof.
  apply (blank_text_gives_no_chunk Sample.ids (units "  
 ") (units "d1") pdf 0).
  reflexivity.
Defined.

Lemma processed_document_and_chunks_differ_in_id_witness :
  exists d w',
    DocumentProcessor.processDocument Sample.ids Z.of_nat SampleJob.detect
                                      SampleJob.extract SampleJob.file
                                      SampleJob.emptyWorld = (Ok d, w')
    /\ doc_name d = units "notes.txt" /\ doc_content d = units "a

b

c"
    /\ doc_type d = txt /\ doc_size d = 5
    /\ chunks d
       = Some (fst (DocumentProcessor.chunkDocument Sample.ids (units "a

b

c") (Sample.ids 0) txt 2))
    /\ Forall (fun c => documentId c = Sample.ids 0) (Rag.chunksOf d)
    /\ map id (Rag.chunksOf d) = map Sample.ids (seq 2 (length (Rag.chunksOf d)))
    /\ doc_id d = Sample.ids (2 + length (Rag.chunksOf d))
    /\ tick w' = 0 + 5 + length (Rag.chunksOf d)
    /\ db w' = Some (mkDB [] [] [])
    /\ exists during,
         reported w'
         = [] ++ [mkProgress uploading 0 (units "Starting document processing...");
                  mkProgress extracting 10
                    (units "Processing " ++ DocumentProcessor.upperName txt
                       ++ units " file...")]
              ++ during
              ++ [mkProgress chunking 60 (units "Breaking document into chunks...");
                  mkProgress complete 100 (units "Document processing complete!")].
Proof.
  apply (processed_document_and_chunks_differ_in_id Sample.ids Z.of_nat
           SampleJob.detect SampleJob.extract SampleJob.file SampleJob.emptyWorld
           txt (units "a

b

c")).
  - reflexivity.
  - discriminate.
  - reflexivity.
Defined.

Lemma unreadable_file_is_reported_and_rethrown_witness :
  exists e earlier,
    DocumentProcessor.processDocument Sample.ids Z.of_nat Examples.detectImage
                                      SampleJob.extract Examples.picture
                                      SampleJob.emptyWorld
    = (Throw e,
       mkWorld (Some (mkDB [] [] [])) 0
               ([] ++ earlier
                  ++ [mkProgress error 0 (units "Processing failed: " ++ messageOf e)]))
    /\ e = JsError (units "Unsupported file type: " ++ units "image/png").
Proof.
  apply (unreadable_file_is_reported_and_rethrown Sample.ids Z.of_nat
           Examples.detectImage SampleJob.extract Examples.picture
           SampleJob.emptyWorld).
  reflexivity.
Defined.

(** The sample run of [SampleJob], from the start of the embedding stage. *)
Lemma sample_embedding_run :
  Rag.steps (Rag.embeddingJob (Rag.document SampleJob.job0) (Rag.world SampleJob.job0))
            SampleJob.job3.
Proof.
  change (Rag.steps SampleJob.job0 SampleJob.job3).
  apply Rag.steps_next with (j2 := SampleJob.job2);
    [|apply Rag.step_embedded; reflexivity].
  apply Rag.steps_next with (j2 := SampleJob.job1);
    [|apply Rag.step_embedded; reflexivity].
  apply Rag.steps_next with (j2 := SampleJob.job0);
    [apply Rag.steps_refl|apply Rag.step_embedded; reflexivity].
Qed.


Lemma embedding_changes_only_embeddings_witness :
  Notions.onlyEmbeddingsDiffer (Rag.document SampleJob.job0)
                               (Rag.document SampleJob.job3)
  /\ tick (Rag.world SampleJob.job3) = tick (Rag.world SampleJob.job0).
Proof.
  apply (embedding_changes_only_embeddings (Rag.document SampleJob.job0)
           (Rag.world SampleJob.job0) SampleJob.job3).
  apply sample_embedding_run.
Defined.

Lemma embedded_chunks_are_counted_witness :
  Notions.accounted (length (Rag.chunksOf (Rag.document SampleJob.job0)))
                    (length (filter Notions.isEmbeddingEvent
                                    (reported (Rag.world SampleJob.job0))))
                    SampleJob.job3
  /\ (Rag.settled SampleJob.job3 = Some (Ok tt) ->
      Rag.completedChunks SampleJob.job3
      = length (Rag.chunksOf (Rag.document SampleJob.job0))).
Proof.
  apply (embedded_chunks_are_counted (Rag.document SampleJob.job0)
           (Rag.world SampleJob.job0) SampleJob.job3).
  - vm_compute. lia.
  - apply sample_embedding_run.
Defined.

Lemma blank_document_is_stored_unembedded_witness :
  exists d w',
    Rag.processDocument Z.of_nat Sample.ids SampleJob.detect Examples.blank
                        SampleJob.file SampleJob.emptyWorld
    = Rag.Ended (Ok d) w'
    /\ chunks d = Some [] /\ doc_name d = units "notes.txt"
    /\ doc_id d = Sample.ids 2
    /\ db w' = Some (mkDB (put doc_id (Notions.storedForm d) []) [] [])
    /\ Storage.getDocument (doc_id d) w' = (Ok (Some (Notions.storedForm d)), w').
Proof.
  apply (blank_document_is_stored_unembedded Z.of_nat Sample.ids SampleJob.detect
           Examples.blank SampleJob.file SampleJob.emptyWorld (mkDB [] [] []) txt
           (units "  
 ")).
  - reflexivity.
  - discriminate.
  - reflexivity.
  - reflexivity.
  - reflexivity.
Defined.

Lemma unreadable_file_ends_ingestion_witness :
  exists e w' earlier,
    Rag.processDocument Z.of_nat Sample.ids Examples.detectImage SampleJob.extract
                        Examples.picture SampleJob.emptyWorld
    = Rag.Ended (Throw e) w'
    /\ db w' = Some (mkDB [] [] []) /\ tick w' = 0
    /\ reported w'
       = [] ++ earlier
           ++ [mkProgress error 0 (units "Processing failed: " ++ messageOf e);
               mkProgress error 0
                          (units "Failed to process document: " ++ messageOf e)].
Proof.
  apply (unreadable_file_ends_ingestion Z.of_nat Sample.ids Examples.detectImage
           SampleJob.extract Examples.picture SampleJob.emptyWorld).
  reflexivity.
Defined.

Lemma unloaded_model_is_answered_with_apology_witness :
  let unloaded := Llm.unloadModel Examples.echo in
  let asked := mkMessage (Sample.ids 0) (units "why?") user 1 None in
  let reply :=
    mkMessage (Sample.ids 2)
              (units "I apologize, but I encountered an error while processing your question: Embedding model not loaded. Call initialize() first.. Please try again.")
              assistant 3 None in
  Llm.isModelLoaded unloaded = false
  /\ Rag.chat Sample.ids Z.of_nat (Llm.generateEmbedding unloaded)
              (Llm.generateText unloaded) (units "why?") None Sample.world
     = (Ok reply,
        mkWorld (Some (mkDB [] [Sample.chunkA]
                            (put msg_id reply (put msg_id asked []))))
                4 []).
Proof.
  apply (unloaded_model_is_answered_with_apology Sample.ids Z.of_nat Examples.echo
           (units "why?") None Sample.world (mkDB [] [Sample.chunkA] [])).
  reflexivity.
Defined.
